(** * The LSP transport helpers of the elm-lsp-rust scripts

    A shallow embedding of the three helpers that every script of the
    repository carries (benchmark.py, test_refs.py, test_workspace.py, ...):

    - [encode_lsp]       frames a JSON message behind a Content-Length header;
    - [read_responses]   the reader thread: one character at a time into a
                         buffer, frames cut out with a regular expression;
    - [wait_for_response] polls the queue until a message with the wanted id
                         shows up or the deadline passes;

    together with [print_results], the reduction of the benchmark samples.

    Python values are modelled as follows.  A [str] is a list of Unicode code
    points ([N]); the pipes are opened with [text=True], so the buffer of the
    reader is a [str] too and [len] and slices count code points.  A JSON
    value is the tree [json]; a [dict] is an association list in insertion
    order with distinct keys.  The library functions the helpers call
    ([json.dumps], [json.loads], [re.search], [queue.Queue.get]) are modelled
    after CPython's behaviour, each in its own module below. *)

From Stdlib Require Import Ascii String.
From Stdlib Require Import List NArith ZArith QArith Lia Bool.
From Stdlib Require Import Decimal DecimalN DecimalFacts.
Import ListNotations.

Local Open Scope list_scope.
Local Open Scope N_scope.

(** ** Characters and strings *)

Definition char := N.
Definition str := list char.

(** A Rocq string literal as a Python [str] (all literals used are ASCII). *)
Definition lit (s : string) : str := map N_of_ascii (list_ascii_of_string s).
Arguments lit s%_string.

Definition QUOTE : char := 34.      (* the double quote *)
Definition BACKSLASH : char := 92.  (* the backslash *)
Definition LF : char := 10.         (* line feed, \n *)
Definition CR : char := 13.         (* carriage return, \r *)
Definition MINUS : char := 45.      (* the minus sign *)

Definition str_eqb (a b : str) : bool :=
  if list_eq_dec N.eq_dec a b then true else false.

(** [s.startswith(p)], returning what follows the prefix. *)
Fixpoint strip_prefix (p s : str) : option str :=
  match p, s with
  | [], _ => Some s
  | a :: p', b :: s' => if a =? b then strip_prefix p' s' else None
  | _ :: _, [] => None
  end.

(** [p in s] for strings. *)
Fixpoint contains (p s : str) : bool :=
  match strip_prefix p s with
  | Some _ => true
  | None => match s with
            | [] => false
            | _ :: s' => contains p s'
            end
  end.

(** The ASCII decimal digits.  (Python's [\d] and [int] also know the other
    Unicode decimal digits; the wire format only ever carries these ten, and
    the model's digit class is the ASCII one.) *)
Definition is_digit (c : char) : bool := (48 <=? c) && (c <=? 57).

Definition is_ascii (c : char) : bool := c <? 128.

(** Number of bytes of the UTF-8 encoding of one code point, and of a string:
    [len(s.encode('utf-8'))]. *)
Definition utf8_width (c : char) : nat :=
  if c <? 128 then 1%nat
  else if c <? 2048 then 2%nat
  else if c <? 65536 then 3%nat
  else 4%nat.

Definition utf8_len (s : str) : nat :=
  fold_right (fun c n => (utf8_width c + n)%nat) 0%nat s.

(** *** Decimal numerals: [str(n)] and [int(s)] *)

Fixpoint uint_chars (u : Decimal.uint) : str :=
  match u with
  | Nil => []
  | D0 u' => 48 :: uint_chars u'
  | D1 u' => 49 :: uint_chars u'
  | D2 u' => 50 :: uint_chars u'
  | D3 u' => 51 :: uint_chars u'
  | D4 u' => 52 :: uint_chars u'
  | D5 u' => 53 :: uint_chars u'
  | D6 u' => 54 :: uint_chars u'
  | D7 u' => 55 :: uint_chars u'
  | D8 u' => 56 :: uint_chars u'
  | D9 u' => 57 :: uint_chars u'
  end.

Definition digit_cons (c : char) (u : Decimal.uint) : Decimal.uint :=
  if c =? 48 then D0 u else if c =? 49 then D1 u else if c =? 50 then D2 u
  else if c =? 51 then D3 u else if c =? 52 then D4 u else if c =? 53 then D5 u
  else if c =? 54 then D6 u else if c =? 55 then D7 u else if c =? 56 then D8 u
  else D9 u.

Fixpoint chars_uint (s : str) : Decimal.uint :=
  match s with
  | [] => Nil
  | c :: s' => digit_cons c (chars_uint s')
  end.

(** [str(n)] for a natural number. *)
Definition str_of_N (n : N) : str := uint_chars (N.to_uint n).

(** [int(s)] for a string of decimal digits (leading zeros allowed). *)
Definition int_of_digits (s : str) : N := N.of_uint (chars_uint s).

(** [str(z)] for an integer. *)
Definition str_of_Z (z : Z) : str :=
  if (z <? 0)%Z then MINUS :: str_of_N (Z.to_N (- z)) else str_of_N (Z.to_N z).

(** The longest prefix of digits, and the rest. *)
Fixpoint span_digits (s : str) : str * str :=
  match s with
  | c :: s' => if is_digit c
               then let (d, r) := span_digits s' in (c :: d, r)
               else ([], s)
  | [] => ([], [])
  end.

(** ** JSON values *)

(** A Python [float] as [json.loads] builds it from a number literal with a
    fraction or an exponent: the exact decimal [m * 10^e], or one of the three
    constants.  Binary rounding and [repr] are not modelled; no statement
    below is about a message that holds a float. *)
Inductive pyfloat : Type :=
| FDec (m e : Z)
| FNaN
| FInf (neg : bool).

(** What [json.loads] returns and [json.dumps] accepts: [None], [bool], [int],
    [float], [str], [list] and [dict] with [str] keys. *)
#[warnings="-register-all"]
Inductive json : Type :=
| JNull
| JBool (b : bool)
| JInt (z : Z)
| JFloat (f : pyfloat)
| JStr (s : str)
| JArr (l : list json)
| JObj (kv : list (str * json)).

(** Induction over a JSON value, with the hypothesis for every element of a
    list and every value of a dict. *)
Section json_induction.
Variable P : json -> Prop.
Hypothesis HNull : P JNull.
Hypothesis HBool : forall b, P (JBool b).
Hypothesis HInt : forall z, P (JInt z).
Hypothesis HFloat : forall f, P (JFloat f).
Hypothesis HStr : forall s, P (JStr s).
Hypothesis HArr : forall l, Forall P l -> P (JArr l).
Hypothesis HObj : forall kv, Forall (fun p => P (snd p)) kv -> P (JObj kv).

Fixpoint json_nested_ind (j : json) : P j :=
  match j with
  | JNull => HNull
  | JBool b => HBool b
  | JInt z => HInt z
  | JFloat f => HFloat f
  | JStr s => HStr s
  | JArr l =>
      HArr l ((fix all (l : list json) : Forall P l :=
                 match l with
                 | [] => Forall_nil P
                 | x :: l' => Forall_cons x (json_nested_ind x) (all l')
                 end) l)
  | JObj kv =>
      HObj kv ((fix all (kv : list (str * json))
                  : Forall (fun p => P (snd p)) kv :=
                  match kv with
                  | [] => Forall_nil _
                  | p :: kv' =>
                      Forall_cons p (json_nested_ind (snd p)) (all kv')
                  end) kv)
  end.
End json_induction.

(** [d[k] = v] on an insertion-ordered dict: an existing key keeps its place. *)
Fixpoint dict_set (k : str) (v : json) (d : list (str * json)) : list (str * json) :=
  match d with
  | [] => [(k, v)]
  | (k', v') :: d' => if str_eqb k' k then (k, v) :: d' else (k', v') :: dict_set k v d'
  end.

(** [d.get(k)]: the value, or [None] when the key is absent. *)
Fixpoint dict_get (k : str) (d : list (str * json)) : option json :=
  match d with
  | [] => None
  | (k', v') :: d' => if str_eqb k' k then Some v' else dict_get k d'
  end.

(** *** json.dumps (default arguments: ensure_ascii, separators ', ' and ': ') *)

Definition hexdigit (d : N) : char := if d <? 10 then 48 + d else 87 + d.

(** ['{0:04x}'.format(n)] for [n < 0x10000]. *)
Definition hex4 (n : N) : str :=
  [hexdigit ((n / 4096) mod 16); hexdigit ((n / 256) mod 16);
   hexdigit ((n / 16) mod 16); hexdigit (n mod 16)].

Definition u_escape (n : N) : str := BACKSLASH :: 117 :: hex4 n.

(** The replacement [py_encode_basestring_ascii] makes for one character:
    the short escapes of ESCAPE_DCT, the printable ASCII characters as they
    are, [\uXXXX] for the rest of the BMP and a surrogate pair above it. *)
Definition escape_char (c : char) : str :=
  if c =? QUOTE then [BACKSLASH; QUOTE]
  else if c =? BACKSLASH then [BACKSLASH; BACKSLASH]
  else if c =? 8 then [BACKSLASH; 98]
  else if c =? 12 then [BACKSLASH; 102]
  else if c =? LF then [BACKSLASH; 110]
  else if c =? CR then [BACKSLASH; 114]
  else if c =? 9 then [BACKSLASH; 116]
  else if (32 <=? c) && (c <=? 126) then [c]
  else if c <? 65536 then u_escape c
  else
    let n := c - 65536 in
    let s1 := N.lor 55296 (N.land (N.shiftr n 10) 1023) in
    let s2 := N.lor 56320 (N.land n 1023) in
    u_escape s1 ++ u_escape s2.

Definition encode_basestring_ascii (s : str) : str :=
  QUOTE :: flat_map escape_char s ++ [QUOTE].

Definition NULL : str := Eval cbv in lit "null".
Definition TRUE : str := Eval cbv in lit "true".
Definition FALSE : str := Eval cbv in lit "false".
Definition NAN : str := Eval cbv in lit "NaN".
Definition INFINITY : str := Eval cbv in lit "Infinity".
Definition NEG_INFINITY : str := Eval cbv in lit "-Infinity".
Definition ITEM_SEPARATOR : str := Eval cbv in lit ", ".
Definition KEY_SEPARATOR : str := Eval cbv in lit ": ".

(** Stand-in for [float.__repr__]: a literal that [json.loads] reads back as
    the same [pyfloat]. *)
Definition float_repr (f : pyfloat) : str :=
  match f with
  | FDec m e => str_of_Z m ++ 101 :: str_of_Z e
  | FNaN => NAN
  | FInf false => INFINITY
  | FInf true => NEG_INFINITY
  end.

(** [sep.join(l)] *)
Fixpoint join (sep : str) (l : list str) : str :=
  match l with
  | [] => []
  | x :: l' => match l' with
               | [] => x
               | _ :: _ => x ++ sep ++ join sep l'
               end
  end.

Fixpoint json_dumps (j : json) : str :=
  match j with
  | JNull => NULL
  | JBool true => TRUE
  | JBool false => FALSE
  | JInt z => str_of_Z z
  | JFloat f => float_repr f
  | JStr s => encode_basestring_ascii s
  | JArr l => 91 :: join ITEM_SEPARATOR (map json_dumps l) ++ [93]
  | JObj kv =>
      123 :: join ITEM_SEPARATOR
               (map (fun p => encode_basestring_ascii (fst p) ++ KEY_SEPARATOR
                                ++ json_dumps (snd p)) kv)
          ++ [125]
  end.

(** *** json.loads (the scanner of CPython's json module, strict mode) *)

Definition is_ws (c : char) : bool :=
  (c =? 32) || (c =? 9) || (c =? LF) || (c =? CR).

Fixpoint skip_ws (s : str) : str :=
  match s with
  | c :: s' => if is_ws c then skip_ws s' else s
  | [] => []
  end.

Definition hexval (c : char) : option N :=
  if is_digit c then Some (c - 48)
  else if (97 <=? c) && (c <=? 102) then Some (c - 87)
  else if (65 <=? c) && (c <=? 70) then Some (c - 55)
  else None.

Definition unhex4 (a b c d : char) : option N :=
  match hexval a, hexval b, hexval c, hexval d with
  | Some x, Some y, Some z, Some w => Some (((x * 16 + y) * 16 + z) * 16 + w)
  | _, _, _, _ => None
  end.

Definition is_high_surrogate (c : N) : bool := (55296 <=? c) && (c <=? 56319).
Definition is_low_surrogate (c : N) : bool := (56320 <=? c) && (c <=? 57343).

(** Py_UNICODE_JOIN_SURROGATES *)
Definition join_surrogates (hi lo : N) : N :=
  65536 + N.lor (N.shiftl (N.land hi 1023) 10) (N.land lo 1023).

(** The character a one-letter escape stands for. *)
Definition short_escape (c : char) : option char :=
  if c =? QUOTE then Some QUOTE
  else if c =? BACKSLASH then Some BACKSLASH
  else if c =? 47 then Some 47
  else if c =? 98 then Some 8
  else if c =? 102 then Some 12
  else if c =? 110 then Some LF
  else if c =? 114 then Some CR
  else if c =? 116 then Some 9
  else None.

(** [scanstring(s, end, strict=True)], entered after the opening quote:
    the decoded string and what follows the closing quote.  A high surrogate
    escape directly followed by another [\u] escape reads the second one at
    once: a low surrogate is joined to it, anything else is put back. *)
Fixpoint scanstring (s : str) : option (str * str) :=
  match s with
  | [] => None
  | c :: r =>
    if c =? QUOTE then Some ([], r)
    else if c =? BACKSLASH then
      match r with
      | [] => None
      | e :: r1 =>
        if e =? 117 then
          match r1 with
          | h1 :: h2 :: h3 :: h4 :: r2 =>
            match unhex4 h1 h2 h3 h4 with
            | None => None
            | Some u =>
              let lone := match scanstring r2 with
                          | Some (t, rest) => Some (u :: t, rest)
                          | None => None
                          end in
              if is_high_surrogate u then
                match r2 with
                | b :: l :: g1 :: g2 :: g3 :: g4 :: r3 =>
                  if (b =? BACKSLASH) && (l =? 117) then
                    match unhex4 g1 g2 g3 g4 with
                    | None => None
                    | Some u2 =>
                      if is_low_surrogate u2 then
                        match scanstring r3 with
                        | Some (t, rest) => Some (join_surrogates u u2 :: t, rest)
                        | None => None
                        end
                      else lone
                    end
                  else lone
                | _ => lone
                end
              else lone
            end
          | _ => None
          end
        else
          match short_escape e with
          | None => None
          | Some x => match scanstring r1 with
                      | Some (t, rest) => Some (x :: t, rest)
                      | None => None
                      end
          end
      end
    else if c <? 32 then None
    else match scanstring r with
         | Some (t, rest) => Some (c :: t, rest)
         | None => None
         end
  end.

Definition signed (neg : bool) (n : N) : Z :=
  if neg then (- Z.of_N n)%Z else Z.of_N n.

(** The optional fraction of a number literal: a dot and at least one digit. *)
Definition match_frac (s : str) : option str * str :=
  match s with
  | d :: x :: r =>
    if (d =? 46) && is_digit x
    then let (f, r') := span_digits (x :: r) in (Some f, r')
    else (None, s)
  | _ => (None, s)
  end.

(** The optional exponent of a number literal: e or E, an optional sign and
    at least one digit. *)
Definition match_exp (s : str) : option (bool * str) * str :=
  match s with
  | e :: r =>
    if (e =? 101) || (e =? 69) then
      let (neg, r1) := match r with
                       | sg :: t => if sg =? MINUS then (true, t)
                                    else if sg =? 43 then (false, t)
                                    else (false, r)
                       | [] => (false, r)
                       end in
      let (ds, r2) := span_digits r1 in
      match ds with
      | [] => (None, s)
      | _ :: _ => (Some (neg, ds), r2)
      end
    else (None, s)
  | [] => (None, s)
  end.

(** [_match_number]: an optional minus sign, then either a single 0 or a
    run of digits that starts with 1 to 9, then the optional fraction and
    exponent.  The result is an [int] when neither of the two is there. *)
Definition match_number (s : str) : option (json * str) :=
  let (neg, s1) := match s with
                   | c :: r => if c =? MINUS then (true, r) else (false, s)
                   | [] => (false, s)
                   end in
  match s1 with
  | [] => None
  | c :: r =>
    if is_digit c then
      let (ip, r1) := if c =? 48 then ([c], r) else span_digits s1 in
      let (frac, r2) := match_frac r1 in
      let (ex, r3) := match_exp r2 in
      match frac, ex with
      | None, None => Some (JInt (signed neg (int_of_digits ip)), r3)
      | _, _ =>
        let fd := match frac with Some f => f | None => [] end in
        let ev := match ex with
                  | Some (eneg, ds) => signed eneg (int_of_digits ds)
                  | None => 0%Z
                  end in
        Some (JFloat (FDec (signed neg (int_of_digits (ip ++ fd)))
                           (ev - Z.of_nat (length fd))), r3)
      end
    else None
  end.

(** The constants and numbers of [scan_once]. *)
Definition scan_atom (s : str) : option (json * str) :=
  match strip_prefix NULL s with
  | Some r => Some (JNull, r)
  | None =>
  match strip_prefix TRUE s with
  | Some r => Some (JBool true, r)
  | None =>
  match strip_prefix FALSE s with
  | Some r => Some (JBool false, r)
  | None =>
  match strip_prefix NAN s with
  | Some r => Some (JFloat FNaN, r)
  | None =>
  match strip_prefix INFINITY s with
  | Some r => Some (JFloat (FInf false), r)
  | None =>
  match strip_prefix NEG_INFINITY s with
  | Some r => Some (JFloat (FInf true), r)
  | None => match_number s
  end end end end end end.

(** [scan_once], with the loops of [_parse_array] and [_parse_object] as two
    more functions.  [fuel] bounds the depth of the calls; [None] is a
    [JSONDecodeError] (or no fuel). *)
Fixpoint scan_once (fuel : nat) (s : str) : option (json * str) :=
  match fuel with
  | O => None
  | S fuel' =>
    match s with
    | [] => None
    | c :: r =>
      if c =? QUOTE then
        match scanstring r with
        | Some (t, r') => Some (JStr t, r')
        | None => None
        end
      else if c =? 123 then
        match skip_ws r with
        | [] => None
        | c' :: r' => if c' =? 125 then Some (JObj [], r')
                      else parse_members fuel' (c' :: r') []
        end
      else if c =? 91 then
        match skip_ws r with
        | [] => None
        | c' :: r' => if c' =? 93 then Some (JArr [], r')
                      else parse_elems fuel' (c' :: r') []
        end
      else scan_atom s
    end
  end
with parse_elems (fuel : nat) (s : str) (acc : list json) : option (json * str) :=
  match fuel with
  | O => None
  | S fuel' =>
    match scan_once fuel' s with
    | None => None
    | Some (v, r) =>
      match skip_ws r with
      | [] => None
      | c :: r' =>
        if c =? 93 then Some (JArr (acc ++ [v]), r')
        else if c =? 44 then parse_elems fuel' (skip_ws r') (acc ++ [v])
        else None
      end
    end
  end
with parse_members (fuel : nat) (s : str) (acc : list (str * json))
  : option (json * str) :=
  match fuel with
  | O => None
  | S fuel' =>
    match s with
    | [] => None
    | q :: r =>
      if q =? QUOTE then
        match scanstring r with
        | None => None
        | Some (k, r1) =>
          match skip_ws r1 with
          | [] => None
          | c1 :: r2 =>
            if c1 =? 58 then
              match scan_once fuel' (skip_ws r2) with
              | None => None
              | Some (v, r3) =>
                match skip_ws r3 with
                | [] => None
                | c3 :: r4 =>
                  if c3 =? 125 then Some (JObj (dict_set k v acc), r4)
                  else if c3 =? 44
                       then parse_members fuel' (skip_ws r4) (dict_set k v acc)
                       else None
                end
              end
            else None
          end
        end
      else None
    end
  end.

(** [json.loads(s)]: optional white space, one value, optional white space,
    end of input.  Every call of the scanner consumes a character or is
    followed by one that does, so twice the length is fuel enough. *)
Definition json_loads (s : str) : option json :=
  match scan_once (2 * length s + 2) (skip_ws s) with
  | Some (v, r) => match skip_ws r with
                   | [] => Some v
                   | _ :: _ => None
                   end
  | None => None
  end.

(** ** Framing: encode_lsp and read_responses (benchmark.py, lines 155-183;
    the same two functions stand in each of the other scripts) *)

(** A small error monad: [None] only ever means that a loop ran out of the
    fuel it was given. *)
Definition bind {A B : Type} (x : option A) (f : A -> option B) : option B :=
  match x with
  | Some a => f a
  | None => None
  end.

Notation "'do' x <- e ; k" := (bind e (fun x => k))
  (at level 10, x pattern, e at level 100, k at level 200).

Definition HEADER : str := Eval cbv in lit "Content-Length: ".
Definition HEADER_KEY : str := Eval cbv in lit "Content-Length:".
Definition CRLF_CRLF : str := [CR; LF; CR; LF].

(** [[
def encode_lsp(obj):
    content = json.dumps(obj)
    return f"Content-Length: {len(content)}\r\n\r\n{content}"
]] *)
Definition encode_lsp (obj : json) : str :=
  let content := json_dumps obj in
  HEADER ++ str_of_N (N.of_nat (length content)) ++ CRLF_CRLF ++ content.

(** *** re.search(r'Content-Length: (\d+)\r?\n\r?\n', buffer) *)

(** [\r?\n] at the head of [s].  No backtracking is lost: when the optional
    [\r] is skipped the next character has to be [\n], which a [\r] is not. *)
Definition match_eol (s : str) : option str :=
  match s with
  | [] => None
  | c :: r =>
    if c =? CR then
      match r with
      | [] => None
      | d :: r' => if d =? LF then Some r' else None
      end
    else if c =? LF then Some r
    else None
  end.

(** The pattern matched at the head of [s]: group 1 and what follows the
    match.  The greedy [\d+] never has to give a digit back, because what
    comes after it in the pattern cannot match a digit. *)
Definition re_match_here (s : str) : option (str * str) :=
  do s1 <- strip_prefix HEADER s;
  let (ds, s2) := span_digits s1 in
  match ds with
  | [] => None
  | _ :: _ =>
    do s3 <- match_eol s2;
    do s4 <- match_eol s3;
    Some (ds, s4)
  end.

(** The leftmost match at or after offset [pos], [s] being the text from
    [pos] on: group 1 and the offset of the end of the match. *)
Fixpoint re_search_from (pos : nat) (s : str) : option (str * nat) :=
  match re_match_here s with
  | Some (g, rest) => Some (g, (pos + (length s - length rest))%nat)
  | None =>
    match s with
    | [] => None
    | _ :: s' => re_search_from (S pos) s'
    end
  end.

(** [match.group(1)] and [match.end()] of the search, [None] without match. *)
Definition re_search (buffer : str) : option (str * nat) :=
  re_search_from 0 buffer.

(** *** The inner loop

[[
            while "Content-Length:" in buffer:
                match = re.search(r'Content-Length: (\d+)\r?\n\r?\n', buffer)
                if not match:
                    break
                length = int(match.group(1))
                header_end = match.end()
                if len(buffer) >= header_end + length:
                    content = buffer[header_end:header_end + length]
                    buffer = buffer[header_end + length:]
                    try:
                        response_queue.put(json.loads(content))
                    except:
                        pass
                else:
                    break
]]
    The state is the buffer and the queue, the oldest message first. *)
Fixpoint drain (fuel : nat) (buffer : str) (queue : list json)
  : option (str * list json) :=
  match fuel with
  | O => None
  | S fuel' =>
    if contains HEADER_KEY buffer then
      match re_search buffer with
      | None => Some (buffer, queue)
      | Some (g, header_end) =>
        let len := int_of_digits g in
        if N.of_nat header_end + len <=? N.of_nat (length buffer) then
          let content := firstn (N.to_nat len) (skipn header_end buffer) in
          let buffer' := skipn (header_end + N.to_nat len) buffer in
          match json_loads content with
          | Some m => drain fuel' buffer' (queue ++ [m])
          | None => drain fuel' buffer' queue
          end
        else Some (buffer, queue)
      end
    else Some (buffer, queue)
  end.

(** Every turn of the loop that goes on removes a match from the buffer, so
    its length bounds the number of turns. *)
Definition drain_buffer (buffer : str) (queue : list json)
  : option (str * list json) :=
  drain (S (length buffer)) buffer queue.

(** *** The outer loop

[[
def read_responses(stdout, response_queue, stop_event):
    buffer = ""
    while not stop_event.is_set():
        try:
            chunk = stdout.read(1)
            if not chunk:
                break
            buffer += chunk
            ...
]]
    [read_chunks] is the loop for any sequence of chunks the reads may
    return, an empty chunk being the end of the stream; [read_responses]
    is the loop as it is written, one character per read, run until the
    stream ends (the stop event is not set meanwhile).  The result is the
    buffer left over and the queue. *)
Fixpoint read_chunks (chunks : list str) (buffer : str) (queue : list json)
  : option (str * list json) :=
  match chunks with
  | [] => Some (buffer, queue)
  | chunk :: rest =>
    match chunk with
    | [] => Some (buffer, queue)
    | _ :: _ =>
      do st <- drain_buffer (buffer ++ chunk) queue;
      read_chunks rest (fst st) (snd st)
    end
  end.

Definition read_responses (stdout : str) : option (str * list json) :=
  read_chunks (map (fun c => [c]) stdout) [] [].

(** ** Frames on the wire *)

(** The header [encode_lsp] writes for a body of [n] characters. *)
Definition header_of (n : nat) : str :=
  HEADER ++ str_of_N (N.of_nat n) ++ CRLF_CRLF.

(** A correctly framed message: the header with the length of the body, then
    the body, which may be any text. *)
Definition frame (body : str) : str := header_of (length body) ++ body.

(** What the reader puts on the queue for a sequence of frame bodies: the
    JSON documents among them, in order. *)
Definition decoded (bodies : list str) : list json :=
  flat_map (fun b => match json_loads b with
                     | Some m => [m]
                     | None => []
                     end) bodies.

(** [p] ends before the first of the frames [todo] is complete. *)
Definition short_of (p : str) (todo : list str) : Prop :=
  match todo with
  | [] => p = []
  | b :: _ => (length p < length (frame b))%nat
  end.

Definition count_lf (s : str) : nat := count_occ N.eq_dec s LF.

(** ** Other spellings of the header *)

Definition FIELD_NAME : str := Eval cbv in lit "Content-Length".

(** A frame whose header field is spelled [name]. *)
Definition frame_as (name body : str) : str :=
  name ++ KEY_SEPARATOR ++ str_of_N (N.of_nat (length body)) ++ CRLF_CRLF ++ body.

(** [c.lower()] for an ASCII letter. *)
Definition to_lower (c : char) : char :=
  if (65 <=? c) && (c <=? 90) then c + 32 else c.

(** [name] is Content-Length up to the case of its letters. *)
Definition same_field (name : str) : bool :=
  str_eqb (map to_lower name) (map to_lower FIELD_NAME).

(** A header with a terminator whose length is no decimal numeral. *)
Definition MALFORMED : str := Eval cbv in lit "Content-Length: abc" ++ CRLF_CRLF.

(** ** The queue and wait_for_response (test_refs.py, lines 45-54;
    test_workspace.py, lines 45-58) *)

(** The reader thread runs beside the script.  What the script can see of it
    is the sequence of messages it puts on the queue and the time of each
    [put]; times are in milliseconds.  A [world] is the clock of the script
    and the puts it has not taken from the queue yet, the oldest first: those
    whose time has passed are in the queue, the others are still to come. *)
Record arrival : Type := { at_ms : N; msg : json }.

Record world : Type := { now : N; pending : list arrival }.

(** [q.get(timeout=t)]: the oldest message if it is there, or as soon as it
    comes within [t] milliseconds; otherwise [queue.Empty] after [t]. *)
Definition queue_get (t : N) (w : world) : option json * world :=
  match pending w with
  | [] => (None, {| now := now w + t; pending := [] |})
  | a :: rest =>
    if at_ms a <=? now w
    then (Some (msg a), {| now := now w; pending := rest |})
    else if at_ms a <? now w + t
         then (Some (msg a), {| now := at_ms a; pending := rest |})
         else (None, {| now := now w + t; pending := pending w |})
  end.

Definition ID : str := Eval cbv in lit "id".
Definition METHOD : str := Eval cbv in lit "method".

(** [v == id] for an [int] id: an [int] by value, [True] as 1 and [False]
    as 0, a float by its decimal value; nothing else equals an [int]. *)
Definition py_eq_int (v : json) (id : Z) : bool :=
  match v with
  | JInt z => (z =? id)%Z
  | JBool b => ((if b then 1 else 0) =? id)%Z
  | JFloat (FDec m e) =>
      if (0 <=? e)%Z then (m * 10 ^ e =? id)%Z else (m =? id * 10 ^ (- e))%Z
  | _ => false
  end.

(** [r.get("id") == id] for a dict [r], the key being absent giving [None]. *)
Definition id_is (kv : list (str * json)) (id : Z) : bool :=
  match dict_get ID kv with
  | Some v => py_eq_int v id
  | None => false
  end.

(** How a call ends: with a returned value ([None] or a message) or with the
    [AttributeError] of [r.get] on a message that is no dict, which nothing
    in the function catches. *)
Inductive outcome : Type :=
| Returned (r : option json)
| Raised.

(** [[
def wait_for_response(q, id, timeout=30):
    start = time.time()
    while time.time() - start < timeout:
        try:
            r = q.get(timeout=1)
            if r.get("id") == id:
                return r
        except queue.Empty:
            continue
    return None
]]
    The statements themselves take no time.  [timeout] is in milliseconds. *)
Fixpoint wait_loop (fuel : nat) (start timeout : N) (id : Z) (w : world)
  : option (outcome * world) :=
  match fuel with
  | O => None
  | S fuel' =>
    if now w - start <? timeout then
      match queue_get 1000 w with
      | (Some r, w') =>
        match r with
        | JObj kv => if id_is kv id then Some (Returned (Some r), w')
                     else wait_loop fuel' start timeout id w'
        | _ => Some (Raised, w')
        end
      | (None, w') => wait_loop fuel' start timeout id w'
      end
    else Some (Returned None, w)
  end.

(** Every turn of the loop takes a message off [pending] or moves the clock
    on by a second, so this many turns are enough. *)
Definition wait_fuel (timeout : N) (w : world) : nat :=
  S (length (pending w) + N.to_nat ((timeout + 999) / 1000)).

Definition wait_for_response (w : world) (id : Z) (timeout : N)
  : option (outcome * world) :=
  wait_loop (wait_fuel timeout w) (now w) timeout id w.

(** The variant of test_workspace.py, which prints the method of every
    message it passes over that has one:
[[
            if r.get("id") == id:
                return r
            # Print notifications
            if "method" in r:
                print(f"  [notification] {r.get('method')}")
]]
    The third component of the result is what was printed. *)
Fixpoint wait_loop_ws (fuel : nat) (start timeout : N) (id : Z) (w : world)
         (printed : list json) : option (outcome * world * list json) :=
  match fuel with
  | O => None
  | S fuel' =>
    if now w - start <? timeout then
      match queue_get 1000 w with
      | (Some r, w') =>
        match r with
        | JObj kv =>
          if id_is kv id then Some (Returned (Some r), w', printed)
          else match dict_get METHOD kv with
               | Some m => wait_loop_ws fuel' start timeout id w' (printed ++ [m])
               | None => wait_loop_ws fuel' start timeout id w' printed
               end
        | _ => Some (Raised, w', printed)
        end
      | (None, w') => wait_loop_ws fuel' start timeout id w' printed
      end
    else Some (Returned None, w, printed)
  end.

Definition wait_for_response_ws (w : world) (id : Z) (timeout : N)
  : option (outcome * world * list json) :=
  wait_loop_ws (wait_fuel timeout w) (now w) timeout id w [].

(** A message that the waiter for [id] passes over: a dict whose id is not
    [id] (a response to another request, or a notification). *)
Definition other_message (id : Z) (a : arrival) : bool :=
  match msg a with
  | JObj kv => negb (id_is kv id)
  | _ => false
  end.

(** A message that the waiter for [id] returns. *)
Definition wanted_message (id : Z) (a : arrival) : bool :=
  match msg a with
  | JObj kv => id_is kv id
  | _ => false
  end.

(** The seconds the loop may still have to sit out. *)
Definition seconds_left (start timeout : N) (w : world) : nat :=
  N.to_nat ((start + timeout - now w + 999) / 1000).

(** What a finished call has done to the queue: it took [consumed] off it. *)
Definition consumed_by (id : Z) (o : outcome) (consumed : list arrival) : Prop :=
  match o with
  | Returned None => forallb (other_message id) consumed = true
  | Returned (Some r) =>
      exists skipped a,
        consumed = skipped ++ [a] /\ msg a = r /\ wanted_message id a = true /\
        forallb (other_message id) skipped = true
  | Raised =>
      exists skipped a,
        consumed = skipped ++ [a] /\ other_message id a = false /\
        wanted_message id a = false /\
        forallb (other_message id) skipped = true
  end.

(** ** The timing harness (benchmark.py, lines 255-261 and 335-348) *)

(** One entry of [results[op]]: the elapsed milliseconds of a request that
    was answered, or [float('inf')] for one that timed out.  Times are exact
    rationals here; the rounding of floats is not modelled. *)
Inductive sample : Type :=
| Ms (t : Q)
| Inf.

(** [[
            try:
                resp = response_queue.get(timeout=5)
                results["documentSymbol"].append((time.time() - start) * 1000)
            except queue.Empty:
                results["documentSymbol"].append(float('inf'))
]]
    on the queue of the world [w], [start] being the time before the send. *)
Definition timed_get (timeout : N) (start : N) (w : world) : sample * world :=
  match queue_get timeout w with
  | (Some _, w') => (Ms (inject_Z (Z.of_N (now w' - start))), w')
  | (None, w') => (Inf, w')
  end.

(** [[ valid_times = [t for t in times if t != float('inf')] ]] *)
Fixpoint valid_times (times : list sample) : list Q :=
  match times with
  | [] => []
  | Ms t :: rest => t :: valid_times rest
  | Inf :: rest => valid_times rest
  end.

(** [sum], [min] and [max] of a list of numbers. *)
Definition py_sum (l : list Q) : Q := fold_left Qplus l (0 # 1).

Definition py_min (t : Q) (l : list Q) : Q :=
  fold_left (fun m x => if Qle_bool m x then m else x) l t.

Definition py_max (t : Q) (l : list Q) : Q :=
  fold_left (fun m x => if Qle_bool x m then m else x) l t.

(** What [print_results] prints for one operation: the three numbers of the
    line [avg=... min=... max=...], or the line [TIMEOUT/ERROR].  (The
    format, two decimals, is not modelled.) *)
Inductive report : Type :=
| Stats (op : string) (avg min_t max_t : Q)
| TimeoutError (op : string).

(** [[
    for op, times in results.items():
        valid_times = [t for t in times if t != float('inf')]
        if valid_times:
            avg = sum(valid_times) / len(valid_times)
            min_t = min(valid_times)
            max_t = max(valid_times)
            print(f"  {op:20s}: avg={avg:8.2f}ms  min={min_t:8.2f}ms  max={max_t:8.2f}ms")
        else:
            print(f"  {op:20s}: TIMEOUT/ERROR")
]] *)
Definition print_line (op : string) (times : list sample) : report :=
  match valid_times times with
  | [] => TimeoutError op
  | t :: rest =>
      Stats op
            (Qdiv (py_sum (t :: rest)) (inject_Z (Z.of_nat (length (t :: rest)))))
            (py_min t rest) (py_max t rest)
  end.

Definition print_results (results : list (string * list sample)) : list report :=
  map (fun r => print_line (fst r) (snd r)) results.

(** The number of trials of an operation that failed. *)
Fixpoint failed (times : list sample) : nat :=
  match times with
  | [] => O
  | Ms _ :: rest => failed rest
  | Inf :: rest => S (failed rest)
  end.

(** ** Predicates used in the statements *)

(** Case analysis on every comparison of the goal. *)
Ltac ncases :=
  repeat match goal with
         | |- context [?a =? ?b] => destruct (N.eqb_spec a b)
         | |- context [?a <? ?b] => destruct (N.ltb_spec a b)
         | |- context [?a <=? ?b] => destruct (N.leb_spec a b)
         end.

(** The head of a string is not a digit (or there is no head). *)
Definition no_digit_ahead (s : str) : Prop :=
  match s with
  | [] => True
  | c :: _ => is_digit c = false
  end.

(** The printable ASCII characters, space to tilde. *)
Definition is_printable (c : char) : bool := (32 <=? c) && (c <=? 126).

Definition all_printable (s : str) : Prop := Forall (fun c => 32 <= c <= 126) s.

Definition all_ascii (s : str) : Prop := Forall (fun c => c < 128) s.

(** The text starts with the [\u] escape of a low surrogate, the one thing
    [scanstring] joins to a high surrogate read just before. *)
Definition low_escape_ahead (r : str) : bool :=
  match r with
  | b :: l :: g1 :: g2 :: g3 :: g4 :: _ =>
      (b =? BACKSLASH) && (l =? 117)
      && match unhex4 g1 g2 g3 g4 with
         | Some u2 => is_low_surrogate u2
         | None => true
         end
  | _ => false
  end.

Definition low_ahead (s : str) : bool :=
  match s with
  | d :: _ => is_low_surrogate d
  | [] => false
  end.

(** The strings that [json.loads] reads back as [json.dumps] wrote them:
    every code point is one of a Python [str] (up to 0x10FFFF), and no high
    surrogate stands directly before a low surrogate.  A surrogate on its
    own is allowed, as it is in a Python [str]. *)
Fixpoint no_surrogate_pair (s : str) : bool :=
  match s with
  | [] => true
  | c :: r =>
      (c <? 1114112) && negb (is_high_surrogate c && low_ahead r)
      && no_surrogate_pair r
  end.

Definition scan_cons (x : char) (r : option (str * str)) : option (str * str) :=
  match r with
  | Some (t, rest) => Some (x :: t, rest)
  | None => None
  end.

(** What may follow a value inside a document that [json.dumps] wrote: a
    comma, a closing bracket or brace, or the end. *)
Definition delimited (rest : str) : Prop :=
  match rest with
  | [] => True
  | c :: _ => c = 44 \/ c = 93 \/ c = 125
  end.

(** The first character of a dumped value is no white space and none of the
    characters that close or separate. *)
Definition starts_value (s : str) : Prop :=
  exists c t, s = c :: t /\ is_ws c = false /\ c <> 93 /\ c <> 125 /\ c <> 44.

Fixpoint distinct (l : list str) : bool :=
  match l with
  | [] => true
  | k :: l' => negb (existsb (str_eqb k) l') && distinct l'
  end.

(** The JSON documents the round trip is stated for: no float, no high
    surrogate directly before a low one in a string or a key, and the keys
    of every dict distinct (as those of a Python dict are). *)
Fixpoint wf_json (j : json) : bool :=
  match j with
  | JNull | JBool _ | JInt _ => true
  | JFloat _ => false
  | JStr s => no_surrogate_pair s
  | JArr l => forallb wf_json l
  | JObj kv =>
      distinct (map fst kv)
      && forallb (fun p => no_surrogate_pair (fst p) && wf_json (snd p)) kv
  end.

(** Fuel that [scan_once] needs for the document [json.dumps] writes. *)
Fixpoint scan_cost (j : json) : nat :=
  match j with
  | JArr l => S (fold_right (fun x n => S (Nat.max (scan_cost x) n)) O l)
  | JObj kv => S (fold_right (fun p n => S (Nat.max (scan_cost (snd p)) n)) O kv)
  | _ => 1%nat
  end.

(** The property of one value that the round trip is proved by induction for. *)
Definition reads_back (j : json) : Prop :=
  wf_json j = true ->
  forall fuel rest, (scan_cost j <= fuel)%nat -> delimited rest ->
  scan_once fuel (json_dumps j ++ rest) = Some (j, rest).

(** One member of a dict as [json.dumps] writes it. *)
Definition dump_member (p : str * json) : str :=
  encode_basestring_ascii (fst p) ++ KEY_SEPARATOR ++ json_dumps (snd p).

(** A successful scan reads at least one character and succeeds alike with
    any fuel from twice the number of characters read. *)
Definition scan_ok (f : nat) : Prop :=
  forall s v r,
    scan_once f s = Some (v, r) ->
    (length r < length s)%nat /\
    forall f', (2 * (length s - length r) <= f')%nat -> scan_once f' s = Some (v, r).

Definition elems_ok (f : nat) : Prop :=
  forall s acc v r,
    parse_elems f s acc = Some (v, r) ->
    (length r < length s)%nat /\
    forall f', (2 * (length s - length r) + 1 <= f')%nat ->
               parse_elems f' s acc = Some (v, r).

Definition members_ok (f : nat) : Prop :=
  forall s acc v r,
    parse_members f s acc = Some (v, r) ->
    (length r < length s)%nat /\
    forall f', (2 * (length s - length r) + 1 <= f')%nat ->
               parse_members f' s acc = Some (v, r).

(** ** Messages of the scripts, used as concrete inputs *)

(** [{"jsonrpc": "2.0", "id": 1, "method": "initialize",
      "params": {"capabilities": {}}}] (benchmark.py, line 221) *)
Definition msg_initialize : json :=
  JObj [(lit "jsonrpc", JStr (lit "2.0")); (lit "id", JInt 1);
        (lit "method", JStr (lit "initialize"));
        (lit "params", JObj [(lit "capabilities", JObj [])])].

(** [{"jsonrpc": "2.0", "method": "initialized", "params": {}}] *)
Definition msg_initialized : json :=
  JObj [(lit "jsonrpc", JStr (lit "2.0"));
        (lit "method", JStr (lit "initialized")); (lit "params", JObj [])].

(** A response to request [id] with the given result. *)
Definition response (id : Z) (result : json) : json :=
  JObj [(lit "jsonrpc", JStr (lit "2.0")); (lit "id", JInt id);
        (lit "result", result)].


Definition nonempty (c : str) : bool :=
  match c with
  | [] => false
  | _ :: _ => true
  end.

(** [{"jsonrpc": "2.0", "method": "window/logMessage", "params": {}}], a
    notification of the server. *)
Definition msg_log : json :=
  JObj [(lit "jsonrpc", JStr (lit "2.0"));
        (lit "method", JStr (lit "window/logMessage")); (lit "params", JObj [])].

(** Requests 1 and 2 are out; the response to 2 is put on the queue after 10
    ms, the response to 1 after 20 ms. *)
Definition out_of_order : world :=
  {| now := 0;
     pending := [ {| at_ms := 10; msg := response 2 (JStr (lit "two")) |};
                  {| at_ms := 20; msg := response 1 (JStr (lit "one")) |} ] |}.

(** A server that answers another request and logs, but never answers
    request 7. *)
Definition never_answers : world :=
  {| now := 100;
     pending := [ {| at_ms := 90; msg := response 3 JNull |};
                  {| at_ms := 120; msg := msg_log |};
                  {| at_ms := 5000; msg := msg_log |} ] |}.

(** ** Other streams the reader may be given *)

(** The two texts that [\r?\n] matches. *)
Definition is_eol (e : str) : bool := str_eqb e [LF] || str_eqb e [CR; LF].

(** A frame whose header writes the length as the digits [ds] and ends its
    two lines with [e1] and [e2]. *)
Definition frame_with (ds e1 e2 body : str) : str :=
  HEADER ++ ds ++ e1 ++ e2 ++ body.

(** A frame as a language server writes it: Content-Length is the number of
    bytes of the UTF-8 encoding of the body.  The pipe is read as text, so
    the reader sees the characters of the body. *)
Definition byte_frame (body : str) : str := header_of (utf8_len body) ++ body.

(** A buffer the inner loop leaves as it is, whatever is on the queue. *)
Definition settled (buffer : str) : Prop :=
  forall fuel queue, drain (S fuel) buffer queue = Some (buffer, queue).

(** The body ["é"] as a server writes it, the accented letter raw: three
    characters, four bytes. *)
Definition accented_body : str := [QUOTE; 233; QUOTE].

(** The message [m] stands in [stream] in a frame: behind a header that the
    pattern matches, whose number is the length of the body, and the body
    is a JSON document that reads as [m]. *)
Definition framed_in (stream : str) (m : json) : Prop :=
  exists pre ds e1 e2 body post,
    stream = pre ++ frame_with ds e1 e2 body ++ post
    /\ nonempty ds = true /\ forallb is_digit ds = true
    /\ is_eol e1 = true /\ is_eol e2 = true
    /\ int_of_digits ds = N.of_nat (length body)
    /\ json_loads body = Some m.

(** A header line besides Content-Length, as the base protocol allows. *)
Definition CONTENT_TYPE : str :=
  Eval cbv in lit "Content-Type: application/vscode-jsonrpc; charset=utf-8".

(** A frame with a second header line [field] behind Content-Length. *)
Definition frame_then_field (field body : str) : str :=
  HEADER ++ str_of_N (N.of_nat (length body)) ++ [CR; LF]
         ++ field ++ CRLF_CRLF ++ body.

(** A frame with a header line [field] before Content-Length. *)
Definition field_then_frame (field body : str) : str :=
  field ++ [CR; LF] ++ frame body.

(** ** The other ways the scripts wait for a response *)

(** [isinstance(r, dict)] for a decoded message. *)
Definition is_dict (j : json) : bool :=
  match j with
  | JObj _ => true
  | _ => false
  end.

(** [d.get(k, default)]. *)
Definition dict_get_default (k : str) (d : list (str * json)) (default : json)
  : json :=
  match dict_get k d with
  | Some v => v
  | None => default
  end.

Definition RESPONSE : str := Eval cbv in lit "response".
Definition NOT_AVAILABLE : str := Eval cbv in lit "N/A".

(** The loop of debug_compare.py (lines 93-102, and again at 133-142 and
    158-167):
[[
        resp = None
        for _ in range(20):
            try:
                r = response_queue.get(timeout=1)
                print(f"  Got message: method={r.get('method', 'response')} id={r.get('id', 'N/A')}")
                if r.get("id") == 1:
                    resp = r
                    break
            except queue.Empty:
                break
]]
    [n] is the bound of the range and [id] the id asked for.  The result is
    [resp] (or the AttributeError of [r.get] on a message that is no dict),
    the world afterwards, and the two values of every line printed. *)
Fixpoint poll_for (n : nat) (id : Z) (w : world) (printed : list (json * json))
  : outcome * world * list (json * json) :=
  match n with
  | O => (Returned None, w, printed)
  | S n' =>
    match queue_get 1000 w with
    | (Some r, w') =>
      match r with
      | JObj kv =>
        let printed' :=
          printed ++ [(dict_get_default METHOD kv (JStr RESPONSE),
                       dict_get_default ID kv (JStr NOT_AVAILABLE))] in
        if id_is kv id then (Returned (Some r), w', printed')
        else poll_for n' id w' printed'
      | _ => (Raised, w', printed)
      end
    | (None, w') => (Returned None, w', printed)
    end
  end.

(** The loop of test_lsp.py (lines 138-144) that gathers what has come:
[[
        responses = []
        try:
            while True:
                resp = response_queue.get(timeout=0.5)
                responses.append(resp)
        except queue.Empty:
            pass
]]
    Every turn but the last takes a message off the queue, so the number of
    pending messages bounds the turns. *)
Fixpoint collect_loop (fuel : nat) (w : world) (responses : list json)
  : option (list json * world) :=
  match fuel with
  | O => None
  | S fuel' =>
    match queue_get 500 w with
    | (Some resp, w') => collect_loop fuel' w' (responses ++ [resp])
    | (None, w') => Some (responses, w')
    end
  end.

Definition collect_responses (w : world) : option (list json * world) :=
  collect_loop (S (length (pending w))) w [].

(** Every message of [l] comes less than [gap] milliseconds after the one
    before it was taken, the clock standing at [t] to begin with. *)
Fixpoint no_gap (gap : N) (t : N) (l : list arrival) : bool :=
  match l with
  | [] => true
  | a :: l' => (at_ms a <? t + gap) && no_gap gap (N.max t (at_ms a)) l'
  end.

(** A server that answers request 1 after a second and a half of silence. *)
Definition slow_answer : world :=
  {| now := 0; pending := [ {| at_ms := 1500; msg := response 1 JNull |} ] |}.

(** A server that sends a batch (a JSON array) after a notification. *)
Definition sends_batch : world :=
  {| now := 0;
     pending := [ {| at_ms := 5; msg := msg_log |};
                  {| at_ms := 9; msg := JArr [response 1 JNull] |};
                  {| at_ms := 12; msg := response 1 JNull |} ] |}.

(** A server that logs twice and then answers request 7. *)
Definition answers_behind_logs : world :=
  {| now := 100;
     pending := [ {| at_ms := 90; msg := msg_log |};
                  {| at_ms := 120; msg := msg_log |};
                  {| at_ms := 700; msg := response 7 JNull |};
                  {| at_ms := 800; msg := msg_log |} ] |}.

(** ** The benchmark: one run against a server (benchmark.py, lines
    185-333) *)

(** [results], the dict of the seven lists of samples. *)
Record results : Type := {
  startup : list sample;
  didOpen : list sample;
  documentSymbol : list sample;
  hover : list sample;
  completion : list sample;
  definition : list sample;
  references : list sample
}.

Definition no_results : results :=
  {| startup := []; didOpen := []; documentSymbol := []; hover := [];
     completion := []; definition := []; references := [] |}.

(** [time.sleep] *)
Definition sleep (ms : N) (w : world) : world :=
  {| now := now w + ms; pending := pending w |}.

(** [(time.time() - start) * 1000] *)
Definition elapsed (start : N) (w : world) : sample :=
  Ms (inject_Z (Z.of_N (now w - start))).

(** One turn of the loop of [benchmark_lsp] (lines 197-331), on the world of
    the server process it starts; the clock of the world stands at the time
    of [start = time.time()] before [Popen].
[[
            msg = encode_lsp({"jsonrpc": "2.0", "id": 1, "method": "initialize", ...})
            proc.stdin.write(msg)
            proc.stdin.flush()
            try:
                resp = response_queue.get(timeout=10)
                startup_time = time.time() - start
                results["startup"].append(startup_time * 1000)
            except queue.Empty:
                print("TIMEOUT on initialize")
                continue
            ...
            time.sleep(0.1)
            start = time.time()
            ...
            time.sleep(0.3)  # Give time to parse
            results["didOpen"].append((time.time() - start) * 1000)
            start = time.time()
            ...
            try:
                resp = response_queue.get(timeout=5)
                results["documentSymbol"].append((time.time() - start) * 1000)
            except queue.Empty:
                results["documentSymbol"].append(float('inf'))
            ...
]]
    and likewise for hover (5 s), completion (10 s), definition (5 s) and
    references (5 s).  Starting the process and writing to its pipe take no
    time and do not fail ([iteration_io] below is the turn with writes that
    may fail).  The result is [results] and the world when the turn ends. *)
Definition iteration (w : world) (r : results) : results * world :=
  let start := now w in
  match queue_get 10000 w with
  | (None, w1) => (r, w1)
  | (Some _, w1) =>
    let s_startup := elapsed start w1 in
    let w2 := sleep 100 w1 in
    let start := now w2 in
    let w3 := sleep 300 w2 in
    let s_didOpen := elapsed start w3 in
    let (s_documentSymbol, w4) := timed_get 5000 (now w3) w3 in
    let (s_hover, w5) := timed_get 5000 (now w4) w4 in
    let (s_completion, w6) := timed_get 10000 (now w5) w5 in
    let (s_definition, w7) := timed_get 5000 (now w6) w6 in
    let (s_references, w8) := timed_get 5000 (now w7) w7 in
    ({| startup := startup r ++ [s_startup];
        didOpen := didOpen r ++ [s_didOpen];
        documentSymbol := documentSymbol r ++ [s_documentSymbol];
        hover := hover r ++ [s_hover];
        completion := completion r ++ [s_completion];
        definition := definition r ++ [s_definition];
        references := references r ++ [s_references] |}, w8)
  end.

(** [benchmark_lsp]: one turn for each server process; [runs] holds the
    world of each process in turn ([iterations] is its length). *)
Fixpoint benchmark_loop (runs : list world) (r : results) : results :=
  match runs with
  | [] => r
  | w :: runs' => benchmark_loop runs' (fst (iteration w r))
  end.

Definition benchmark_lsp (runs : list world) : results :=
  benchmark_loop runs no_results.

(** The server of this run answers [initialize] within ten seconds. *)
Definition initialized (w : world) : bool :=
  match fst (queue_get 10000 w) with
  | Some _ => true
  | None => false
  end.

(** The seven lists of [r] have the length [k]. *)
Definition aligned (k : nat) (r : results) : Prop :=
  length (startup r) = k /\ length (didOpen r) = k
  /\ length (documentSymbol r) = k /\ length (hover r) = k
  /\ length (completion r) = k /\ length (definition r) = k
  /\ length (references r) = k.

(** A server that answers [initialize] at once and the documentSymbol
    request after seven seconds, two seconds after the script gave up
    waiting for it; it answers nothing else. *)
Definition answers_too_late : world :=
  {| now := 0;
     pending := [ {| at_ms := 50; msg := response 1 JNull |};
                  {| at_ms := 7450; msg := response 2 JNull |} ] |}.

(** A server that answers [initialize] and then publishes diagnostics while
    the script sleeps; the response to the documentSymbol request comes
    two seconds later. *)
Definition publishes_diagnostics : world :=
  {| now := 0;
     pending := [ {| at_ms := 50; msg := response 1 JNull |};
                  {| at_ms := 300; msg := msg_log |};
                  {| at_ms := 2450; msg := response 2 (JArr []) |} ] |}.

(** *** Writes that fail

    [proc.stdin.write] and [flush] raise when the server has gone
    ([BrokenPipeError]); the [except Exception] of line 322 catches that,
    prints ERROR and the turn is over.  A [run] is the world of the server
    together with the fate of each of the eight writes of a turn, numbered
    from 0 ([initialize]) to 7 ([references]) in the order of the script. *)
Record run : Type := { server : world; write_ok : nat -> bool }.

(** [results[op].append(s)] for each of the seven keys. *)
Definition add_startup (s : sample) (r : results) : results :=
  {| startup := startup r ++ [s]; didOpen := didOpen r;
     documentSymbol := documentSymbol r; hover := hover r;
     completion := completion r; definition := definition r;
     references := references r |}.

Definition add_didOpen (s : sample) (r : results) : results :=
  {| startup := startup r; didOpen := didOpen r ++ [s];
     documentSymbol := documentSymbol r; hover := hover r;
     completion := completion r; definition := definition r;
     references := references r |}.

Definition add_documentSymbol (s : sample) (r : results) : results :=
  {| startup := startup r; didOpen := didOpen r;
     documentSymbol := documentSymbol r ++ [s]; hover := hover r;
     completion := completion r; definition := definition r;
     references := references r |}.

Definition add_hover (s : sample) (r : results) : results :=
  {| startup := startup r; didOpen := didOpen r;
     documentSymbol := documentSymbol r; hover := hover r ++ [s];
     completion := completion r; definition := definition r;
     references := references r |}.

Definition add_completion (s : sample) (r : results) : results :=
  {| startup := startup r; didOpen := didOpen r;
     documentSymbol := documentSymbol r; hover := hover r;
     completion := completion r ++ [s]; definition := definition r;
     references := references r |}.

Definition add_definition (s : sample) (r : results) : results :=
  {| startup := startup r; didOpen := didOpen r;
     documentSymbol := documentSymbol r; hover := hover r;
     completion := completion r; definition := definition r ++ [s];
     references := references r |}.

Definition add_references (s : sample) (r : results) : results :=
  {| startup := startup r; didOpen := didOpen r;
     documentSymbol := documentSymbol r; hover := hover r;
     completion := completion r; definition := definition r;
     references := references r ++ [s] |}.

(** One turn of the loop of [benchmark_lsp] with its [try] and [except]:
    the statements of [iteration], each [append] at its place, and the turn
    ends at the first write that raises.  [continue] after a timeout on
    [initialize] ends it as well. *)
Definition iteration_io (x : run) (r : results) : results * world :=
  let ok := write_ok x in
  let w := server x in
  let start := now w in
  if negb (ok 0%nat) then (r, w) else
  match queue_get 10000 w with
  | (None, w1) => (r, w1)
  | (Some _, w1) =>
    let r := add_startup (elapsed start w1) r in
    if negb (ok 1%nat) then (r, w1) else
    let w2 := sleep 100 w1 in
    let start := now w2 in
    if negb (ok 2%nat) then (r, w2) else
    let w3 := sleep 300 w2 in
    let r := add_didOpen (elapsed start w3) r in
    if negb (ok 3%nat) then (r, w3) else
    let (s, w4) := timed_get 5000 (now w3) w3 in
    let r := add_documentSymbol s r in
    if negb (ok 4%nat) then (r, w4) else
    let (s, w5) := timed_get 5000 (now w4) w4 in
    let r := add_hover s r in
    if negb (ok 5%nat) then (r, w5) else
    let (s, w6) := timed_get 10000 (now w5) w5 in
    let r := add_completion s r in
    if negb (ok 6%nat) then (r, w6) else
    let (s, w7) := timed_get 5000 (now w6) w6 in
    let r := add_definition s r in
    if negb (ok 7%nat) then (r, w7) else
    let (s, w8) := timed_get 5000 (now w7) w7 in
    (add_references s r, w8)
  end.

Fixpoint benchmark_loop_io (runs : list run) (r : results) : results :=
  match runs with
  | [] => r
  | x :: runs' => benchmark_loop_io runs' (fst (iteration_io x r))
  end.

Definition benchmark_lsp_io (runs : list run) : results :=
  benchmark_loop_io runs no_results.

(** The turn gets as far as the first [append]: the first write succeeds
    and the server answers [initialize] in time. *)
Definition started (x : run) : bool :=
  write_ok x 0%nat && initialized (server x).

(** The turn gets to its end: it starts and none of the other seven writes
    fails. *)
Definition finished (x : run) : bool :=
  started x && forallb (write_ok x) (seq 1 7).

(** No write of the turn fails. *)
Definition writes_succeed (x : run) : bool := forallb (write_ok x) (seq 0 8).

(** Each list is at most as long as the one before it, in the order of the
    keys. *)
Definition descending (r : results) : Prop :=
  (length (references r) <= length (definition r))%nat
  /\ (length (definition r) <= length (completion r))%nat
  /\ (length (completion r) <= length (hover r))%nat
  /\ (length (hover r) <= length (documentSymbol r))%nat
  /\ (length (documentSymbol r) <= length (didOpen r))%nat
  /\ (length (didOpen r) <= length (startup r))%nat.

(** A server that answers [initialize] and is gone when the script writes
    the documentSymbol request. *)
Definition dies_after_didOpen : run :=
  {| server := {| now := 0;
                  pending := [ {| at_ms := 50; msg := response 1 JNull |} ] |};
     write_ok := fun i => (i <? 3)%nat |}.

(** ** Text functions of Python the scripts use on the server's output *)

(** [s.index(p)]: the offset of the first occurrence of [p] in [s]; [None]
    stands for the ValueError when there is none. *)
Fixpoint index_of (p s : str) : option nat :=
  match strip_prefix p s with
  | Some _ => Some O
  | None => match s with
            | [] => None
            | _ :: r => option_map S (index_of p r)
            end
  end.

(** [s.startswith(p)] *)
Definition startswith (p s : str) : bool :=
  match strip_prefix p s with
  | Some _ => true
  | None => false
  end.

(** The text before and after the first occurrence of [sep] in [s]. *)
Fixpoint cut (sep s : str) : option (str * str) :=
  match strip_prefix sep s with
  | Some rest => Some ([], rest)
  | None => match s with
            | [] => None
            | c :: r => match cut sep r with
                        | Some (b, a) => Some (c :: b, a)
                        | None => None
                        end
            end
  end.

(** [s.split(sep)] for a separator that is not empty: [s] is cut at every
    occurrence of [sep], found from left to right.  The text behind a
    separator is shorter than [s], whose length bounds the cuts. *)
Fixpoint split_loop (fuel : nat) (sep s : str) : list str :=
  match fuel with
  | O => [s]
  | S fuel' => match cut sep s with
               | Some (b, a) => b :: split_loop fuel' sep a
               | None => [s]
               end
  end.

Definition split (sep s : str) : list str := split_loop (length s) sep s.

(** [l[-1]] of a list that is not empty. *)
Definition last_piece (l : list str) : str := last l [].

(** [l[-n:]], the last [n] elements of [l], all of it when it has fewer. *)
Definition tail_of {A : Type} (n : nat) (l : list A) : list A :=
  skipn (length l - n) l.

(** [c.isspace()], the characters [str.strip] removes: the ASCII white
    space and separators, and the white space of Unicode beyond ASCII. *)
Definition is_space (c : char) : bool :=
  ((9 <=? c) && (c <=? 13)) || ((28 <=? c) && (c <=? 32))
  || (c =? 133) || (c =? 160) || (c =? 5760)
  || ((8192 <=? c) && (c <=? 8202))
  || (c =? 8232) || (c =? 8233) || (c =? 8239) || (c =? 8287) || (c =? 12288).

Fixpoint lstrip (s : str) : str :=
  match s with
  | [] => []
  | c :: r => if is_space c then lstrip r else s
  end.

Definition rstrip (s : str) : str := List.rev (lstrip (List.rev s)).

(** [s.strip()] *)
Definition strip (s : str) : str := rstrip (lstrip s).

(** The text behind the last occurrence of the character [sep] in [s];
    [None] when [sep] does not occur. *)
Fixpoint after_last (sep : char) (s : str) : option str :=
  match s with
  | [] => None
  | c :: r => match after_last sep r with
              | Some t => Some t
              | None => if c =? sep then Some r else None
              end
  end.

Definition SLASH : char := 47.

(** [os.path.basename(p)] of posixpath:
[[
    i = p.rfind(sep) + 1
    return p[i:]
]] *)
Definition basename (p : str) : str :=
  match after_last SLASH p with
  | Some t => t
  | None => p
  end.

(** [a <= b] on strings: the order of the code points, a proper prefix
    before the longer string. *)
Fixpoint str_leb (a b : str) : bool :=
  match a, b with
  | [], _ => true
  | _ :: _, [] => false
  | x :: a', y :: b' =>
    if x <? y then true else if y <? x then false else str_leb a' b'
  end.

(** [sorted(d.items())] for a dict: the keys are distinct, so the pairs are
    ordered by their keys alone. *)
Fixpoint insert_item {A : Type} (p : str * A) (l : list (str * A))
  : list (str * A) :=
  match l with
  | [] => [p]
  | q :: l' => if str_leb (fst p) (fst q) then p :: l else q :: insert_item p l'
  end.

Definition sorted_items {A : Type} (d : list (str * A)) : list (str * A) :=
  fold_right insert_item [] d.

(** The truth value of a JSON value in a condition. *)
Definition truthy (j : json) : bool :=
  match j with
  | JNull => false
  | JBool b => b
  | JInt z => negb (z =? 0)%Z
  | JFloat (FDec m _) => negb (m =? 0)%Z
  | JFloat _ => true
  | JStr s => nonempty s
  | JArr l => match l with [] => false | _ :: _ => true end
  | JObj kv => match kv with [] => false | _ :: _ => true end
  end.

(** [len(j)]; [None] stands for the TypeError of a value without length. *)
Definition py_len (j : json) : option nat :=
  match j with
  | JStr s => Some (length s)
  | JArr l => Some (length l)
  | JObj kv => Some (length kv)
  | _ => None
  end.

(** ** What the test scripts do with a response (test_refs.py, lines
    111-226; test_workspace.py, lines 209-222) *)

Definition URI : str := Eval cbv in lit "uri".
Definition RESULT : str := Eval cbv in lit "result".
Definition CHANGES : str := Eval cbv in lit "changes".
Definition LOGIN_EMAIL : str := Eval cbv in lit "loginEmail".
Definition EQUALS : str := Eval cbv in lit "=".
Definition ID_SPACE : str := Eval cbv in lit "id ".
Definition ID_COLON : str := Eval cbv in lit "id :".
Definition INFO : str := Eval cbv in lit "INFO".
Definition ERROR : str := Eval cbv in lit "ERROR".
Definition WARN : str := Eval cbv in lit "WARN".
Definition LINE : str := Eval cbv in lit "line".
Definition CHARACTER : str := Eval cbv in lit "character".

(** *** The position of a symbol in the file (lines 111-118, 151-155 and
    175-179) *)

(** [target_line] and [target_char]. *)
Definition target : Type := (option nat * nat)%type.

(** The first line of [lines] that passes [test], with its number counted
    from [i]: what [for i, line in enumerate(lines)] finds before [break]. *)
Fixpoint first_line (test : str -> bool) (i : nat) (lines : list str)
  : option (nat * str) :=
  match lines with
  | [] => None
  | line :: rest => if test line then Some (i, line)
                    else first_line test (S i) rest
  end.

Definition has_login (line : str) : bool :=
  contains LOGIN_EMAIL line && contains EQUALS line.

Definition starts_id (line : str) : bool :=
  startswith ID_SPACE line || startswith ID_COLON line.

(** [[
        for i, line in enumerate(lines):
            if 'loginEmail' in line and '=' in line:
                target_line = i
                target_char = line.index('loginEmail') if 'loginEmail' in line else 0
                break
]]
    [None] stands for the ValueError of [index]. *)
Definition search_login (lines : list str) (t : target) : option target :=
  match first_line has_login 0 lines with
  | Some (i, line) =>
    if contains LOGIN_EMAIL line
    then do c <- index_of LOGIN_EMAIL line; Some (Some i, c)
    else Some (Some i, O)
  | None => Some t
  end.

(** [[
        for i, line in enumerate(lines):
            if line.startswith('id ') or line.startswith('id :'):
                target_line = i
                target_char = 0
                break
]] *)
Definition search_id (lines : list str) (t : target) : target :=
  match first_line starts_id 0 lines with
  | Some (i, _) => (Some i, O)
  | None => t
  end.

(** [[
        for i, line in enumerate(lines):
            if 'loginEmail' in line and '=' in line:
                target_line = i
                target_char = line.index('loginEmail')
                break
]] *)
Definition search_login_again (lines : list str) (t : target) : option target :=
  match first_line has_login 0 lines with
  | Some (i, line) => do c <- index_of LOGIN_EMAIL line; Some (Some i, c)
  | None => Some t
  end.

(** The three positions [main] asks about, for the references of
    loginEmail (request 2, sent only when the line was found), for the
    references of id (request 3) and for the rename (request 4):
    [target_line] and [target_char] are set by the first search, starting
    from [None] and 0, and kept by a search that finds nothing. *)
Definition targets (content : str) : option (target * target * target) :=
  let lines := split [LF] content in
  do t2 <- search_login lines (None, O);
  let t3 := search_id lines t2 in
  do t4 <- search_login_again lines t3;
  Some (t2, t3, t4).

(** [{"line": target_line, "character": target_char}] *)
Definition position (t : target) : json :=
  JObj [ (LINE, match fst t with
                | Some i => JInt (Z.of_nat i)
                | None => JNull
                end);
         (CHARACTER, JInt (Z.of_nat (snd t))) ].

(** *** The references by file (lines 135-146) *)

(** [os.path.basename(r["uri"])]; [None] stands for the KeyError or
    TypeError of a reference without a uri that is a string. *)
Definition ref_file (r : json) : option str :=
  match r with
  | JObj kv => match dict_get URI kv with
               | Some (JStr u) => Some (basename u)
               | _ => None
               end
  | _ => None
  end.

(** [by_file.setdefault(fname, []).append(r)] *)
Fixpoint setdefault_append (fname : str) (r : json)
         (by_file : list (str * list json)) : list (str * list json) :=
  match by_file with
  | [] => [(fname, [r])]
  | (k, l) :: rest =>
    if str_eqb k fname then (k, l ++ [r]) :: rest
    else (k, l) :: setdefault_append fname r rest
  end.

(** [[
                    by_file = {}
                    for r in refs:
                        fname = os.path.basename(r["uri"])
                        by_file.setdefault(fname, []).append(r)
]] *)
Fixpoint group_refs (refs : list json) (by_file : list (str * list json))
  : option (list (str * list json)) :=
  match refs with
  | [] => Some by_file
  | r :: rest =>
    do fname <- ref_file r;
    group_refs rest (setdefault_append fname r by_file)
  end.

(** [[
                    for fname, file_refs in sorted(by_file.items())[:5]:
                        print(f"   - {fname}: {len(file_refs)} references")
]]
    The lines printed: a file name and a number each. *)
Definition file_lines (by_file : list (str * list json)) : list (str * nat) :=
  map (fun p => (fst p, length (snd p))) (firstn 5 (sorted_items by_file)).

(** What is printed for the response to the references request: the line
    [Timeout], or the number of references found and the lines by file. *)
Inductive refs_report : Type :=
| RefsTimeout
| Found (n : nat) (lines : list (str * nat)).

(** [[
            resp = wait_for_response(response_queue, 2, timeout=10)
            if resp:
                refs = resp.get("result", [])
                print(f"   Found {len(refs) if refs else 0} references")
                if refs:
                    ...
            else:
                print("   Timeout")
]]
    [None] stands for an exception, which ends the script: a result that
    is true and no list has no length, or yields strings for [r]. *)
Definition report_references (resp : option json) : option refs_report :=
  match resp with
  | None => Some RefsTimeout
  | Some r =>
    if truthy r then
      match r with
      | JObj kv =>
        let refs := dict_get_default RESULT kv (JArr []) in
        if truthy refs then
          match refs with
          | JArr l => do by_file <- group_refs l [];
                      Some (Found (length l) (file_lines by_file))
          | _ => None
          end
        else Some (Found O [])
      | _ => None
      end
    else Some RefsTimeout
  end.

(** Whether the file name of the reference [r] is [fname]. *)
Definition in_file (fname : str) (r : json) : bool :=
  match ref_file r with
  | Some f => str_eqb f fname
  | None => false
  end.

(** *** The summary of a rename (lines 192-209) *)

Inductive rename_report : Type :=
| RenameTimeout
| NoChanges
| Changes (files : nat) (lines : list (str * nat)) (more : option nat)
          (total_edits : nat).

(** [[
                total_edits = 0
                for file_uri, edits in sorted(changes.items())[:10]:
                    fname = os.path.basename(file_uri)
                    total_edits += len(edits)
                    print(f"   - {fname}: {len(edits)} edits")
]]
    The lines printed and [total_edits]; [None] stands for the TypeError
    of [len]. *)
Fixpoint list_edits (listed : list (str * json)) (total_edits : nat)
  : option (list (str * nat) * nat) :=
  match listed with
  | [] => Some ([], total_edits)
  | (file_uri, edits) :: rest =>
    do n <- py_len edits;
    do r <- list_edits rest (total_edits + n);
    Some ((basename file_uri, n) :: fst r, snd r)
  end.

(** [[
        resp = wait_for_response(response_queue, 4, timeout=10)
        if resp:
            result = resp.get("result")
            if result and result.get("changes"):
                changes = result["changes"]
                print(f"   Rename would affect {len(changes)} files:")
                ...
                if len(changes) > 10:
                    print(f"   ... and {len(changes) - 10} more files")
                print(f"   Total: {total_edits} edits across {len(changes)} files")
            else:
                print("   No changes")
        else:
            print("   Timeout")
]]
    [None] stands for an exception: [get] or [items] on a value that is
    no dict, [len] on a value without length. *)
Definition rename_summary (resp : option json) : option rename_report :=
  match resp with
  | None => Some RenameTimeout
  | Some r =>
    if truthy r then
      match r with
      | JObj kv =>
        let result := dict_get_default RESULT kv JNull in
        if truthy result then
          match result with
          | JObj rkv =>
            let changes := dict_get_default CHANGES rkv JNull in
            if truthy changes then
              match changes with
              | JObj ch =>
                do r <- list_edits (firstn 10 (sorted_items ch)) O;
                Some (Changes (length ch) (fst r)
                              (if (10 <? length ch)%nat
                               then Some (length ch - 10)%nat else None)
                              (snd r))
              | _ => None
              end
            else Some NoChanges
          | _ => None
          end
        else Some NoChanges
      | _ => None
      end
    else Some RenameTimeout
  end.

(** The number of edits of a rename: the sum of the lengths of the lists
    of edits of all files. *)
Fixpoint all_edits (ch : list (str * json)) : nat :=
  match ch with
  | [] => O
  | (_, e) :: rest => (match py_len e with Some n => n | None => O end
                       + all_edits rest)%nat
  end.

(** *** The lines of the server log that are shown (test_refs.py, lines
    219-226; test_workspace.py, lines 209-222) *)

Definition REFS_KEYWORDS : list str :=
  Eval cbv in [lit "modules"; lit "symbols"; lit "Rename"; lit "references";
               lit "Finding"].

(** [any(x in line for x in words)] *)
Definition mentions (words : list str) (line : str) : bool :=
  existsb (fun x => contains x line) words.

(** [line.split(tag)[-1].strip()] *)
Definition message_after (tag line : str) : str :=
  strip (last_piece (split tag line)).

(** [[
        stderr = proc.stderr.read()
        # Show relevant logs
        print("\n--- Server Logs ---")
        for line in stderr.split('\n')[-15:]:
            if any(x in line for x in ['modules', 'symbols', 'Rename', 'references', 'Finding']):
                if 'INFO' in line:
                    msg = line.split('INFO')[-1].strip()
                    print(f"  {msg[:100]}")
]]
    The messages printed. *)
Definition server_logs (stderr : str) : list str :=
  flat_map (fun line =>
              if mentions REFS_KEYWORDS line then
                if contains INFO line
                then [firstn 100 (message_after INFO line)]
                else []
              else [])
           (tail_of 15 (split [LF] stderr)).

(** A line of the log as test_workspace.py shows it. *)
Inductive log_line : Type :=
| InfoLine (message : str)
| ErrorLine (message : str).

(** [[
        stderr = proc.stderr.read()
        if stderr:
            print("\n--- Server Logs ---")
            # Show last 2000 chars
            lines = stderr.split('\n')
            for line in lines[-30:]:
                if 'INFO' in line or 'ERROR' in line or 'WARN' in line:
                    # Extract just the message part
                    if 'INFO' in line:
                        msg = line.split('INFO')[-1].strip()
                        print(f"  [INFO] {msg[:100]}")
                    elif 'ERROR' in line:
                        msg = line.split('ERROR')[-1].strip()
                        print(f"  [ERROR] {msg[:100]}")
]] *)
Definition show_line (line : str) : list log_line :=
  if contains INFO line || contains ERROR line || contains WARN line then
    if contains INFO line
    then [InfoLine (firstn 100 (message_after INFO line))]
    else if contains ERROR line
         then [ErrorLine (firstn 100 (message_after ERROR line))]
         else []
  else [].

Definition workspace_logs (stderr : str) : list log_line :=
  if nonempty stderr
  then flat_map show_line (tail_of 30 (split [LF] stderr))
  else [].

(** [p] occurs in [s] as a piece of text. *)
Definition part_of (p s : str) : Prop := exists a b, s = a ++ p ++ b.

(** [by_file.get(fname)] *)
Fixpoint files_get (fname : str) (by_file : list (str * list json))
  : option (list json) :=
  match by_file with
  | [] => None
  | (k, l) :: rest => if str_eqb k fname then Some l else files_get fname rest
  end.

(** The order in which [sorted] leaves the items of a dict. *)
Definition by_name {A : Type} (p q : str * A) : Prop :=
  str_leb (fst p) (fst q) = true.

(** A response to the rename request whose result holds [changes]. *)
Definition rename_response (changes : json) : json :=
  JObj [(lit "jsonrpc", JStr (lit "2.0")); (lit "id", JInt 4);
        (RESULT, JObj [(CHANGES, changes)])].

(** A file of three lines in which id is not defined. *)
Definition login_only : str :=
  Eval cbv in lit "module DomId exposing (..)" ++ [LF]
              ++ lit "" ++ [LF] ++ lit "x = loginEmail".

(** Twelve files with one edit each. *)
Definition twelve_files : list (str * json) :=
  Eval cbv in
    map (fun c => (lit "file:///src/" ++ [c] ++ lit ".elm", JArr [JNull]))
        [65; 66; 67; 68; 69; 70; 71; 72; 73; 74; 75; 76].

(** [len(j)] does not raise. *)
Definition has_len (j : json) : bool :=
  match py_len j with
  | Some _ => true
  | None => false
  end.

(** The references of a response: the result when it is a list. *)
Definition refs_of (resp : list (str * json)) : list json :=
  match dict_get_default RESULT resp (JArr []) with
  | JArr l => l
  | _ => []
  end.

(** ** The document symbols of feature_compare.py (lines 125-136) *)

Definition NAME : str := Eval cbv in lit "name".
Definition KIND : str := Eval cbv in lit "kind".

(** [{"name": s.get("name"), "kind": s.get("kind")}], as the pair of the
    two values; [None] stands for the AttributeError of [s.get] on a
    symbol that is no dict. *)
Definition name_kind (s : json) : option (json * json) :=
  match s with
  | JObj kv => Some (dict_get_default NAME kv JNull,
                     dict_get_default KIND kv JNull)
  | _ => None
  end.

Fixpoint name_kinds (symbols : list json) : option (list (json * json)) :=
  match symbols with
  | [] => Some []
  | s :: rest => do p <- name_kind s;
                 do ps <- name_kinds rest;
                 Some (p :: ps)
  end.

(** What [results["documentSymbol"]] is set to. *)
Inductive symbols_entry : Type :=
| SymbolsTimeout
| Symbols (l : list (json * json)).

(** [[
            symbols = resp.get("result", [])
            results["documentSymbol"] = [{"name": s.get("name"), "kind": s.get("kind")} for s in (symbols or [])]
]]
    [None] stands for an exception: [get] on a response or a symbol that
    is no dict, or a result that is true and no list (a dict or a string
    yields strings, which have no [get]; a number is not iterable). *)
Definition document_symbols (resp : json) : option (list (json * json)) :=
  match resp with
  | JObj kv =>
    let symbols := dict_get_default RESULT kv (JArr []) in
    if truthy symbols then
      match symbols with
      | JArr l => name_kinds l
      | _ => None
      end
    else Some []
  | _ => None
  end.

(** [[
        try:
            resp = response_queue.get(timeout=5)
            symbols = resp.get("result", [])
            results["documentSymbol"] = [...]
        except queue.Empty:
            results["documentSymbol"] = "TIMEOUT"
]]
    The entry, or [None] for an exception, and the world afterwards. *)
Definition take_symbols (w : world) : option symbols_entry * world :=
  match queue_get 5000 w with
  | (Some resp, w') => (option_map Symbols (document_symbols resp), w')
  | (None, w') => (Some SymbolsTimeout, w')
  end.

(** ** Strings that do not come back as they were *)

(** What [json.loads] makes of the text that [json.dumps] wrote for the
    string [s]: every high surrogate that stands directly before a low one
    is read together with it as one character above the BMP. *)
Fixpoint join_pairs (s : str) : str :=
  match s with
  | [] => []
  | c :: r =>
    match r with
    | d :: r' =>
      if is_high_surrogate c && is_low_surrogate d
      then join_surrogates c d :: join_pairs r'
      else c :: join_pairs r
    | [] => [c]
    end
  end.

(** * Facts *)

(** ** Strings and numerals *)

Lemma strip_prefix_app (p s : str) : strip_prefix p (p ++ s) = Some s.
Proof.
  induction p as [|a p IH]; simpl; [reflexivity|].
  now rewrite N.eqb_refl.
Qed.

Lemma strip_prefix_sound (p s r : str) : strip_prefix p s = Some r -> s = p ++ r.
Proof.
  revert s; induction p as [|a p IH]; intros s H; simpl in *.
  - now inversion H.
  - destruct s as [|b s]; [discriminate|].
    destruct (N.eqb_spec a b); [|discriminate].
    subst; f_equal; auto.
Qed.

Lemma str_eqb_eq (a b : str) : str_eqb a b = true <-> a = b.
Proof. unfold str_eqb; destruct (list_eq_dec N.eq_dec a b); split; congruence. Qed.

Lemma str_eqb_refl (a : str) : str_eqb a a = true.
Proof. now apply str_eqb_eq. Qed.

Lemma str_eqb_neq (a b : str) : a <> b -> str_eqb a b = false.
Proof. unfold str_eqb; destruct (list_eq_dec N.eq_dec a b); congruence. Qed.

Lemma span_digits_app (ds rest : str) :
  forallb is_digit ds = true -> no_digit_ahead rest ->
  span_digits (ds ++ rest) = (ds, rest).
Proof.
  intros Hd Hr; induction ds as [|d ds IH]; simpl in *.
  - destruct rest as [|c rest]; simpl in *; [reflexivity|now rewrite Hr].
  - apply andb_true_iff in Hd as [-> Hd]. now rewrite IH.
Qed.

Lemma span_digits_spec (s ds r : str) :
  span_digits s = (ds, r) ->
  s = ds ++ r /\ forallb is_digit ds = true /\ no_digit_ahead r.
Proof.
  revert ds r; induction s as [|c s IH]; intros ds r H; simpl in H.
  - inversion H; subst; simpl; auto.
  - destruct (is_digit c) eqn:Hc.
    + destruct (span_digits s) as [d' r'] eqn:E. inversion H; subst.
      destruct (IH _ _ eq_refl) as (-> & Hd & Hr).
      simpl; rewrite Hc; auto.
    + inversion H; subst; simpl; auto.
Qed.

Lemma uint_chars_digits (u : Decimal.uint) : forallb is_digit (uint_chars u) = true.
Proof. induction u; simpl; auto. Qed.

Lemma chars_uint_chars (u : Decimal.uint) : chars_uint (uint_chars u) = u.
Proof. induction u; simpl; try rewrite IHu; reflexivity. Qed.

Lemma str_of_N_digits (n : N) : forallb is_digit (str_of_N n) = true.
Proof. apply uint_chars_digits. Qed.

Lemma int_of_str_of_N (n : N) : int_of_digits (str_of_N n) = n.
Proof.
  unfold int_of_digits, str_of_N. rewrite chars_uint_chars.
  apply DecimalN.Unsigned.of_to.
Qed.

Lemma to_uint_nonnil (n : N) : N.to_uint n <> Nil.
Proof.
  destruct n as [|p]; simpl; [discriminate|].
  apply DecimalPos.Unsigned.to_uint_nonnil.
Qed.

Lemma str_of_N_nonempty (n : N) : str_of_N n <> [].
Proof.
  unfold str_of_N. pose proof (to_uint_nonnil n) as H.
  destruct (N.to_uint n); simpl; congruence.
Qed.

(** [str(n)] has no leading zero, except for [str(0)]. *)
Lemma to_uint_leading_zero (n : N) (u : Decimal.uint) :
  N.to_uint n = D0 u -> u = Nil.
Proof.
  intros H.
  pose proof (DecimalN.Unsigned.to_of (N.to_uint n)) as Hn.
  rewrite DecimalN.Unsigned.of_to, H, unorm_D0 in Hn.
  destruct u; try reflexivity;
    (assert (Hl : (nb_digits (unorm (D0 u)) <= nb_digits (D0 u))%nat)
       by (apply nb_digits_unorm; discriminate) ||
     idtac).
  all: match goal with
       | Hn : D0 ?v = unorm ?v |- _ =>
         assert (Hl' : (nb_digits (unorm v) <= nb_digits v)%nat)
           by (apply nb_digits_unorm; discriminate);
         rewrite <- Hn in Hl'; simpl in Hl'; lia
       end.
Qed.

Lemma str_of_N_head (n : N) :
  exists c t, str_of_N n = c :: t /\ is_digit c = true /\
              (c = 48 -> t = [] /\ n = 0).
Proof.
  unfold str_of_N.
  destruct (N.to_uint n) as [|u|u|u|u|u|u|u|u|u|u] eqn:E;
    try (now apply to_uint_nonnil in E);
    simpl; eexists; eexists; (split; [reflexivity|]); (split; [reflexivity|]);
    try discriminate.
  intros _. pose proof (to_uint_leading_zero _ _ E); subst u.
  split; [reflexivity|].
  apply DecimalN.Unsigned.to_uint_inj. now rewrite E.
Qed.

(** ** json.dumps writes printable ASCII only *)

Lemma all_printable_app (a b : str) : all_printable a -> all_printable b -> all_printable (a ++ b).
Proof. intros; apply Forall_app; auto. Qed.

Lemma all_printable_digits (s : str) : forallb is_digit s = true -> all_printable s.
Proof.
  induction s as [|c s IH]; simpl; intros H; constructor.
  - apply andb_true_iff in H as [H _]. unfold is_digit in H.
    apply andb_true_iff in H as [A B]. apply N.leb_le in A, B. lia.
  - apply IH. now apply andb_true_iff in H as [_ H].
Qed.

Lemma all_printable_str_of_N (n : N) : all_printable (str_of_N n).
Proof. apply all_printable_digits, str_of_N_digits. Qed.

Lemma all_printable_str_of_Z (z : Z) : all_printable (str_of_Z z).
Proof.
  unfold str_of_Z. destruct (z <? 0)%Z.
  - constructor; [unfold MINUS; lia|apply all_printable_str_of_N].
  - apply all_printable_str_of_N.
Qed.

Lemma hexdigit_printable (d : N) : d < 16 -> 32 <= hexdigit d <= 126.
Proof. unfold hexdigit; intros; ncases; lia. Qed.

Lemma all_printable_hex4 (n : N) : all_printable (hex4 n).
Proof.
  unfold hex4.
  repeat constructor; apply hexdigit_printable; apply N.mod_lt; lia.
Qed.

Lemma all_printable_u_escape (n : N) : all_printable (u_escape n).
Proof.
  unfold u_escape, BACKSLASH.
  constructor; [lia|]. constructor; [lia|]. apply all_printable_hex4.
Qed.

Lemma all_printable_escape_char (c : char) : all_printable (escape_char c).
Proof.
  unfold escape_char.
  repeat match goal with
         | |- all_printable (if ?a =? ?b then _ else _) =>
           destruct (a =? b); [repeat constructor; cbv; congruence|]
         end.
  destruct ((32 <=? c) && (c <=? 126)) eqn:Hp.
  - apply andb_true_iff in Hp as [A B]. apply N.leb_le in A, B.
    repeat constructor; lia.
  - destruct (c <? 65536); [apply all_printable_u_escape|].
    apply all_printable_app; apply all_printable_u_escape.
Qed.

Lemma all_printable_encode_basestring (s : str) : all_printable (encode_basestring_ascii s).
Proof.
  unfold encode_basestring_ascii.
  constructor; [unfold QUOTE; lia|].
  apply all_printable_app; [|repeat constructor; unfold QUOTE; lia].
  induction s as [|c s IH]; simpl; [constructor|].
  apply all_printable_app; [apply all_printable_escape_char|exact IH].
Qed.

Lemma all_printable_join (sep : str) (l : list str) :
  all_printable sep -> Forall all_printable l -> all_printable (join sep l).
Proof.
  intros Hs Hl; induction Hl as [|x l Hx Hl IH]; simpl; [constructor|].
  destruct l; [exact Hx|].
  apply all_printable_app; [exact Hx|]. apply all_printable_app; [exact Hs|exact IH].
Qed.

Lemma all_printable_literal (s : str) :
  forallb is_printable s = true -> all_printable s.
Proof.
  induction s as [|c s IH]; simpl; intros H; constructor.
  - apply andb_true_iff in H as [H _]. unfold is_printable in H.
    apply andb_true_iff in H as [A B]. apply N.leb_le in A, B. lia.
  - apply IH. now apply andb_true_iff in H as [_ H].
Qed.

Lemma all_printable_float_repr (f : pyfloat) : all_printable (float_repr f).
Proof.
  destruct f as [m e| |[|]]; simpl; try (now apply all_printable_literal).
  apply all_printable_app; [apply all_printable_str_of_Z|].
  constructor; [lia|apply all_printable_str_of_Z].
Qed.

Lemma json_dumps_printable (j : json) : all_printable (json_dumps j).
Proof.
  induction j as [|b|z|f|s|l IH|kv IH] using json_nested_ind; cbn [json_dumps].
  - now apply all_printable_literal.
  - destruct b; now apply all_printable_literal.
  - apply all_printable_str_of_Z.
  - apply all_printable_float_repr.
  - apply all_printable_encode_basestring.
  - constructor; [lia|].
    apply all_printable_app; [|repeat constructor; lia].
    apply all_printable_join; [now apply all_printable_literal|].
    induction IH; cbn [map]; constructor; auto.
  - constructor; [lia|].
    apply all_printable_app; [|repeat constructor; lia].
    apply all_printable_join; [now apply all_printable_literal|].
    induction IH as [|p kv Hp _ IHkv]; cbn [map]; constructor; auto.
    apply all_printable_app; [apply all_printable_encode_basestring|].
    apply all_printable_app; [now apply all_printable_literal|exact Hp].
Qed.

Lemma all_printable_ascii (s : str) : all_printable s -> all_ascii s.
Proof. apply Forall_impl. intros c Hc. lia. Qed.

Lemma json_dumps_ascii (j : json) : all_ascii (json_dumps j).
Proof. apply all_printable_ascii, json_dumps_printable. Qed.

Lemma utf8_len_ascii (s : str) : all_ascii s -> utf8_len s = length s.
Proof.
  induction 1 as [|c s Hc _ IH]; simpl; [reflexivity|].
  unfold utf8_width. apply N.ltb_lt in Hc. rewrite Hc. simpl. now rewrite IH.
Qed.

Lemma count_lf_printable (s : str) : all_printable s -> count_lf s = 0%nat.
Proof.
  induction 1 as [|c s Hc _ IH]; [reflexivity|].
  unfold count_lf in *. cbn [count_occ].
  destruct (N.eq_dec c LF) as [->|_]; [unfold LF in Hc; lia|exact IH].
Qed.

(** ** Strings: scanstring reads back what encode_basestring_ascii wrote *)

Lemma hexval_hexdigit (d : N) : d < 16 -> hexval (hexdigit d) = Some d.
Proof.
  intros Hd. unfold hexval, hexdigit, is_digit.
  destruct (N.ltb_spec d 10).
  - replace ((48 <=? 48 + d) && (48 + d <=? 57)) with true
      by (symmetry; apply andb_true_iff; split; apply N.leb_le; lia).
    f_equal; lia.
  - replace ((48 <=? 87 + d) && (87 + d <=? 57)) with false
      by (symmetry; apply andb_false_iff; right; apply N.leb_gt; lia).
    replace ((97 <=? 87 + d) && (87 + d <=? 102)) with true
      by (symmetry; apply andb_true_iff; split; apply N.leb_le; lia).
    f_equal; lia.
Qed.

Lemma hex4_value (n : N) :
  n < 65536 ->
  (((n / 4096) mod 16 * 16 + (n / 256) mod 16) * 16 + (n / 16) mod 16) * 16
  + n mod 16 = n.
Proof.
  intros Hn.
  change 4096 with (16 * (16 * 16)). change 256 with (16 * 16).
  rewrite <- !N.Div0.div_div.
  pose proof (N.div_mod n 16). pose proof (N.div_mod (n / 16) 16).
  pose proof (N.div_mod (n / 16 / 16) 16).
  pose proof (N.div_mod (n / 16 / 16 / 16) 16).
  assert (n / 16 / 16 / 16 / 16 = 0)
    by (rewrite !N.Div0.div_div; apply N.div_small; lia).
  lia.
Qed.

Lemma unhex4_hex4 (n : N) :
  n < 65536 ->
  unhex4 (hexdigit ((n / 4096) mod 16)) (hexdigit ((n / 256) mod 16))
         (hexdigit ((n / 16) mod 16)) (hexdigit (n mod 16)) = Some n.
Proof.
  intros Hn. unfold unhex4.
  rewrite !hexval_hexdigit by (apply N.mod_lt; lia).
  now rewrite hex4_value.
Qed.

Lemma scanstring_plain (c : char) (r : str) :
  c <> QUOTE -> c <> BACKSLASH -> 32 <= c ->
  scanstring (c :: r) = scan_cons c (scanstring r).
Proof.
  intros H1 H2 H3. simpl.
  destruct (N.eqb_spec c QUOTE); [contradiction|].
  destruct (N.eqb_spec c BACKSLASH); [contradiction|].
  destruct (N.ltb_spec c 32); [lia|]. reflexivity.
Qed.

Lemma scanstring_short (e x : char) (r : str) :
  e <> 117 -> short_escape e = Some x ->
  scanstring (BACKSLASH :: e :: r) = scan_cons x (scanstring r).
Proof.
  intros H1 H2. simpl.
  destruct (N.eqb_spec e 117); [contradiction|].
  now rewrite H2.
Qed.

Lemma scanstring_u (h1 h2 h3 h4 : char) (r2 : str) :
  scanstring (BACKSLASH :: 117 :: h1 :: h2 :: h3 :: h4 :: r2) =
  match unhex4 h1 h2 h3 h4 with
  | None => None
  | Some u =>
    if is_high_surrogate u then
      match r2 with
      | b :: l :: g1 :: g2 :: g3 :: g4 :: r3 =>
        if (b =? BACKSLASH) && (l =? 117) then
          match unhex4 g1 g2 g3 g4 with
          | None => None
          | Some u2 =>
            if is_low_surrogate u2
            then scan_cons (join_surrogates u u2) (scanstring r3)
            else scan_cons u (scanstring r2)
          end
        else scan_cons u (scanstring r2)
      | _ => scan_cons u (scanstring r2)
      end
    else scan_cons u (scanstring r2)
  end.
Proof. reflexivity. Qed.

Lemma u_escape_app (u : N) (r : str) :
  u_escape u ++ r
  = BACKSLASH :: 117 :: hexdigit ((u / 4096) mod 16) :: hexdigit ((u / 256) mod 16)
      :: hexdigit ((u / 16) mod 16) :: hexdigit (u mod 16) :: r.
Proof. reflexivity. Qed.

Lemma scanstring_u_lone (u : N) (r : str) :
  u < 65536 -> is_high_surrogate u = false ->
  scanstring (u_escape u ++ r) = scan_cons u (scanstring r).
Proof.
  intros H1 H2.
  rewrite u_escape_app, scanstring_u, unhex4_hex4 by exact H1.
  now rewrite H2.
Qed.

Lemma scanstring_u_pair (hi lo : N) (r : str) :
  hi < 65536 -> lo < 65536 ->
  is_high_surrogate hi = true -> is_low_surrogate lo = true ->
  scanstring (u_escape hi ++ u_escape lo ++ r)
  = scan_cons (join_surrogates hi lo) (scanstring r).
Proof.
  intros H1 H2 H3 H4.
  rewrite u_escape_app, scanstring_u, unhex4_hex4 by exact H1.
  rewrite H3, u_escape_app.
  change ((BACKSLASH =? BACKSLASH) && (117 =? 117)) with true. cbv iota.
  rewrite unhex4_hex4 by exact H2.
  now rewrite H4.
Qed.

(** Below [2^10], [lor] with a multiple of [2^10] is addition. *)
Lemma lor_shiftl_10 (k x : N) :
  x < 1024 -> N.lor (N.shiftl k 10) x = k * 1024 + x.
Proof.
  intros Hx.
  rewrite <- N.lxor_lor, <- N.add_nocarry_lxor.
  - now rewrite N.shiftl_mul_pow2.
  - apply N.bits_inj; intros i; rewrite N.land_spec, N.bits_0.
    destruct (N.ltb_spec i 10).
    + now rewrite N.shiftl_spec_low.
    + rewrite (N.bits_above_log2 x i); [apply andb_false_r|].
      destruct (N.eq_dec x 0) as [->|Hx0]; [simpl; lia|].
      apply N.log2_lt_pow2; [lia|].
      apply N.lt_le_trans with (2 ^ 10); [exact Hx|].
      apply N.pow_le_mono_r; lia.
  - apply N.bits_inj; intros i; rewrite N.land_spec, N.bits_0.
    destruct (N.ltb_spec i 10).
    + now rewrite N.shiftl_spec_low.
    + rewrite (N.bits_above_log2 x i); [apply andb_false_r|].
      destruct (N.eq_dec x 0) as [->|Hx0]; [simpl; lia|].
      apply N.log2_lt_pow2; [lia|].
      apply N.lt_le_trans with (2 ^ 10); [exact Hx|].
      apply N.pow_le_mono_r; lia.
Qed.

Lemma land_1023 (x : N) : N.land x 1023 = x mod 1024.
Proof. change 1023 with (N.ones 10). now rewrite N.land_ones. Qed.

(** The surrogate pair written for a code point above the BMP, and read back. *)
Lemma surrogate_pair (c : char) :
  65536 <= c -> c < 1114112 ->
  let n := c - 65536 in
  let s1 := N.lor 55296 (N.land (N.shiftr n 10) 1023) in
  let s2 := N.lor 56320 (N.land n 1023) in
  s1 < 65536 /\ s2 < 65536 /\
  is_high_surrogate s1 = true /\ is_low_surrogate s2 = true /\
  join_surrogates s1 s2 = c.
Proof.
  intros Hlo Hhi n s1 s2.
  assert (Hn : n < 1048576) by (unfold n; lia).
  assert (Hd : n / 1024 < 1024)
    by (apply N.Div0.div_lt_upper_bound; lia).
  assert (Hm : n mod 1024 < 1024) by (apply N.mod_lt; lia).
  assert (E1 : s1 = 55296 + n / 1024).
  { unfold s1. rewrite land_1023, N.shiftr_div_pow2.
    change (2 ^ 10) with 1024. rewrite (N.mod_small _ _ Hd).
    change 55296 with (N.shiftl 54 10). rewrite lor_shiftl_10 by exact Hd.
    reflexivity. }
  assert (E2 : s2 = 56320 + n mod 1024).
  { unfold s2. rewrite land_1023.
    change 56320 with (N.shiftl 55 10). rewrite lor_shiftl_10 by exact Hm.
    reflexivity. }
  assert (L1 : N.land s1 1023 = n / 1024).
  { rewrite land_1023, E1.
    replace (55296 + n / 1024) with (n / 1024 + 54 * 1024) by lia.
    rewrite N.Div0.mod_add. now apply N.mod_small. }
  assert (L2 : N.land s2 1023 = n mod 1024).
  { rewrite land_1023, E2.
    replace (56320 + n mod 1024) with (n mod 1024 + 55 * 1024) by lia.
    rewrite N.Div0.mod_add. now apply N.mod_small. }
  repeat split.
  - lia.
  - lia.
  - unfold is_high_surrogate. apply andb_true_iff; split; apply N.leb_le; lia.
  - unfold is_low_surrogate. apply andb_true_iff; split; apply N.leb_le; lia.
  - unfold join_surrogates. rewrite L1, L2.
    rewrite lor_shiftl_10 by exact Hm.
    pose proof (N.div_mod n 1024). unfold n in *. lia.
Qed.

Lemma low_escape_ahead_head (b : char) (t : str) :
  b <> BACKSLASH -> low_escape_ahead (b :: t) = false.
Proof.
  intros Hb. unfold low_escape_ahead.
  destruct t as [|l [|g1 [|g2 [|g3 [|g4 t]]]]]; try reflexivity.
  destruct (N.eqb_spec b BACKSLASH); [contradiction|reflexivity].
Qed.

Lemma low_escape_ahead_short (l : char) (t : str) :
  l <> 117 -> low_escape_ahead (BACKSLASH :: l :: t) = false.
Proof.
  intros Hl. unfold low_escape_ahead.
  destruct t as [|g1 [|g2 [|g3 [|g4 t]]]]; try reflexivity.
  destruct (N.eqb_spec l 117); [contradiction|].
  now rewrite andb_false_r.
Qed.

Lemma low_escape_ahead_u (u : N) (t : str) :
  u < 65536 -> low_escape_ahead (u_escape u ++ t) = is_low_surrogate u.
Proof.
  intros Hu. rewrite u_escape_app. unfold low_escape_ahead.
  now rewrite unhex4_hex4 by exact Hu.
Qed.

Lemma high_not_low (u : N) :
  is_high_surrogate u = true -> is_low_surrogate u = false.
Proof.
  unfold is_high_surrogate, is_low_surrogate. intros H.
  apply andb_true_iff in H as [_ H]. apply N.leb_le in H.
  apply andb_false_iff; left. apply N.leb_gt. lia.
Qed.

(** What [json.dumps] writes for a character that is no low surrogate does
    not start like the escape of one. *)
Lemma escape_char_not_low (c : char) (t : str) :
  c < 1114112 -> is_low_surrogate c = false ->
  low_escape_ahead (escape_char c ++ t) = false.
Proof.
  intros Hs Hc. unfold escape_char.
  destruct (N.eqb_spec c QUOTE) as [->|N1];
    [now apply low_escape_ahead_short|].
  destruct (N.eqb_spec c BACKSLASH) as [->|N2];
    [now apply low_escape_ahead_short|].
  destruct (N.eqb_spec c 8) as [->|N3]; [now apply low_escape_ahead_short|].
  destruct (N.eqb_spec c 12) as [->|N4]; [now apply low_escape_ahead_short|].
  destruct (N.eqb_spec c LF) as [->|N5]; [now apply low_escape_ahead_short|].
  destruct (N.eqb_spec c CR) as [->|N6]; [now apply low_escape_ahead_short|].
  destruct (N.eqb_spec c 9) as [->|N7]; [now apply low_escape_ahead_short|].
  destruct ((32 <=? c) && (c <=? 126)) eqn:Hp.
  - now apply low_escape_ahead_head.
  - destruct (N.ltb_spec c 65536) as [Hb|Hb].
    + now rewrite low_escape_ahead_u.
    + destruct (surrogate_pair c Hb Hs) as (A & _ & C & _ & _).
      cbv zeta. rewrite <- app_assoc, low_escape_ahead_u by exact A.
      now apply high_not_low.
Qed.

(** A [\u] escape is read as the one character it names, unless it names a
    high surrogate and the escape of a low surrogate follows. *)
Lemma scanstring_u_alone (u : N) (r : str) :
  u < 65536 -> is_high_surrogate u && low_escape_ahead r = false ->
  scanstring (u_escape u ++ r) = scan_cons u (scanstring r).
Proof.
  intros H1 H2.
  rewrite u_escape_app, scanstring_u, unhex4_hex4 by exact H1.
  destruct (is_high_surrogate u); [|reflexivity].
  rewrite andb_true_l in H2. unfold low_escape_ahead in H2.
  destruct r as [|b [|l [|g1 [|g2 [|g3 [|g4 r3]]]]]]; try reflexivity.
  destruct ((b =? BACKSLASH) && (l =? 117)); [|reflexivity].
  rewrite andb_true_l in H2.
  destruct (unhex4 g1 g2 g3 g4); [|discriminate]. now rewrite H2.
Qed.

Lemma scanstring_escape_char (c : char) (r : str) :
  c < 1114112 -> is_high_surrogate c && low_escape_ahead r = false ->
  scanstring (escape_char c ++ r) = scan_cons c (scanstring r).
Proof.
  intros Hs Hc. unfold escape_char.
  destruct (N.eqb_spec c QUOTE) as [->|N1]; [reflexivity|].
  destruct (N.eqb_spec c BACKSLASH) as [->|N2]; [reflexivity|].
  destruct (N.eqb_spec c 8) as [->|N3]; [reflexivity|].
  destruct (N.eqb_spec c 12) as [->|N4]; [reflexivity|].
  destruct (N.eqb_spec c LF) as [->|N5]; [reflexivity|].
  destruct (N.eqb_spec c CR) as [->|N6]; [reflexivity|].
  destruct (N.eqb_spec c 9) as [->|N7]; [reflexivity|].
  destruct ((32 <=? c) && (c <=? 126)) eqn:Hp.
  - apply andb_true_iff in Hp as [Hp _]. apply N.leb_le in Hp.
    now apply scanstring_plain.
  - destruct (N.ltb_spec c 65536) as [Hb|Hb].
    + now apply scanstring_u_alone.
    + destruct (surrogate_pair c Hb Hs) as (A & B & C & D & E).
      cbv zeta. rewrite <- app_assoc.
      rewrite scanstring_u_pair by assumption.
      now rewrite E.
Qed.

(** A character of the BMP from DEL on is written as a [\u] escape. *)
Lemma escape_char_bmp (c : char) :
  127 <= c -> c < 65536 -> escape_char c = u_escape c.
Proof.
  intros H1 H2. unfold escape_char.
  destruct (N.eqb_spec c QUOTE) as [->|_]; [exfalso; now apply H1|].
  destruct (N.eqb_spec c BACKSLASH) as [->|_]; [exfalso; now apply H1|].
  destruct (N.eqb_spec c 8) as [->|_]; [exfalso; now apply H1|].
  destruct (N.eqb_spec c 12) as [->|_]; [exfalso; now apply H1|].
  destruct (N.eqb_spec c LF) as [->|_]; [exfalso; now apply H1|].
  destruct (N.eqb_spec c CR) as [->|_]; [exfalso; now apply H1|].
  destruct (N.eqb_spec c 9) as [->|_]; [exfalso; now apply H1|].
  replace ((32 <=? c) && (c <=? 126)) with false
    by (symmetry; apply andb_false_iff; right; apply N.leb_gt; lia).
  now replace (c <? 65536) with true by (symmetry; apply N.ltb_lt; lia).
Qed.

Lemma low_surrogate_range (d : char) :
  is_low_surrogate d = true -> 56320 <= d <= 57343.
Proof.
  unfold is_low_surrogate. intros H. apply andb_true_iff in H as [L1 L2].
  apply N.leb_le in L1. apply N.leb_le in L2. lia.
Qed.

Lemma high_surrogate_range (c : char) :
  is_high_surrogate c = true -> 55296 <= c <= 56319.
Proof.
  unfold is_high_surrogate. intros H. apply andb_true_iff in H as [L1 L2].
  apply N.leb_le in L1. apply N.leb_le in L2. lia.
Qed.

(** What [json.dumps] wrote for a string starts like the escape of a low
    surrogate exactly when the string starts with one. *)
Lemma low_escape_ahead_encode (s rest : str) :
  match s with
  | [] => True
  | d :: _ => d < 1114112
  end ->
  low_escape_ahead (flat_map escape_char s ++ QUOTE :: rest) = low_ahead s.
Proof.
  destruct s as [|d s]; intros Hd.
  - now apply low_escape_ahead_head.
  - cbn [flat_map low_ahead]. rewrite <- app_assoc.
    destruct (is_low_surrogate d) eqn:Hl.
    + pose proof (low_surrogate_range d Hl).
      rewrite escape_char_bmp, low_escape_ahead_u by lia. exact Hl.
    + now apply escape_char_not_low.
Qed.

Lemma no_surrogate_pair_ahead (s rest : str) :
  no_surrogate_pair s = true ->
  low_escape_ahead (flat_map escape_char s ++ QUOTE :: rest) = low_ahead s.
Proof.
  intros Hs. apply low_escape_ahead_encode.
  destruct s as [|d s]; [exact I|].
  cbn [no_surrogate_pair] in Hs.
  apply andb_true_iff in Hs as [Hs _]. apply andb_true_iff in Hs as [Hd _].
  now apply N.ltb_lt in Hd.
Qed.

Lemma scanstring_encode (s rest : str) :
  no_surrogate_pair s = true ->
  scanstring (flat_map escape_char s ++ QUOTE :: rest) = Some (s, rest).
Proof.
  intros Hs; induction s as [|c s IH]; [reflexivity|].
  cbn [no_surrogate_pair] in Hs.
  apply andb_true_iff in Hs as [Hc Hs]. apply andb_true_iff in Hc as [Hc Hp].
  apply N.ltb_lt in Hc. apply negb_true_iff in Hp.
  cbn [flat_map]. rewrite <- app_assoc.
  rewrite scanstring_escape_char.
  - now rewrite IH.
  - exact Hc.
  - now rewrite no_surrogate_pair_ahead.
Qed.

(** ** json.loads reads back what json.dumps wrote *)

Lemma delimited_no_digit (rest : str) : delimited rest -> no_digit_ahead rest.
Proof.
  destruct rest as [|c rest]; simpl; [trivial|].
  intros [->| [->| ->]]; reflexivity.
Qed.

Lemma delimited_skip_ws (rest : str) : delimited rest -> skip_ws rest = rest.
Proof.
  destruct rest as [|c rest]; simpl; [trivial|].
  intros [->| [->| ->]]; reflexivity.
Qed.

Lemma match_frac_delimited (rest : str) :
  delimited rest -> match_frac rest = (None, rest).
Proof.
  destruct rest as [|c [|x rest]]; simpl; try reflexivity.
  intros [->| [->| ->]]; reflexivity.
Qed.

Lemma match_exp_delimited (rest : str) :
  delimited rest -> match_exp rest = (None, rest).
Proof.
  destruct rest as [|c rest]; simpl; try reflexivity.
  intros [->| [->| ->]]; reflexivity.
Qed.

(** The number scanner on the digits of [str(n)], whatever the sign was. *)
Lemma match_digits (neg : bool) (n : N) (rest : str) :
  delimited rest ->
  match str_of_N n ++ rest with
  | [] => None
  | c :: r =>
    if is_digit c then
      let (ip, r1) := if c =? 48 then ([c], r) else span_digits (str_of_N n ++ rest) in
      let (frac, r2) := match_frac r1 in
      let (ex, r3) := match_exp r2 in
      match frac, ex with
      | None, None => Some (JInt (signed neg (int_of_digits ip)), r3)
      | _, _ =>
        let fd := match frac with Some f => f | None => [] end in
        let ev := match ex with
                  | Some (eneg, ds) => signed eneg (int_of_digits ds)
                  | None => 0%Z
                  end in
        Some (JFloat (FDec (signed neg (int_of_digits (ip ++ fd)))
                           (ev - Z.of_nat (length fd))), r3)
      end
    else None
  end = Some (JInt (signed neg n), rest).
Proof.
  intros Hr.
  destruct (str_of_N_head n) as (c & t & E & Hc & H0).
  pose proof (int_of_str_of_N n) as Hi.
  pose proof (str_of_N_digits n) as Hd.
  rewrite (span_digits_app _ _ Hd (delimited_no_digit _ Hr)).
  rewrite E in *. cbn [List.app]. rewrite Hc.
  destruct (N.eqb_spec c 48) as [->|Hne].
  - destruct (H0 eq_refl) as [-> ->]. cbn [List.app].
    rewrite (match_frac_delimited _ Hr), (match_exp_delimited _ Hr).
    reflexivity.
  - rewrite (match_frac_delimited _ Hr), (match_exp_delimited _ Hr).
    now rewrite Hi.
Qed.

Lemma match_number_int (z : Z) (rest : str) :
  delimited rest -> match_number (str_of_Z z ++ rest) = Some (JInt z, rest).
Proof.
  intros Hr. unfold match_number, str_of_Z.
  destruct (Z.ltb_spec z 0) as [Hz|Hz].
  - cbn [List.app]. change (MINUS =? MINUS) with true. cbv iota.
    rewrite (match_digits true _ _ Hr). unfold signed.
    rewrite Z2N.id by lia. now rewrite Z.opp_involutive.
  - destruct (str_of_N_head (Z.to_N z)) as (c & t & E & Hc & _).
    assert (Hm : (c =? MINUS) = false).
    { apply N.eqb_neq; intros ->; discriminate. }
    pose proof (match_digits false (Z.to_N z) _ Hr) as H.
    rewrite E in *. cbn [List.app] in *. rewrite Hm.
    rewrite H. unfold signed. now rewrite Z2N.id by lia.
Qed.

Lemma strip_prefix_head (a b : char) (p s : str) :
  a <> b -> strip_prefix (a :: p) (b :: s) = None.
Proof. intros H; simpl. now destruct (N.eqb_spec a b). Qed.

Lemma scan_atom_int (z : Z) (rest : str) :
  delimited rest -> scan_atom (str_of_Z z ++ rest) = Some (JInt z, rest).
Proof.
  intros Hr. unfold scan_atom.
  assert (H : exists c t, str_of_Z z ++ rest = c :: t /\
                          (c = MINUS /\ no_digit_ahead t -> False) /\
                          (c = MINUS \/ is_digit c = true)).
  { unfold str_of_Z. destruct (z <? 0)%Z.
    - destruct (str_of_N_head (Z.to_N (- z))) as (c & t & E & Hc & _).
      rewrite E. exists MINUS, (c :: t ++ rest); repeat split; auto.
      intros [_ Hn]; simpl in Hn; congruence.
    - destruct (str_of_N_head (Z.to_N z)) as (c & t & E & Hc & _).
      rewrite E. exists c, (t ++ rest); repeat split; auto.
      intros [-> _]; discriminate. }
  destruct H as (c & t & E & Hneg & Hc).
  rewrite <- (match_number_int z rest Hr). rewrite E.
  assert (Hnot : forall x, is_digit x = false -> x <> MINUS -> c <> x).
  { intros x Hx Hm ->. destruct Hc; congruence. }
  unfold NULL, TRUE, FALSE, NAN, INFINITY, NEG_INFINITY.
  rewrite !strip_prefix_head
    by (intros Hx; symmetry in Hx; revert Hx; apply Hnot; [reflexivity|discriminate]).
  destruct (N.eqb_spec c MINUS) as [->|Hm].
  - destruct t as [|d t].
    + exfalso; apply Hneg; simpl; auto.
    + destruct (is_digit d) eqn:Hd.
      * cbn [strip_prefix]. change (45 =? MINUS) with true. cbv iota.
        destruct (N.eqb_spec 73 d) as [<-|_]; [discriminate|reflexivity].
      * exfalso; apply Hneg; simpl; auto.
  - rewrite strip_prefix_head by (intros Hx; apply Hm; now rewrite <- Hx).
    reflexivity.
Qed.

Lemma starts_value_digits (n : N) (rest : str) : starts_value (str_of_N n ++ rest).
Proof.
  destruct (str_of_N_head n) as (c & t & E & Hc & _). rewrite E.
  exists c, (t ++ rest). unfold is_digit in Hc.
  apply andb_true_iff in Hc as [A B]. apply N.leb_le in A, B.
  repeat split; try lia.
  unfold is_ws, LF, CR.
  repeat (apply orb_false_iff; split); apply N.eqb_neq; lia.
Qed.

Lemma starts_value_str_of_Z (z : Z) (rest : str) : starts_value (str_of_Z z ++ rest).
Proof.
  unfold str_of_Z. destruct (z <? 0)%Z; [|apply starts_value_digits].
  eexists; eexists; split; [reflexivity|].
  repeat split; discriminate.
Qed.

Lemma starts_value_dumps (j : json) (rest : str) : starts_value (json_dumps j ++ rest).
Proof.
  destruct j as [|[|]|z|[m e| |[|]]|s|l|kv]; simpl;
    try (eexists; eexists; split; [reflexivity|]; repeat split; discriminate).
  - apply starts_value_str_of_Z.
  - rewrite <- app_assoc. apply starts_value_str_of_Z.
Qed.

Lemma skip_ws_starts_value (s : str) : starts_value s -> skip_ws s = s.
Proof. intros (c & t & -> & H & _). simpl. now rewrite H. Qed.

Lemma scan_once_S (fuel : nat) (c : char) (r : str) :
  scan_once (S fuel) (c :: r) =
  if c =? QUOTE then
    match scanstring r with
    | Some (t, r') => Some (JStr t, r')
    | None => None
    end
  else if c =? 123 then
    match skip_ws r with
    | [] => None
    | c' :: r' => if c' =? 125 then Some (JObj [], r')
                  else parse_members fuel (c' :: r') []
    end
  else if c =? 91 then
    match skip_ws r with
    | [] => None
    | c' :: r' => if c' =? 93 then Some (JArr [], r')
                  else parse_elems fuel (c' :: r') []
    end
  else scan_atom (c :: r).
Proof. reflexivity. Qed.

Lemma parse_elems_S (fuel : nat) (s : str) (acc : list json) :
  parse_elems (S fuel) s acc =
  match scan_once fuel s with
  | None => None
  | Some (v, r) =>
    match skip_ws r with
    | [] => None
    | c :: r' =>
      if c =? 93 then Some (JArr (acc ++ [v]), r')
      else if c =? 44 then parse_elems fuel (skip_ws r') (acc ++ [v])
      else None
    end
  end.
Proof. reflexivity. Qed.

Lemma parse_members_S (fuel : nat) (r : str) (acc : list (str * json)) :
  parse_members (S fuel) (QUOTE :: r) acc =
  match scanstring r with
  | None => None
  | Some (k, r1) =>
    match skip_ws r1 with
    | [] => None
    | c1 :: r2 =>
      if c1 =? 58 then
        match scan_once fuel (skip_ws r2) with
        | None => None
        | Some (v, r3) =>
          match skip_ws r3 with
          | [] => None
          | c3 :: r4 =>
            if c3 =? 125 then Some (JObj (dict_set k v acc), r4)
            else if c3 =? 44
                 then parse_members fuel (skip_ws r4) (dict_set k v acc)
                 else None
          end
        end
      else None
    end
  end.
Proof. reflexivity. Qed.

Lemma dict_set_fresh (acc : list (str * json)) (k : str) (v : json) (b : list str) :
  distinct (map fst acc ++ k :: b) = true -> dict_set k v acc = acc ++ [(k, v)].
Proof.
  induction acc as [|[k' v'] acc IH]; intros H; [reflexivity|].
  cbn [map fst List.app distinct] in H.
  apply andb_true_iff in H as [H1 H2].
  apply negb_true_iff in H1. rewrite existsb_app in H1.
  apply orb_false_iff in H1 as [_ H1]. cbn [existsb] in H1.
  apply orb_false_iff in H1 as [H1 _].
  cbn [dict_set List.app]. rewrite H1. now rewrite IH.
Qed.

Lemma starts_value_join (x : json) (l : list json) (rest : str) :
  starts_value (join ITEM_SEPARATOR (map json_dumps (x :: l)) ++ rest).
Proof.
  cbn [map join]. destruct (map json_dumps l).
  - apply starts_value_dumps.
  - rewrite <- app_assoc. apply starts_value_dumps.
Qed.

Lemma join_cons_app (x y : str) (l : list str) (rest : str) :
  join ITEM_SEPARATOR (x :: y :: l) ++ rest
  = x ++ 44 :: 32 :: (join ITEM_SEPARATOR (y :: l) ++ rest).
Proof. cbn [join]. now rewrite <- app_assoc. Qed.

Lemma skip_ws_space (t : str) : skip_ws (32 :: t) = skip_ws t.
Proof. reflexivity. Qed.

Lemma parse_elems_dumps (l : list json) :
  Forall reads_back l -> forallb wf_json l = true -> l <> [] ->
  forall fuel acc rest,
    (fold_right (fun x n => S (Nat.max (scan_cost x) n)) O l <= fuel)%nat ->
    delimited rest ->
    parse_elems fuel (join ITEM_SEPARATOR (map json_dumps l) ++ 93 :: rest) acc
    = Some (JArr (acc ++ l), rest).
Proof.
  induction 1 as [|x l Hx Hl IH]; intros Hwf Hne fuel acc rest Hfuel Hrest;
    [congruence|].
  cbn [forallb] in Hwf. apply andb_true_iff in Hwf as [Hwx Hwl].
  cbn [fold_right] in Hfuel.
  destruct fuel as [|fuel]; [lia|].
  rewrite parse_elems_S.
  destruct l as [|y l].
  - cbn [map join]. rewrite (Hx Hwx) by (simpl; auto; lia).
    reflexivity.
  - cbn [map]. rewrite join_cons_app.
    rewrite (Hx Hwx) by (simpl; auto; lia).
    change (skip_ws (44 :: ?t)) with (44 :: t).
    change (44 =? 93) with false. change (44 =? 44) with true. cbv iota.
    rewrite skip_ws_space.
    rewrite skip_ws_starts_value by apply (starts_value_join y l).
    rewrite (IH Hwl); [now rewrite <- app_assoc|discriminate| |exact Hrest].
    cbn [fold_right] in *. lia.
Qed.

Lemma member_app (p : str * json) (tail : str) :
  dump_member p ++ tail
  = QUOTE :: flat_map escape_char (fst p)
      ++ QUOTE :: 58 :: 32 :: (json_dumps (snd p) ++ tail).
Proof.
  unfold dump_member, encode_basestring_ascii.
  cbn [List.app]. f_equal.
  rewrite <- !app_assoc. reflexivity.
Qed.

Lemma parse_members_dumps (kv : list (str * json)) :
  Forall (fun p => reads_back (snd p)) kv ->
  forallb (fun p => no_surrogate_pair (fst p) && wf_json (snd p)) kv = true ->
  kv <> [] ->
  forall fuel acc rest,
    (fold_right (fun p n => S (Nat.max (scan_cost (snd p)) n)) O kv <= fuel)%nat ->
    distinct (map fst (acc ++ kv)) = true ->
    delimited rest ->
    parse_members fuel (join ITEM_SEPARATOR (map dump_member kv) ++ 125 :: rest) acc
    = Some (JObj (acc ++ kv), rest).
Proof.
  induction 1 as [|p kv Hp Hkv IH];
    intros Hwf Hne fuel acc rest Hfuel Hdist Hrest; [congruence|].
  cbn [forallb] in Hwf. apply andb_true_iff in Hwf as [Hwp Hwkv].
  apply andb_true_iff in Hwp as [Hk Hv].
  cbn [fold_right] in Hfuel.
  destruct fuel as [|fuel]; [lia|].
  assert (Hset : dict_set (fst p) (snd p) acc = acc ++ [p]).
  { rewrite map_app in Hdist. cbn [map] in Hdist.
    rewrite (dict_set_fresh _ _ _ _ Hdist). now destruct p. }
  destruct kv as [|p' kv].
  - cbn [map join]. rewrite member_app, parse_members_S.
    rewrite scanstring_encode by exact Hk.
    change (skip_ws (58 :: ?t)) with (58 :: t).
    change (58 =? 58) with true. cbv iota.
    rewrite skip_ws_space.
    rewrite skip_ws_starts_value by apply starts_value_dumps.
    rewrite (Hp Hv) by (simpl; auto; lia).
    change (skip_ws (125 :: ?t)) with (125 :: t).
    change (125 =? 125) with true. cbv iota.
    now rewrite Hset.
  - cbn [map]. rewrite join_cons_app, member_app, parse_members_S.
    rewrite scanstring_encode by exact Hk.
    change (skip_ws (58 :: ?t)) with (58 :: t).
    change (58 =? 58) with true. cbv iota.
    rewrite skip_ws_space.
    rewrite skip_ws_starts_value by apply starts_value_dumps.
    rewrite (Hp Hv) by (simpl; auto; lia).
    change (skip_ws (44 :: ?t)) with (44 :: t).
    change (44 =? 125) with false. change (44 =? 44) with true. cbv iota.
    rewrite skip_ws_space, Hset.
    assert (Hs' : skip_ws (join ITEM_SEPARATOR (dump_member p' :: map dump_member kv)
                            ++ 125 :: rest)
                  = join ITEM_SEPARATOR (map dump_member (p' :: kv)) ++ 125 :: rest).
    { cbn [map]. destruct kv as [|p'' kv]; cbn [map].
      - cbn [join]. now rewrite member_app.
      - now rewrite join_cons_app, member_app. }
    rewrite Hs'.
    rewrite (IH Hwkv); [now rewrite <- app_assoc|discriminate| | |exact Hrest].
    + cbn [fold_right] in *. lia.
    + now rewrite <- app_assoc.
Qed.

Lemma json_reads_back (j : json) : reads_back j.
Proof.
  induction j as [|b|z|f|s|l IH|kv IH] using json_nested_ind;
    intros Hwf fuel rest Hfuel Hrest;
    (destruct fuel as [|fuel]; [simpl in Hfuel; lia|]).
  - reflexivity.
  - destruct b; reflexivity.
  - cbn [json_dumps].
    destruct (starts_value_str_of_Z z rest) as (c & t & E & _).
    assert (Hc : c = MINUS \/ is_digit c = true).
    { revert E. unfold str_of_Z. destruct (z <? 0)%Z.
      - cbn [List.app]. intros E; injection E as <- _. now left.
      - destruct (str_of_N_head (Z.to_N z)) as (c' & t' & E' & Hc' & _).
        rewrite E'. cbn [List.app]. intros E; injection E as <- _. now right. }
    rewrite <- (scan_atom_int z rest Hrest). rewrite E, scan_once_S.
    destruct (N.eqb_spec c QUOTE) as [->|_]; [destruct Hc; discriminate|].
    destruct (N.eqb_spec c 123) as [->|_]; [destruct Hc; discriminate|].
    destruct (N.eqb_spec c 91) as [->|_]; [destruct Hc; discriminate|].
    reflexivity.
  - discriminate.
  - cbn [json_dumps wf_json] in *. unfold encode_basestring_ascii.
    cbn [List.app]. rewrite scan_once_S.
    change (QUOTE =? QUOTE) with true. cbv iota.
    rewrite <- app_assoc. cbn [List.app].
    now rewrite scanstring_encode.
  - cbn [json_dumps wf_json scan_cost] in *.
    cbn [List.app]. rewrite scan_once_S.
    change (91 =? QUOTE) with false. change (91 =? 123) with false.
    change (91 =? 91) with true. cbv iota.
    rewrite <- app_assoc. cbn [List.app].
    destruct l as [|x l]; [reflexivity|].
    rewrite skip_ws_starts_value by apply starts_value_join.
    match goal with
    | |- match ?s with _ => _ end = _ =>
      assert (E : exists c t, s = c :: t /\ c <> 93)
        by (destruct (starts_value_join x l (93 :: rest)) as (c & t & E & _ & Hc & _);
            now exists c, t);
      assert (P : parse_elems fuel s [] = Some (JArr ([] ++ x :: l), rest))
        by (apply parse_elems_dumps; try (discriminate || assumption); lia);
      destruct E as (c & t & E & Hc); rewrite E in P |- *
    end.
    destruct (N.eqb_spec c 93); [contradiction|]. exact P.
  - cbn [json_dumps wf_json scan_cost] in *.
    apply andb_true_iff in Hwf as [Hd Hwf].
    cbn [List.app]. rewrite scan_once_S.
    change (123 =? QUOTE) with false. change (123 =? 123) with true. cbv iota.
    rewrite <- app_assoc. cbn [List.app].
    destruct kv as [|p kv]; [reflexivity|].
    change (map (fun p0 : str * json =>
                   encode_basestring_ascii (fst p0) ++ KEY_SEPARATOR
                     ++ json_dumps (snd p0)) (p :: kv))
      with (map dump_member (p :: kv)).
    assert (E : join ITEM_SEPARATOR (map dump_member (p :: kv)) ++ 125 :: rest
                = QUOTE :: flat_map escape_char (fst p)
                    ++ QUOTE :: 58 :: 32 ::
                    (json_dumps (snd p)
                       ++ match kv with
                          | [] => 125 :: rest
                          | _ :: _ => 44 :: 32 :: (join ITEM_SEPARATOR (map dump_member kv)
                                                     ++ 125 :: rest)
                          end)).
    { destruct kv as [|p' kv]; cbn [map].
      - cbn [join]. now rewrite member_app.
      - now rewrite join_cons_app, member_app. }
    match goal with
    | |- match skip_ws ?s with _ => _ end = _ =>
      assert (P : parse_members fuel s [] = Some (JObj ([] ++ p :: kv), rest))
        by (apply parse_members_dumps; try (discriminate || assumption); lia);
      replace s with (QUOTE :: flat_map escape_char (fst p)
                        ++ QUOTE :: 58 :: 32 ::
                        (json_dumps (snd p)
                           ++ match kv with
                              | [] => 125 :: rest
                              | _ :: _ => 44 :: 32 :: (join ITEM_SEPARATOR (map dump_member kv)
                                                         ++ 125 :: rest)
                              end)) in P |- *
    end.
    change (skip_ws (QUOTE :: ?t)) with (QUOTE :: t).
    change (QUOTE =? 125) with false. cbv iota. exact P.
Qed.

Lemma dumps_length_pos (j : json) : (1 <= length (json_dumps j))%nat.
Proof.
  destruct (starts_value_dumps j []) as (c & t & E & _).
  rewrite List.app_nil_r in E. rewrite E. simpl. lia.
Qed.

Lemma length_join_cons (x y : str) (l : list str) :
  length (join ITEM_SEPARATOR (x :: y :: l))
  = (length x + 2 + length (join ITEM_SEPARATOR (y :: l)))%nat.
Proof. cbn [join]. rewrite !length_app. simpl. lia. Qed.

Lemma scan_cost_bound (j : json) : (scan_cost j <= 2 * length (json_dumps j))%nat.
Proof.
  induction j as [|b|z|f|s|l IH|kv IH] using json_nested_ind.
  - simpl. lia.
  - pose proof (dumps_length_pos (JBool b)). simpl in *. lia.
  - pose proof (dumps_length_pos (JInt z)). simpl in *. lia.
  - pose proof (dumps_length_pos (JFloat f)). simpl in *. lia.
  - pose proof (dumps_length_pos (JStr s)). simpl in *. lia.
  - cbn [json_dumps scan_cost]. cbn [length]. rewrite length_app. cbn [length].
    assert (H : (fold_right (fun x n => S (Nat.max (scan_cost x) n)) O l
                 <= 2 * length (join ITEM_SEPARATOR (map json_dumps l)) + 1)%nat).
    { induction IH as [|x l Hx _ IHl]; [simpl; lia|].
      cbn [fold_right map]. destruct l as [|y l].
      - cbn [fold_right map join]. lia.
      - cbn [map] in *. rewrite length_join_cons. lia. }
    lia.
  - cbn [json_dumps scan_cost]. cbn [length]. rewrite length_app. cbn [length].
    change (map (fun p0 : str * json =>
                   encode_basestring_ascii (fst p0) ++ KEY_SEPARATOR
                     ++ json_dumps (snd p0)) kv)
      with (map dump_member kv).
    assert (H : (fold_right (fun p n => S (Nat.max (scan_cost (snd p)) n)) O kv
                 <= 2 * length (join ITEM_SEPARATOR (map dump_member kv)) + 1)%nat).
    { induction IH as [|x l Hx _ IHl]; [simpl; lia|].
      assert (Hm : (length (json_dumps (snd x)) <= length (dump_member x))%nat).
      { unfold dump_member. rewrite !length_app. lia. }
      cbn [fold_right map]. destruct l as [|y l].
      - cbn [fold_right map join]. lia.
      - cbn [map] in *. rewrite length_join_cons. lia. }
    lia.
Qed.

(** [json.loads(json.dumps(m)) == m] *)
Lemma json_loads_dumps (j : json) :
  wf_json j = true -> json_loads (json_dumps j) = Some j.
Proof.
  intros Hwf. unfold json_loads.
  pose proof (starts_value_dumps j []) as Hs. rewrite List.app_nil_r in Hs.
  rewrite (skip_ws_starts_value _ Hs).
  assert (Hf : (scan_cost j <= 2 * length (json_dumps j) + 2)%nat)
    by (pose proof (scan_cost_bound j); lia).
  pose proof (json_reads_back j Hwf _ [] Hf I) as R.
  rewrite List.app_nil_r in R. now rewrite R.
Qed.

(** ** The fuel of json_loads is enough

    A parse that succeeds with some fuel succeeds with twice the number of
    characters it reads, so [None] from [json_loads] is a JSONDecodeError
    and never a lack of fuel. *)

Lemma skip_ws_length (s : str) : (length (skip_ws s) <= length s)%nat.
Proof.
  induction s as [|c s IH]; cbn [skip_ws]; [lia|].
  destruct (is_ws c); cbn [length]; lia.
Qed.

Lemma skip_ws_cons (s r : str) (c : char) :
  skip_ws s = c :: r -> (length r < length s)%nat.
Proof.
  intros H. pose proof (skip_ws_length s) as Hl. rewrite H in Hl.
  cbn [length] in Hl. lia.
Qed.

Lemma scanstring_shorter (s : str) :
  forall t r, scanstring s = Some (t, r) -> (length r < length s)%nat.
Proof.
  induction s as [s IH] using (well_founded_induction
                                 (Wf_nat.well_founded_ltof _ (@length char))).
  unfold Wf_nat.ltof in IH.
  intros t r. destruct s as [|c s]; [discriminate|].
  cbn [scanstring].
  assert (Hcons : forall x s' o,
             (length s' < length (c :: s))%nat ->
             match scanstring s' with
             | Some (t0, rest) => Some (x :: t0, rest)
             | None => None
             end = o -> o = Some (t, r) -> (length r < length (c :: s))%nat).
  { intros x s' o Hs' <- H.
    destruct (scanstring s') as [[t0 rest]|] eqn:E; [|discriminate].
    injection H as _ <-. apply IH in E; [lia|exact Hs']. }
  destruct (c =? QUOTE).
  - intros H; injection H as _ <-. cbn [length]. lia.
  - destruct (c =? BACKSLASH).
    + destruct s as [|e r1]; [discriminate|].
      destruct (e =? 117).
      * destruct r1 as [|h1 [|h2 [|h3 [|h4 r2]]]]; try discriminate.
        destruct (unhex4 h1 h2 h3 h4) as [u|]; [|discriminate].
        assert (Hlone : match scanstring r2 with
                        | Some (t0, rest) => Some (u :: t0, rest)
                        | None => None
                        end = Some (t, r) ->
                        (length r < length (c :: e :: h1 :: h2 :: h3 :: h4 :: r2))%nat).
        { intros H. eapply (Hcons u r2); [cbn [length]; lia|reflexivity|exact H]. }
        destruct (is_high_surrogate u); [|exact Hlone].
        destruct r2 as [|b [|l [|g1 [|g2 [|g3 [|g4 r3]]]]]]; try exact Hlone.
        destruct ((b =? BACKSLASH) && (l =? 117)); [|exact Hlone].
        destruct (unhex4 g1 g2 g3 g4) as [u2|]; [|discriminate].
        destruct (is_low_surrogate u2); [|exact Hlone].
        intros H. eapply (Hcons (join_surrogates u u2) r3);
          [cbn [length]; lia|reflexivity|exact H].
      * destruct (short_escape e) as [x|]; [|discriminate].
        intros H. eapply (Hcons x r1); [cbn [length]; lia|reflexivity|exact H].
    + destruct (c <? 32); [discriminate|].
      intros H. eapply (Hcons c s); [cbn [length]; lia|reflexivity|exact H].
Qed.

Lemma span_digits_length (s ds r : str) :
  span_digits s = (ds, r) -> length s = (length ds + length r)%nat.
Proof.
  intros H. apply span_digits_spec in H as (-> & _). apply length_app.
Qed.

Lemma match_frac_length (s : str) :
  (length (snd (match_frac s)) <= length s)%nat.
Proof.
  unfold match_frac. destruct s as [|d [|x r]]; cbn [snd length]; try lia.
  destruct ((d =? 46) && is_digit x); [|cbn [snd length]; lia].
  destruct (span_digits (x :: r)) as [f r'] eqn:E.
  apply span_digits_length in E. cbn [snd length] in *. lia.
Qed.

Lemma match_exp_length (s : str) :
  (length (snd (match_exp s)) <= length s)%nat.
Proof.
  unfold match_exp. destruct s as [|e r]; cbn [snd length]; [lia|].
  destruct ((e =? 101) || (e =? 69)); [|cbn [snd length]; lia].
  set (p := match r with
            | [] => (false, r)
            | sg :: t => if sg =? MINUS then (true, t)
                         else if sg =? 43 then (false, t) else (false, r)
            end).
  assert (Hp : (length (snd p) <= length r)%nat).
  { unfold p. destruct r as [|sg t]; cbn [snd length]; [lia|].
    destruct (sg =? MINUS); [cbn [snd]; lia|].
    destruct (sg =? 43); cbn [snd length]; lia. }
  destruct p as [neg r1]. cbn [snd] in Hp.
  destruct (span_digits r1) as [ds r2] eqn:E.
  apply span_digits_length in E.
  destruct ds; cbn [snd length] in *; lia.
Qed.

Lemma match_number_shorter (s : str) (v : json) (r : str) :
  match_number s = Some (v, r) -> (length r < length s)%nat.
Proof.
  unfold match_number.
  set (p := match s with
            | [] => (false, s)
            | c :: r0 => if c =? MINUS then (true, r0) else (false, s)
            end).
  assert (Hp : (length (snd p) <= length s)%nat).
  { unfold p. destruct s as [|c r0]; cbn [snd length]; [lia|].
    destruct (c =? MINUS); cbn [snd length]; lia. }
  destruct p as [neg s1]. cbn [snd] in Hp.
  destruct s1 as [|c r0]; [discriminate|].
  destruct (is_digit c) eqn:Hc; [|discriminate].
  set (q := if c =? 48 then ([c], r0) else span_digits (c :: r0)).
  assert (Hq : (length (snd q) < length (c :: r0))%nat).
  { unfold q. destruct (c =? 48); [cbn [snd length]; lia|].
    destruct (span_digits (c :: r0)) as [ds r1] eqn:E.
    pose proof (span_digits_length _ _ _ E) as Hl.
    cbn [span_digits] in E. rewrite Hc in E.
    destruct (span_digits r0) as [d' r']. injection E as <- <-.
    cbn [snd length] in *. lia. }
  destruct q as [ip r1]. cbn [snd] in Hq.
  pose proof (match_frac_length r1) as Hf.
  destruct (match_frac r1) as [frac r2]. cbn [snd] in Hf.
  pose proof (match_exp_length r2) as He.
  destruct (match_exp r2) as [ex r3]. cbn [snd] in He.
  destruct frac, ex; intros H; injection H as _ <-; lia.
Qed.

Lemma strip_prefix_shorter (p s r : str) :
  p <> [] -> strip_prefix p s = Some r -> (length r < length s)%nat.
Proof.
  intros Hp H. apply strip_prefix_sound in H. subst s. rewrite length_app.
  destruct p; [congruence|cbn [length]; lia].
Qed.

Lemma scan_atom_shorter (s : str) (v : json) (r : str) :
  scan_atom s = Some (v, r) -> (length r < length s)%nat.
Proof.
  unfold scan_atom.
  repeat match goal with
         | |- context [strip_prefix ?p s] =>
           let E := fresh "E" in
           destruct (strip_prefix p s) eqn:E;
             [intros H; injection H as _ <-;
              apply (strip_prefix_shorter p); [discriminate|exact E]|]
         end.
  apply match_number_shorter.
Qed.

Lemma parse_members_eq (fuel : nat) (s : str) (acc : list (str * json)) :
  parse_members (S fuel) s acc =
  match s with
  | [] => None
  | q :: r =>
    if q =? QUOTE then
      match scanstring r with
      | None => None
      | Some (k, r1) =>
        match skip_ws r1 with
        | [] => None
        | c1 :: r2 =>
          if c1 =? 58 then
            match scan_once fuel (skip_ws r2) with
            | None => None
            | Some (v, r3) =>
              match skip_ws r3 with
              | [] => None
              | c3 :: r4 =>
                if c3 =? 125 then Some (JObj (dict_set k v acc), r4)
                else if c3 =? 44
                     then parse_members fuel (skip_ws r4) (dict_set k v acc)
                     else None
              end
            end
          else None
        end
      end
    else None
  end.
Proof. reflexivity. Qed.

Lemma scan_ok_S (f : nat) : elems_ok f -> members_ok f -> scan_ok (S f).
Proof.
  intros He Hm s v r. destruct s as [|c r0]; [discriminate|].
  rewrite scan_once_S.
  destruct (c =? QUOTE) eqn:Eq.
  { destruct (scanstring r0) as [[t r']|] eqn:Es; [|discriminate].
    intros H; injection H as <- <-.
    pose proof (scanstring_shorter _ _ _ Es).
    split; [cbn [length]; lia|].
    intros [|f'] Hf; [cbn [length] in Hf; lia|].
    now rewrite scan_once_S, Eq, Es. }
  destruct (c =? 123) eqn:Eo.
  { destruct (skip_ws r0) as [|c' r'] eqn:Ew; [discriminate|].
    pose proof (skip_ws_length r0) as Hw. rewrite Ew in Hw.
    destruct (c' =? 125) eqn:Ec.
    - intros H; injection H as <- <-.
      split; [cbn [length] in *; lia|].
      intros [|f'] Hf; [cbn [length] in *; lia|].
      now rewrite scan_once_S, Eq, Eo, Ew, Ec.
    - intros H. destruct (Hm _ _ _ _ H) as [Hl Hf].
      split; [cbn [length] in *; lia|].
      intros [|f'] Hf'; [cbn [length] in *; lia|].
      rewrite scan_once_S, Eq, Eo, Ew, Ec. apply Hf.
      cbn [length] in *. lia. }
  destruct (c =? 91) eqn:Ea.
  { destruct (skip_ws r0) as [|c' r'] eqn:Ew; [discriminate|].
    pose proof (skip_ws_length r0) as Hw. rewrite Ew in Hw.
    destruct (c' =? 93) eqn:Ec.
    - intros H; injection H as <- <-.
      split; [cbn [length] in *; lia|].
      intros [|f'] Hf; [cbn [length] in *; lia|].
      now rewrite scan_once_S, Eq, Eo, Ea, Ew, Ec.
    - intros H. destruct (He _ _ _ _ H) as [Hl Hf].
      split; [cbn [length] in *; lia|].
      intros [|f'] Hf'; [cbn [length] in *; lia|].
      rewrite scan_once_S, Eq, Eo, Ea, Ew, Ec. apply Hf.
      cbn [length] in *. lia. }
  intros H. pose proof (scan_atom_shorter _ _ _ H) as Hl.
  split; [exact Hl|].
  intros [|f'] Hf; [lia|].
  now rewrite scan_once_S, Eq, Eo, Ea.
Qed.

Lemma elems_ok_S (f : nat) : scan_ok f -> elems_ok f -> elems_ok (S f).
Proof.
  intros Hs He s acc v r. rewrite parse_elems_S.
  destruct (scan_once f s) as [[x r1]|] eqn:Ex; [|discriminate].
  destruct (Hs _ _ _ Ex) as [Hl1 Hf1].
  destruct (skip_ws r1) as [|c r'] eqn:Ew; [discriminate|].
  pose proof (skip_ws_length r1) as Hw. rewrite Ew in Hw. cbn [length] in Hw.
  destruct (c =? 93) eqn:Ec.
  - intros H; injection H as <- <-.
    split; [lia|].
    intros [|f'] Hf; [lia|].
    rewrite parse_elems_S, Hf1 by lia. now rewrite Ew, Ec.
  - destruct (c =? 44) eqn:Ec'; [|discriminate].
    intros H. destruct (He _ _ _ _ H) as [Hl2 Hf2].
    pose proof (skip_ws_length r') as Hw'.
    split; [lia|].
    intros [|f'] Hf; [lia|].
    rewrite parse_elems_S, Hf1 by lia. rewrite Ew, Ec, Ec'.
    apply Hf2. lia.
Qed.

Lemma members_ok_S (f : nat) : scan_ok f -> members_ok f -> members_ok (S f).
Proof.
  intros Hs Hm s acc v r. rewrite parse_members_eq.
  destruct s as [|q r0]; [discriminate|].
  destruct (q =? QUOTE) eqn:Eq; [|discriminate].
  destruct (scanstring r0) as [[k r1]|] eqn:Ek; [|discriminate].
  pose proof (scanstring_shorter _ _ _ Ek) as Hk.
  destruct (skip_ws r1) as [|c1 r2] eqn:Ew1; [discriminate|].
  pose proof (skip_ws_length r1) as Hw1. rewrite Ew1 in Hw1. cbn [length] in Hw1.
  destruct (c1 =? 58) eqn:Ec1; [|discriminate].
  pose proof (skip_ws_length r2) as Hw2.
  destruct (scan_once f (skip_ws r2)) as [[x r3]|] eqn:Ex; [|discriminate].
  destruct (Hs _ _ _ Ex) as [Hl1 Hf1].
  destruct (skip_ws r3) as [|c3 r4] eqn:Ew3; [discriminate|].
  pose proof (skip_ws_length r3) as Hw3. rewrite Ew3 in Hw3. cbn [length] in Hw3.
  destruct (c3 =? 125) eqn:Ec3.
  - intros H; injection H as <- <-.
    split; [cbn [length]; lia|].
    intros [|f'] Hf; [cbn [length] in Hf; lia|].
    rewrite parse_members_eq, Eq, Ek, Ew1, Ec1.
    rewrite Hf1 by (cbn [length] in Hf; lia). now rewrite Ew3, Ec3.
  - destruct (c3 =? 44) eqn:Ec3'; [|discriminate].
    intros H. destruct (Hm _ _ _ _ H) as [Hl2 Hf2].
    pose proof (skip_ws_length r4) as Hw4.
    split; [cbn [length]; lia|].
    intros [|f'] Hf; [cbn [length] in Hf; lia|].
    rewrite parse_members_eq, Eq, Ek, Ew1, Ec1.
    rewrite Hf1 by (cbn [length] in Hf; lia). rewrite Ew3, Ec3, Ec3'.
    apply Hf2. cbn [length] in Hf. lia.
Qed.

Lemma fuel_ok (f : nat) : scan_ok f /\ elems_ok f /\ members_ok f.
Proof.
  induction f as [|f (Hs & He & Hm)].
  - split; [|split]; intros s; intros; discriminate.
  - split; [|split].
    + now apply scan_ok_S.
    + now apply elems_ok_S.
    + now apply members_ok_S.
Qed.

(** Whatever some fuel can parse, [json.loads] parses. *)
Lemma json_loads_complete (s : str) (f : nat) (v : json) (r : str) :
  scan_once f (skip_ws s) = Some (v, r) -> skip_ws r = [] ->
  json_loads s = Some v.
Proof.
  intros H Hr. unfold json_loads.
  destruct (proj1 (fuel_ok f) _ _ _ H) as [_ Hf].
  rewrite Hf, Hr; [reflexivity|].
  pose proof (skip_ws_length s). lia.
Qed.

(** A [None] of [json.loads] is an error of the document at every fuel. *)
Lemma json_loads_none (s : str) :
  json_loads s = None ->
  forall f, match scan_once f (skip_ws s) with
            | Some (v, r) => skip_ws r <> []
            | None => True
            end.
Proof.
  intros H f. destruct (scan_once f (skip_ws s)) as [[v r]|] eqn:E; [|exact I].
  intros Hr. now rewrite (json_loads_complete s f v r E Hr) in H.
Qed.

(** ** The reader on a stream of frames *)

Lemma encode_lsp_frame (obj : json) : encode_lsp obj = frame (json_dumps obj).
Proof. unfold encode_lsp, frame, header_of. now rewrite <- !app_assoc. Qed.

Lemma match_eol_crlf (s : str) : match_eol (CR :: LF :: s) = Some s.
Proof. reflexivity. Qed.

Lemma re_match_here_header (n : nat) (tail : str) :
  re_match_here (header_of n ++ tail) = Some (str_of_N (N.of_nat n), tail).
Proof.
  unfold re_match_here, header_of.
  rewrite <- !app_assoc, strip_prefix_app. cbn [bind].
  rewrite span_digits_app; [|apply str_of_N_digits|reflexivity].
  destruct (str_of_N (N.of_nat n)) eqn:E; [now apply str_of_N_nonempty in E|].
  reflexivity.
Qed.

Lemma length_header_pos (n : nat) : (20 < length (header_of n))%nat.
Proof.
  unfold header_of. rewrite !length_app. simpl.
  pose proof (str_of_N_nonempty (N.of_nat n)).
  destruct (str_of_N (N.of_nat n)); [congruence|simpl; lia].
Qed.

Lemma re_search_header (n : nat) (tail : str) :
  re_search (header_of n ++ tail)
  = Some (str_of_N (N.of_nat n), length (header_of n)).
Proof.
  unfold re_search.
  pose proof (length_header_pos n) as Hl.
  destruct (header_of n ++ tail) as [|c s] eqn:E.
  - apply (f_equal (@length _)) in E. rewrite length_app in E. simpl in E. lia.
  - cbn [re_search_from]. rewrite <- E, re_match_here_header.
    do 2 f_equal. rewrite length_app. lia.
Qed.

Lemma contains_prefix (p s : str) : contains p (p ++ s) = true.
Proof. destruct s, p; simpl; rewrite ?N.eqb_refl, ?strip_prefix_app; reflexivity. Qed.

Lemma contains_header (n : nat) (tail : str) :
  contains HEADER_KEY (header_of n ++ tail) = true.
Proof.
  unfold header_of. change HEADER with (HEADER_KEY ++ [32]).
  rewrite <- !app_assoc. apply contains_prefix.
Qed.

(** One turn of the inner loop on a buffer that starts with a whole frame. *)
Lemma drain_frame (fuel : nat) (body rest : str) (queue : list json) :
  drain (S fuel) (frame body ++ rest) queue
  = drain fuel rest (queue ++ decoded [body]).
Proof.
  unfold frame. rewrite <- app_assoc.
  cbn [drain]. rewrite contains_header, re_search_header, int_of_str_of_N.
  rewrite Nnat.Nat2N.id.
  replace (N.of_nat (length (header_of (length body))) + N.of_nat (length body)
           <=? N.of_nat (length (header_of (length body) ++ body ++ rest)))
    with true
    by (symmetry; apply N.leb_le; rewrite !length_app; lia).
  rewrite skipn_app, skipn_all, Nat.sub_diag. cbn [skipn List.app].
  rewrite firstn_app, firstn_all, Nat.sub_diag. cbn [firstn].
  rewrite List.app_nil_r.
  replace (skipn (length (header_of (length body)) + length body)
                 (header_of (length body) ++ body ++ rest))
    with rest.
  - unfold decoded. cbn [flat_map]. rewrite List.app_nil_r.
    destruct (json_loads body); [reflexivity|now rewrite List.app_nil_r].
  - rewrite app_assoc, skipn_app, <- length_app, skipn_all, Nat.sub_diag.
    reflexivity.
Qed.

(** *** Incomplete frames stay in the buffer *)

Lemma match_eol_spec (s r : str) :
  match_eol s = Some r -> s = LF :: r \/ s = CR :: LF :: r.
Proof.
  destruct s as [|c s]; simpl; [discriminate|].
  destruct (N.eqb_spec c CR) as [->|_].
  - destruct s as [|d s]; [discriminate|].
    destruct (N.eqb_spec d LF) as [->|_]; [|discriminate].
    intros H; injection H as <-; now right.
  - destruct (N.eqb_spec c LF) as [->|_]; [|discriminate].
    intros H; injection H as <-; now left.
Qed.

Lemma count_lf_app (a b : str) : count_lf (a ++ b) = (count_lf a + count_lf b)%nat.
Proof. apply count_occ_app. Qed.

Lemma match_eol_lf (s r : str) :
  match_eol s = Some r -> (count_lf s = 1 + count_lf r)%nat.
Proof.
  intros H; apply match_eol_spec in H as [-> | ->]; reflexivity.
Qed.

(** A match of the pattern holds two line feeds. *)
Lemma re_match_here_lf (s g rest : str) :
  re_match_here s = Some (g, rest) -> (2 <= count_lf s)%nat.
Proof.
  unfold re_match_here.
  destruct (strip_prefix HEADER s) as [s1|] eqn:E1; [|discriminate].
  cbn [bind]. apply strip_prefix_sound in E1. subst s.
  destruct (span_digits s1) as [ds s2] eqn:E2.
  apply span_digits_spec in E2 as (-> & _ & _).
  destruct ds as [|d ds]; [discriminate|].
  destruct (match_eol s2) as [s3|] eqn:E3; [|discriminate].
  cbn [bind].
  destruct (match_eol s3) as [s4|] eqn:E4; [|discriminate].
  intros _. apply match_eol_lf in E3, E4.
  rewrite !count_lf_app. lia.
Qed.

Lemma re_search_from_lf (s : str) (pos : nat) (r : str * nat) :
  re_search_from pos s = Some r -> (2 <= count_lf s)%nat.
Proof.
  revert pos; induction s as [|c s IH]; intros pos; cbn [re_search_from].
  - destruct (re_match_here []) as [[g rest]|] eqn:E; [|discriminate].
    intros _. now apply re_match_here_lf in E.
  - destruct (re_match_here (c :: s)) as [[g rest]|] eqn:E.
    + intros _. now apply re_match_here_lf in E.
    + intros H. apply IH in H. unfold count_lf in *. cbn [count_occ].
      destruct (N.eq_dec c LF); lia.
Qed.

Lemma count_lf_digits (ds : str) : forallb is_digit ds = true -> count_lf ds = 0%nat.
Proof.
  induction ds as [|d ds IH]; [reflexivity|].
  cbn [forallb]. intros H. apply andb_true_iff in H as [Hd H].
  unfold count_lf in *. cbn [count_occ].
  destruct (N.eq_dec d LF) as [->|_]; [discriminate|]. now apply IH.
Qed.

Lemma count_lf_header (n : nat) : count_lf (header_of n) = 2%nat.
Proof.
  unfold header_of. rewrite !count_lf_app.
  now rewrite (count_lf_digits _ (str_of_N_digits _)).
Qed.

Lemma header_ends_lf (n : nat) :
  header_of n = (HEADER ++ str_of_N (N.of_nat n) ++ [CR; LF; CR]) ++ [LF].
Proof. unfold header_of, CRLF_CRLF. now rewrite <- !app_assoc. Qed.

(** No match in a buffer that ends inside a header. *)
Lemma re_search_short_header (n : nat) (p s : str) :
  header_of n = p ++ s -> s <> [] -> re_search p = None.
Proof.
  intros E Hs.
  destruct (re_search p) as [r|] eqn:Er; [|reflexivity].
  apply re_search_from_lf in Er.
  pose proof (count_lf_header n) as Hc. rewrite E, count_lf_app in Hc.
  assert (Hl : (1 <= count_lf s)%nat).
  { rewrite header_ends_lf, (app_removelast_last LF Hs), (app_assoc p) in E.
    apply app_inj_tail in E as [_ E].
    rewrite (app_removelast_last LF Hs), count_lf_app, <- E.
    unfold count_lf at 2. simpl. lia. }
  lia.
Qed.

Lemma drain_short_header (fuel n : nat) (p s : str) (queue : list json) :
  header_of n = p ++ s -> s <> [] ->
  drain (S fuel) p queue = Some (p, queue).
Proof.
  intros E Hs. cbn [drain]. rewrite (re_search_short_header n p s E Hs).
  now destruct (contains HEADER_KEY p).
Qed.

Lemma drain_short_body (fuel : nat) (b1 b2 : str) (queue : list json) :
  b2 <> [] ->
  drain (S fuel) (header_of (length (b1 ++ b2)) ++ b1) queue
  = Some (header_of (length (b1 ++ b2)) ++ b1, queue).
Proof.
  intros Hb. cbn [drain].
  rewrite contains_header, re_search_header, int_of_str_of_N.
  replace (N.of_nat (length (header_of (length (b1 ++ b2))))
           + N.of_nat (length (b1 ++ b2))
           <=? N.of_nat (length (header_of (length (b1 ++ b2)) ++ b1)))
    with false; [reflexivity|].
  symmetry. apply N.leb_gt.
  assert (length b1 < length (b1 ++ b2))%nat
    by (rewrite length_app; destruct b2; [congruence|cbn [length]; lia]).
  rewrite (length_app _ b1). lia.
Qed.

Lemma drain_short (fuel : nat) (p rem : str) (todo : list str) (queue : list json) :
  p ++ rem = concat (map frame todo) -> short_of p todo ->
  drain (S fuel) p queue = Some (p, queue).
Proof.
  intros E Hs. destruct todo as [|b todo].
  - cbn [short_of] in Hs. subst p. reflexivity.
  - cbn [short_of] in Hs. cbn [map concat] in E.
    apply app_eq_app in E as [l [[E1 E2]|[E1 E2]]].
    + rewrite E1, length_app in Hs. lia.
    + assert (Hl : l <> []).
      { intros ->. rewrite List.app_nil_r in E1. rewrite E1 in Hs. lia. }
      unfold frame in E1.
      apply app_eq_app in E1 as [l2 [[E3 E4]|[E3 E4]]].
      * destruct l2 as [|x l2].
        -- rewrite List.app_nil_r in E3. subst p. simpl in E4. subst l.
           pose proof (drain_short_body fuel [] b queue Hl) as H.
           cbn [List.app] in H. now rewrite List.app_nil_r in H.
        -- eapply drain_short_header; [exact E3|discriminate].
      * subst p b. now apply drain_short_body.
Qed.

(** *** Whole frames leave the buffer in order *)

Lemma decoded_app (a b : list str) : decoded (a ++ b) = decoded a ++ decoded b.
Proof. apply flat_map_app. Qed.

Lemma drain_frames (done : list str) :
  forall fuel p queue,
    (length done < fuel)%nat ->
    (forall f q, drain (S f) p q = Some (p, q)) ->
    drain fuel (concat (map frame done) ++ p) queue
    = Some (p, queue ++ decoded done).
Proof.
  induction done as [|b done IH]; intros fuel p queue Hf Hp.
  - destruct fuel as [|fuel]; [simpl in Hf; lia|].
    cbn [map concat List.app]. rewrite Hp. unfold decoded. cbn [flat_map].
    now rewrite List.app_nil_r.
  - destruct fuel as [|fuel]; [simpl in Hf; lia|].
    cbn [map concat]. rewrite <- app_assoc, drain_frame.
    rewrite IH by (simpl in Hf; lia || exact Hp).
    change (b :: done) with ([b] ++ done).
    now rewrite decoded_app, app_assoc.
Qed.

Lemma length_frames (done : list str) :
  (length done <= length (concat (map frame done)))%nat.
Proof.
  induction done as [|b done IH]; [simpl; lia|].
  cbn [map concat]. rewrite length_app. unfold frame at 1. rewrite length_app.
  pose proof (length_header_pos (length b)). simpl. lia.
Qed.

Lemma split_frames (todo : list str) :
  forall s rem,
    s ++ rem = concat (map frame todo) ->
    exists done' todo' p,
      todo = done' ++ todo' /\ s = concat (map frame done') ++ p /\
      p ++ rem = concat (map frame todo') /\ short_of p todo'.
Proof.
  induction todo as [|b todo IH]; intros s rem E.
  - cbn [map concat] in E. apply app_eq_nil in E as [-> ->].
    exists [], [], []. repeat split.
  - destruct (Nat.lt_ge_cases (length s) (length (frame b))) as [Hlt|Hge].
    + exists [], (b :: todo), s. repeat split; auto.
    + cbn [map concat] in E.
      apply app_eq_app in E as [l [[E1 E2]|[E1 E2]]].
      * destruct (IH l rem (eq_sym E2)) as (d' & t' & p & -> & -> & Hp & Hs).
        exists (b :: d'), t', p. repeat split; auto.
        cbn [map concat]. now rewrite <- app_assoc.
      * assert (l = []) as ->.
        { rewrite E1, length_app in Hge. destruct l; [reflexivity|simpl in Hge; lia]. }
        rewrite List.app_nil_r in E1. simpl in E2.
        destruct (IH [] rem E2) as (d' & t' & p & -> & Hd & Hp & Hs).
        exists (b :: d'), t', p. repeat split; auto.
        cbn [map concat]. rewrite <- app_assoc, <- Hd, List.app_nil_r. auto.
Qed.

Lemma drain_buffer_frames (buffer rem : str) (todo : list str) (queue : list json) :
  buffer ++ rem = concat (map frame todo) ->
  exists done' todo' p,
    todo = done' ++ todo' /\
    p ++ rem = concat (map frame todo') /\ short_of p todo' /\
    drain_buffer buffer queue = Some (p, queue ++ decoded done').
Proof.
  intros E.
  destruct (split_frames todo buffer rem E) as (d' & t' & p & Ht & Hb & Hp & Hs).
  exists d', t', p. repeat split; auto.
  unfold drain_buffer. rewrite Hb. apply drain_frames.
  - rewrite length_app. pose proof (length_frames d'). lia.
  - intros f q. eapply drain_short; eauto.
Qed.

(** The reader on any chunking of a stream of frames. *)
Lemma read_chunks_frames (chunks : list str) :
  Forall (fun c => c <> []) chunks ->
  forall todo buffer queue,
    buffer ++ concat chunks = concat (map frame todo) ->
    short_of buffer todo ->
    read_chunks chunks buffer queue = Some ([], queue ++ decoded todo).
Proof.
  induction 1 as [|c chunks Hc Hcs IH]; intros todo buffer queue E Hs.
  - cbn [concat] in E. rewrite List.app_nil_r in E.
    destruct todo as [|b todo].
    + cbn [short_of] in Hs. subst buffer. unfold decoded. simpl.
      now rewrite List.app_nil_r.
    + exfalso. cbn [short_of] in Hs. rewrite E in Hs. cbn [map concat] in Hs.
      rewrite length_app in Hs. lia.
  - cbn [read_chunks concat] in *.
    destruct c as [|x c]; [congruence|].
    rewrite app_assoc in E.
    destruct (drain_buffer_frames _ _ _ queue E)
      as (d' & t' & p & -> & Hp & Hs' & Hd).
    rewrite Hd. cbn [bind fst snd].
    rewrite (IH t' p _ Hp Hs').
    now rewrite decoded_app, app_assoc.
Qed.

Lemma concat_singletons (s : str) : concat (map (fun c => [c]) s) = s.
Proof. induction s as [|c s IH]; simpl; congruence. Qed.

Lemma singletons_nonempty (s : str) :
  Forall (fun c : str => c <> []) (map (fun c => [c]) s).
Proof. induction s; simpl; constructor; auto; discriminate. Qed.

Lemma short_of_nil (todo : list str) : short_of [] todo.
Proof.
  destruct todo as [|b todo]; simpl; [reflexivity|].
  unfold frame. rewrite length_app. pose proof (length_header_pos (length b)). lia.
Qed.

(** The reader as written, one character per read, on a stream of frames. *)
Lemma read_responses_frames (bodies : list str) :
  read_responses (concat (map frame bodies)) = Some ([], decoded bodies).
Proof.
  unfold read_responses.
  apply (read_chunks_frames _ (singletons_nonempty _) bodies [] []).
  - now rewrite concat_singletons.
  - apply short_of_nil.
Qed.

(** ** Buffers without a match *)

Lemma drain_no_match (fuel : nat) (buffer : str) (queue : list json) :
  re_search buffer = None -> drain (S fuel) buffer queue = Some (buffer, queue).
Proof. intros H. cbn [drain]. rewrite H. now destruct (contains HEADER_KEY buffer). Qed.

Lemma drain_no_key (fuel : nat) (buffer : str) (queue : list json) :
  contains HEADER_KEY buffer = false ->
  drain (S fuel) buffer queue = Some (buffer, queue).
Proof. intros H. cbn [drain]. now rewrite H. Qed.

Lemma match_eol_app (s r b : str) :
  match_eol s = Some r -> match_eol (s ++ b) = Some (r ++ b).
Proof. intros H; apply match_eol_spec in H as [-> | ->]; reflexivity. Qed.

Lemma match_eol_no_digit (s r b : str) :
  match_eol s = Some r -> no_digit_ahead (s ++ b).
Proof. intros H; apply match_eol_spec in H as [-> | ->]; reflexivity. Qed.

(** A match stays a match when text is appended. *)
Lemma re_match_here_app (s b g r : str) :
  re_match_here s = Some (g, r) -> re_match_here (s ++ b) = Some (g, r ++ b).
Proof.
  unfold re_match_here.
  destruct (strip_prefix HEADER s) as [s1|] eqn:E1; [|discriminate].
  cbn [bind]. apply strip_prefix_sound in E1. subst s.
  rewrite <- app_assoc, strip_prefix_app. cbn [bind].
  destruct (span_digits s1) as [ds s2] eqn:E2.
  apply span_digits_spec in E2 as (-> & Hd & _).
  destruct ds as [|d ds]; [discriminate|].
  destruct (match_eol s2) as [s3|] eqn:E3; [|discriminate].
  cbn [bind].
  destruct (match_eol s3) as [s4|] eqn:E4; [|discriminate].
  intros H; injection H as <- <-.
  rewrite <- app_assoc.
  rewrite (span_digits_app _ _ Hd (match_eol_no_digit _ _ b E3)).
  rewrite (match_eol_app _ _ b E3). cbn [bind].
  now rewrite (match_eol_app _ _ b E4).
Qed.

Lemma re_search_from_app (s b : str) (pos : nat) :
  re_search_from pos (s ++ b) = None -> re_search_from pos s = None.
Proof.
  revert pos; induction s as [|c s IH]; intros pos H.
  - cbn [re_search_from]. destruct (re_match_here []) as [[g r]|] eqn:E; [|reflexivity].
    apply (re_match_here_app _ b) in E. cbn [List.app] in *.
    destruct b; cbn [re_search_from] in H; rewrite E in H; discriminate.
  - cbn [List.app re_search_from] in *.
    destruct (re_match_here (c :: s)) as [[g r]|] eqn:E.
    + apply (re_match_here_app _ b) in E. cbn [List.app] in E.
      rewrite E in H. discriminate.
    + destruct (re_match_here (c :: s ++ b)) as [[g r]|]; [discriminate|].
      now apply IH.
Qed.

Lemma re_search_prefix (a b : str) :
  re_search (a ++ b) = None -> re_search a = None.
Proof. apply re_search_from_app. Qed.

(** No suffix matches: no match anywhere. *)
Lemma re_search_none (s : str) :
  (forall a b, s = a ++ b -> re_match_here b = None) -> re_search s = None.
Proof.
  unfold re_search. generalize 0%nat.
  induction s as [|c s IH]; intros pos H; cbn [re_search_from].
  - now rewrite (H [] [] eq_refl).
  - rewrite (H [] (c :: s) eq_refl). apply IH.
    intros a b E. apply (H (c :: a) b). now rewrite E.
Qed.

Lemma re_match_here_head (c : char) (s : str) :
  c <> 67 -> re_match_here (c :: s) = None.
Proof.
  intros Hc. unfold re_match_here, HEADER.
  rewrite strip_prefix_head by congruence. reflexivity.
Qed.

Lemma re_match_here_few_lf (s : str) :
  (count_lf s < 2)%nat -> re_match_here s = None.
Proof.
  intros H. destruct (re_match_here s) as [[g r]|] eqn:E; [|reflexivity].
  apply re_match_here_lf in E. lia.
Qed.

(** The reader on a stream without a match: everything stays in the buffer. *)
Lemma read_chunks_no_match (chunks : list str) :
  Forall (fun c => c <> []) chunks ->
  forall buffer queue,
    re_search (buffer ++ concat chunks) = None ->
    read_chunks chunks buffer queue = Some (buffer ++ concat chunks, queue).
Proof.
  induction 1 as [|c chunks Hc Hcs IH]; intros buffer queue H.
  - cbn [read_chunks concat]. now rewrite List.app_nil_r.
  - cbn [read_chunks concat] in *. destruct c as [|x c]; [congruence|].
    rewrite app_assoc in H.
    unfold drain_buffer.
    rewrite (drain_no_match _ _ _ (re_search_prefix _ _ H)). cbn [bind fst snd].
    rewrite (IH _ _ H). now rewrite <- app_assoc.
Qed.

Lemma read_responses_no_match (s : str) :
  re_search s = None -> read_responses s = Some (s, []).
Proof.
  intros H. unfold read_responses.
  rewrite (read_chunks_no_match _ (singletons_nonempty s) [] []);
    cbn [List.app]; now rewrite concat_singletons.
Qed.

(** ** Text without a match in front of a frame *)

(** The characters the pattern can match after its first one: none of them
    is a capital C. *)
Lemma strip_prefix_stops (h l t s1 : str) :
  Forall (fun x => x <> 67) h ->
  strip_prefix h (l ++ 67 :: t) = Some s1 ->
  exists l1, strip_prefix h l = Some l1 /\ s1 = l1 ++ 67 :: t.
Proof.
  intros Hh; revert l; induction Hh as [|x h Hx Hh IH]; intros l H.
  - cbn [strip_prefix] in *. injection H as <-. now exists l.
  - destruct l as [|c l]; cbn [List.app strip_prefix] in *.
    + destruct (N.eqb_spec x 67); [contradiction|discriminate].
    + destruct (x =? c); [|discriminate]. now apply IH.
Qed.

Lemma span_digits_stops (l t : str) :
  span_digits (l ++ 67 :: t)
  = (fst (span_digits l), snd (span_digits l) ++ 67 :: t).
Proof.
  induction l as [|c l IH]; [reflexivity|].
  cbn [List.app span_digits]. destruct (is_digit c); [|reflexivity].
  rewrite IH. now destruct (span_digits l).
Qed.

Lemma match_eol_stops (l t s : str) :
  match_eol (l ++ 67 :: t) = Some s ->
  exists l1, match_eol l = Some l1 /\ s = l1 ++ 67 :: t.
Proof.
  destruct l as [|c l]; [discriminate|].
  cbn [List.app match_eol]. destruct (c =? CR).
  - destruct l as [|d l]; [discriminate|].
    cbn [List.app]. destruct (d =? LF); [|discriminate].
    intros H; injection H as <-. now exists l.
  - destruct (c =? LF); [|discriminate].
    intros H; injection H as <-. now exists l.
Qed.

(** A match that starts before a capital C which is not its own first
    character ends before it. *)
Lemma re_match_here_stops (l t g r : str) :
  l <> [] -> re_match_here (l ++ 67 :: t) = Some (g, r) ->
  exists r', re_match_here l = Some (g, r').
Proof.
  intros Hl. unfold re_match_here.
  destruct l as [|c l]; [congruence|].
  change HEADER with (67 :: tl HEADER).
  cbn [List.app strip_prefix]. destruct (67 =? c); [|discriminate].
  destruct (strip_prefix (tl HEADER) (l ++ 67 :: t)) as [s1|] eqn:E1;
    [|discriminate].
  apply strip_prefix_stops in E1 as (l1 & -> & ->);
    [|repeat constructor; discriminate].
  cbn [bind]. rewrite span_digits_stops.
  destruct (span_digits l1) as [ds s2]. cbn [fst snd].
  destruct ds as [|d ds]; [discriminate|].
  destruct (match_eol (s2 ++ 67 :: t)) as [s3|] eqn:E3; [|discriminate].
  apply match_eol_stops in E3 as (l3 & -> & ->). cbn [bind].
  destruct (match_eol (l3 ++ 67 :: t)) as [s4|] eqn:E4; [|discriminate].
  apply match_eol_stops in E4 as (l4 & -> & ->). cbn [bind].
  intros H; injection H as <- _. now exists l4.
Qed.

Lemma re_search_from_none_here (pos : nat) (s : str) :
  re_search_from pos s = None -> re_match_here s = None.
Proof.
  destruct s; cbn [re_search_from];
    destruct (re_match_here _) as [[g r]|]; congruence.
Qed.

Lemma header_starts_C (n : nat) (tail : str) :
  exists t, header_of n ++ tail = 67 :: t.
Proof. unfold header_of, HEADER. eexists. reflexivity. Qed.

(** The leftmost match in junk followed by a header is the header. *)
Lemma re_search_from_junk (junk : str) :
  forall pos n tail,
    re_search_from pos junk = None ->
    re_search_from pos (junk ++ header_of n ++ tail)
    = Some (str_of_N (N.of_nat n), (pos + length junk + length (header_of n))%nat).
Proof.
  induction junk as [|c junk IH]; intros pos n tail H.
  - cbn [List.app length]. pose proof (length_header_pos n) as Hl.
    destruct (header_of n ++ tail) as [|x s] eqn:E.
    + apply (f_equal (@length _)) in E. rewrite length_app in E. simpl in E. lia.
    + cbn [re_search_from]. rewrite <- E, re_match_here_header.
      do 2 f_equal. rewrite length_app. lia.
  - cbn [List.app re_search_from].
    pose proof (re_search_from_none_here _ _ H) as Hh.
    cbn [re_search_from] in H. rewrite Hh in H.
    destruct (re_match_here (c :: junk ++ header_of n ++ tail)) as [[g r]|] eqn:E.
    + exfalso. destruct (header_starts_C n tail) as [t Et]. rewrite Et in E.
      change (c :: junk ++ 67 :: t) with ((c :: junk) ++ 67 :: t) in E.
      apply re_match_here_stops in E as [r' E]; [congruence|discriminate].
    + rewrite (IH _ n tail H). do 2 f_equal. cbn [length]. lia.
Qed.

Lemma re_search_junk (junk : str) (n : nat) (tail : str) :
  re_search junk = None ->
  re_search (junk ++ header_of n ++ tail)
  = Some (str_of_N (N.of_nat n), (length junk + length (header_of n))%nat).
Proof. intros H. unfold re_search. now rewrite re_search_from_junk. Qed.

Lemma contains_app_r (p a b : str) : contains p b = true -> contains p (a ++ b) = true.
Proof.
  intros H; induction a as [|c a IH]; [exact H|].
  cbn [List.app contains]. rewrite IH.
  now destruct (strip_prefix p (c :: a ++ b)).
Qed.

Lemma skipn_exact (a b : str) : skipn (length a) (a ++ b) = b.
Proof. induction a; simpl; auto. Qed.

Lemma firstn_exact (a b : str) : firstn (length a) (a ++ b) = a.
Proof. induction a; simpl; congruence. Qed.

Lemma skipn_two (a b c : str) : skipn (length a + length b) (a ++ b ++ c) = c.
Proof. now rewrite <- length_app, app_assoc, skipn_exact. Qed.

Lemma skipn_three (a b c d : str) :
  skipn (length a + length b + length c) (a ++ b ++ c ++ d) = d.
Proof.
  rewrite <- !length_app. rewrite (app_assoc b), (app_assoc a), <- (app_assoc a b c).
  now rewrite (app_assoc a b c), skipn_exact.
Qed.

(** One turn of the inner loop on junk followed by a whole frame: the frame
    is cut out and the junk goes with it. *)
Lemma drain_junk_frame (fuel : nat) (junk body rest : str) (queue : list json) :
  re_search junk = None ->
  drain (S fuel) (junk ++ frame body ++ rest) queue
  = drain fuel rest (queue ++ decoded [body]).
Proof.
  intros Hj. unfold frame. rewrite <- app_assoc.
  cbn [drain].
  rewrite contains_app_r by apply contains_header.
  rewrite (re_search_junk _ _ _ Hj), int_of_str_of_N, Nnat.Nat2N.id.
  set (h := header_of (length body)).
  replace (N.of_nat (length junk + length h) + N.of_nat (length body)
           <=? N.of_nat (length (junk ++ h ++ body ++ rest)))
    with true
    by (symmetry; apply N.leb_le; rewrite !length_app; lia).
  rewrite skipn_two, skipn_three, firstn_exact.
  unfold decoded. cbn [flat_map]. rewrite List.app_nil_r.
  destruct (json_loads body); [reflexivity|now rewrite List.app_nil_r].
Qed.

Lemma drain_junk_short_body (fuel : nat) (junk b1 b2 : str) (queue : list json) :
  re_search junk = None -> b2 <> [] ->
  drain (S fuel) (junk ++ header_of (length (b1 ++ b2)) ++ b1) queue
  = Some (junk ++ header_of (length (b1 ++ b2)) ++ b1, queue).
Proof.
  intros Hj Hb. cbn [drain].
  rewrite contains_app_r by apply contains_header.
  rewrite (re_search_junk _ _ _ Hj), int_of_str_of_N.
  replace (N.of_nat (length junk + length (header_of (length (b1 ++ b2))))
           + N.of_nat (length (b1 ++ b2))
           <=? N.of_nat (length (junk ++ header_of (length (b1 ++ b2)) ++ b1)))
    with false; [reflexivity|].
  symmetry. apply N.leb_gt.
  assert (length b1 < length (b1 ++ b2))%nat
    by (rewrite length_app; destruct b2; [congruence|cbn [length]; lia]).
  rewrite !(length_app junk), (length_app _ b1). lia.
Qed.

Lemma re_search_suffix_none (a l : str) :
  re_search (a ++ l) = None -> re_match_here l = None.
Proof.
  unfold re_search. generalize 0%nat.
  induction a as [|a0 a IH]; intros pos H.
  - now apply re_search_from_none_here in H.
  - cbn [List.app re_search_from] in H.
    destruct (re_match_here (a0 :: a ++ l)) as [[g r]|]; [discriminate|].
    now apply (IH (S pos)).
Qed.

Lemma header_prefix_few_lf (n : nat) (p s : str) :
  header_of n = p ++ s -> s <> [] -> (count_lf p < 2)%nat.
Proof.
  intros E Hs.
  pose proof (count_lf_header n) as Hc. rewrite E, count_lf_app in Hc.
  assert (Hl : (1 <= count_lf s)%nat).
  { rewrite header_ends_lf, (app_removelast_last LF Hs), (app_assoc p) in E.
    apply app_inj_tail in E as [_ E].
    rewrite (app_removelast_last LF Hs), count_lf_app, <- E.
    unfold count_lf at 2. simpl. lia. }
  lia.
Qed.

(** No match in junk followed by the beginning of a header. *)
Lemma re_search_junk_short_header (junk p s : str) (n : nat) :
  re_search junk = None -> header_of n = p ++ s -> s <> [] ->
  re_search (junk ++ p) = None.
Proof.
  intros Hj E Hs. apply re_search_none. intros a b Eab.
  apply app_eq_app in Eab as [l [[E3 E4]|[E3 E4]]].
  - (* the suffix starts in the junk *)
    subst junk b.
    pose proof (re_search_suffix_none _ _ Hj) as Hl.
    destruct l as [|z l].
    + apply re_match_here_few_lf. cbn [List.app].
      now apply (header_prefix_few_lf n p s).
    + destruct p as [|y p]; [now rewrite List.app_nil_r|].
      destruct (re_match_here ((z :: l) ++ y :: p)) as [[g r]|] eqn:Em;
        [|reflexivity].
      exfalso.
      assert (y = 67) as ->.
      { unfold header_of, HEADER in E. cbn [List.app] in E.
        now injection E as <- _. }
      apply re_match_here_stops in Em as [r' Em]; [congruence|discriminate].
  - (* the suffix lies in the beginning of the header *)
    apply re_match_here_few_lf.
    pose proof (header_prefix_few_lf n p s E Hs) as Hc.
    rewrite E4, count_lf_app in Hc. lia.
Qed.

(** Junk followed by the beginning of a frame stays in the buffer. *)
Lemma drain_junk_short (fuel : nat) (junk p s body : str) (queue : list json) :
  re_search junk = None ->
  frame body = p ++ s -> s <> [] ->
  drain (S fuel) (junk ++ p) queue = Some (junk ++ p, queue).
Proof.
  intros Hj E Hs. unfold frame in E.
  apply app_eq_app in E as [l [[E1 E2]|[E1 E2]]].
  - (* the header is not complete *)
    destruct l as [|x l].
    + rewrite List.app_nil_r in E1. subst p. cbn [List.app] in E2. subst s.
      pose proof (drain_junk_short_body fuel junk [] body queue Hj Hs) as H.
      cbn [List.app] in H. now rewrite List.app_nil_r in H.
    + apply drain_no_match.
      apply (re_search_junk_short_header junk p (x :: l) (length body) Hj E1).
      discriminate.
  - (* the header is complete, the body is not *)
    subst p body. now apply drain_junk_short_body.
Qed.

(** ** The reader on junk followed by frames *)

Lemma app_eq_long (a x b y : str) :
  a ++ x = b ++ y -> (length b <= length a)%nat ->
  exists s, a = b ++ s /\ y = s ++ x.
Proof.
  intros E Hl. apply app_eq_app in E as [l [[E1 E2]|[E1 E2]]].
  - now exists l.
  - assert (l = []) as ->
        by (rewrite E1, length_app in Hl; destruct l; [reflexivity|simpl in Hl; lia]).
    exists []. rewrite List.app_nil_r in E1. cbn [List.app] in *. subst.
    now rewrite List.app_nil_r.
Qed.

Lemma app_eq_short (a x b y : str) :
  a ++ x = b ++ y -> (length a < length b)%nat ->
  exists s, s <> [] /\ b = a ++ s /\ x = s ++ y.
Proof.
  intros E Hl. apply app_eq_app in E as [l [[E1 E2]|[E1 E2]]].
  - rewrite E1, length_app in Hl. lia.
  - exists l. repeat split; auto. intros ->.
    rewrite List.app_nil_r in E1. subst. lia.
Qed.

Lemma length_frame_pos (b : str) : (20 < length (frame b))%nat.
Proof.
  unfold frame. rewrite length_app. pose proof (length_header_pos (length b)). lia.
Qed.

(** A buffer that ends before the first frame after the junk is complete
    is left as it is. *)
Lemma drain_junk_prefix (fuel : nat) (junk body buffer x y : str) (queue : list json) :
  re_search junk = None ->
  buffer ++ x = junk ++ frame body ++ y ->
  (length buffer < length (junk ++ frame body))%nat ->
  drain (S fuel) buffer queue = Some (buffer, queue).
Proof.
  intros Hj E Hl.
  destruct (Nat.le_gt_cases (length junk) (length buffer)) as [Hge|Hlt].
  - destruct (app_eq_long _ _ _ _ E Hge) as (p & -> & Ep).
    rewrite !length_app in Hl.
    assert (Hp : (length p < length (frame body))%nat) by lia.
    symmetry in Ep.
    destruct (app_eq_short _ _ _ _ Ep Hp) as (s & Hs & Ef & _).
    now apply (drain_junk_short fuel junk p s body).
  - destruct (app_eq_short _ _ _ _ E Hlt) as (s & _ & -> & _).
    apply drain_no_match. now apply (re_search_prefix _ s).
Qed.

Lemma read_chunks_junk (chunks : list str) :
  Forall (fun c => c <> []) chunks ->
  forall junk b bs buffer queue,
    re_search junk = None ->
    buffer ++ concat chunks = junk ++ concat (map frame (b :: bs)) ->
    (length buffer < length (junk ++ frame b))%nat ->
    read_chunks chunks buffer queue = Some ([], queue ++ decoded (b :: bs)).
Proof.
  induction 1 as [|c chunks Hc Hcs IH]; intros junk b bs buffer queue Hj E Hl.
  - exfalso. cbn [concat map] in E. rewrite List.app_nil_r in E.
    rewrite E, !length_app in Hl. lia.
  - cbn [read_chunks concat] in *. destruct c as [|x c]; [congruence|].
    rewrite app_assoc in E. cbn [map concat] in E.
    destruct (Nat.lt_ge_cases (length (buffer ++ x :: c))
                              (length (junk ++ frame b))) as [Hlt|Hge].
    + (* the first frame is still incomplete *)
      unfold drain_buffer.
      rewrite (drain_junk_prefix _ junk b _ _ _ _ Hj E Hlt).
      cbn [bind fst snd].
      apply (IH junk b bs); auto.
    + (* this chunk completes it *)
      rewrite (app_assoc junk) in E.
      destruct (app_eq_long _ _ _ _ E Hge) as (s & Es & Er).
      symmetry in Er.
      destruct (split_frames bs s (concat chunks) Er)
        as (d' & t' & p & -> & -> & Hp & Hs).
      unfold drain_buffer. rewrite Es, <- app_assoc.
      rewrite drain_junk_frame by exact Hj.
      rewrite drain_frames.
      * cbn [bind fst snd].
        rewrite (read_chunks_frames chunks Hcs t' p _ Hp Hs).
        change (b :: d' ++ t') with ([b] ++ d' ++ t').
        now rewrite !decoded_app, !app_assoc.
      * rewrite !length_app. pose proof (length_frames d').
        pose proof (length_frame_pos b). lia.
      * intros f q. eapply drain_short; eauto.
Qed.

(** Text in which the pattern finds nothing, followed by frames: the reader
    queues the documents of the frames; the text is gone with the first. *)
Lemma read_chunks_junk_frames (junk : str) (bodies : list str) (chunks : list str) :
  re_search junk = None -> bodies <> [] ->
  Forall (fun c => c <> []) chunks ->
  concat chunks = junk ++ concat (map frame bodies) ->
  read_chunks chunks [] [] = Some ([], decoded bodies).
Proof.
  intros Hj Hb Hc E. destruct bodies as [|b bs]; [congruence|].
  apply (read_chunks_junk chunks Hc junk b bs [] [] Hj E).
  rewrite length_app. pose proof (length_frame_pos b). simpl. lia.
Qed.

(** ** The field name is matched as it is spelled *)

Lemma frame_as_field (body : str) : frame_as FIELD_NAME body = frame body.
Proof. unfold frame_as, frame, header_of. now rewrite <- !app_assoc. Qed.

Lemma to_lower_not_C (c k : char) : to_lower c = k -> k <> 99 -> k <> 67 -> c <> 67.
Proof. intros H1 H2 H3 ->. apply H2. rewrite <- H1. reflexivity. Qed.

(** A spelling that differs only in case has fourteen characters and no
    capital C after the first. *)
Lemma same_field_shape (name : str) :
  same_field name = true ->
  length name = 14%nat /\
  exists c t, name = c :: t /\ Forall (fun x => x <> 67) t.
Proof.
  unfold same_field. rewrite str_eqb_eq. intros H.
  assert (Hl : length name = 14%nat).
  { apply (f_equal (@length _)) in H. now rewrite !length_map in H. }
  split; [exact Hl|].
  do 14 (destruct name as [|? name]; [discriminate Hl|]).
  destruct name; [|discriminate Hl].
  eexists; eexists; split; [reflexivity|].
  change (map to_lower FIELD_NAME)
    with [99; 111; 110; 116; 101; 110; 116; 45; 108; 101; 110; 103; 116; 104] in H.
  cbn [map] in H.
  injection H as _ H1 H2 H3 H4 H5 H6 H7 H8 H9 H10 H11 H12 H13.
  repeat constructor;
    (eapply to_lower_not_C; [eassumption|discriminate|discriminate]).
Qed.

Lemma strip_prefix_same_length (p q n r x : str) :
  length p = length n -> strip_prefix (p ++ q) (n ++ r) = Some x -> p = n.
Proof.
  revert n; induction p as [|a p IH]; intros [|b n] Hl H; try discriminate.
  - reflexivity.
  - cbn [List.app strip_prefix] in H. destruct (N.eqb_spec a b); [|discriminate].
    subst. f_equal. apply IH; [simpl in Hl; lia|exact H].
Qed.

Lemma count_lf_suffix (a b : str) : (count_lf b <= count_lf (a ++ b))%nat.
Proof. rewrite count_lf_app. lia. Qed.

(** No match starts inside [h ++ body] when [h] holds no capital C and
    [body] no line feed. *)
Lemma no_match_suffixes (h body : str) :
  Forall (fun x => x <> 67) h -> count_lf body = 0%nat ->
  forall a b, h ++ body = a ++ b -> re_match_here b = None.
Proof.
  induction 1 as [|x h Hx Hh IH]; intros Hb a b E.
  - cbn [List.app] in E. apply re_match_here_few_lf.
    pose proof (count_lf_suffix a b). rewrite <- E in *. lia.
  - destruct a as [|a0 a]; cbn [List.app] in E.
    + subst b. now apply re_match_here_head.
    + injection E as _ E. now apply (IH Hb a b).
Qed.

Lemma digits_not_C (ds : str) :
  forallb is_digit ds = true -> Forall (fun x => x <> 67) ds.
Proof.
  induction ds as [|d ds IH]; cbn [forallb]; intros H; constructor.
  - apply andb_true_iff in H as [H _]. intros ->. discriminate.
  - apply IH. now apply andb_true_iff in H as [_ H].
Qed.

Lemma re_search_other_spelling (name body : str) :
  same_field name = true -> str_eqb name FIELD_NAME = false ->
  all_printable body ->
  re_search (frame_as name body) = None.
Proof.
  intros Hs Hne Hb.
  destruct (same_field_shape name Hs) as (Hl & c & t & -> & Ht).
  apply re_search_none. intros a b E.
  destruct a as [|a0 a].
  - (* at the start of the buffer the name itself would have to match *)
    cbn [List.app] in E. subst b.
    unfold re_match_here, frame_as.
    destruct (strip_prefix HEADER ((c :: t) ++ KEY_SEPARATOR ++ _)) eqn:E1;
      [|reflexivity].
    change HEADER with (FIELD_NAME ++ KEY_SEPARATOR) in E1.
    apply strip_prefix_same_length in E1; [|now rewrite Hl].
    rewrite <- E1, str_eqb_refl in Hne. discriminate.
  - (* further on there is no capital C before the body, no line feed in it *)
    unfold frame_as in E. cbn [List.app] in E. injection E as _ E.
    assert (E' : (t ++ KEY_SEPARATOR ++ str_of_N (N.of_nat (length body))
                    ++ CRLF_CRLF) ++ body = a ++ b)
      by (rewrite <- E, <- !app_assoc; reflexivity).
    refine (no_match_suffixes _ body _ (count_lf_printable _ Hb) a b E').
    repeat (apply Forall_app; split); auto.
    + repeat constructor; discriminate.
    + apply digits_not_C, str_of_N_digits.
    + repeat constructor; discriminate.
Qed.

(** ** The loops of the reader never run out of fuel *)

Lemma match_eol_shorter (s r : str) :
  match_eol s = Some r -> (length r < length s)%nat.
Proof. intros H; apply match_eol_spec in H as [-> | ->]; simpl; lia. Qed.

Lemma re_match_here_shorter (s g r : str) :
  re_match_here s = Some (g, r) -> (length r < length s)%nat.
Proof.
  unfold re_match_here.
  destruct (strip_prefix HEADER s) as [s1|] eqn:E1; [|discriminate].
  cbn [bind]. apply strip_prefix_sound in E1. subst s.
  destruct (span_digits s1) as [ds s2] eqn:E2.
  apply span_digits_spec in E2 as (-> & _ & _).
  destruct ds as [|d ds]; [discriminate|].
  destruct (match_eol s2) as [s3|] eqn:E3; [|discriminate].
  cbn [bind].
  destruct (match_eol s3) as [s4|] eqn:E4; [|discriminate].
  intros H; injection H as _ <-.
  apply match_eol_shorter in E3, E4. rewrite !length_app. lia.
Qed.

Lemma re_search_from_eq (pos : nat) (s : str) :
  re_search_from pos s
  = match re_match_here s with
    | Some (g, rest) => Some (g, (pos + (length s - length rest))%nat)
    | None => match s with
              | [] => None
              | _ :: s' => re_search_from (S pos) s'
              end
    end.
Proof. destruct s; reflexivity. Qed.

(** The end of a match lies behind its start and inside the text. *)
Lemma re_search_from_end (s : str) :
  forall pos g e,
    re_search_from pos s = Some (g, e) -> (pos < e <= pos + length s)%nat.
Proof.
  induction s as [|c s IH]; intros pos g e; rewrite re_search_from_eq.
  - destruct (re_match_here []) as [[g' r]|] eqn:E; [|discriminate].
    apply re_match_here_shorter in E. simpl in E. lia.
  - destruct (re_match_here (c :: s)) as [[g' r]|] eqn:E.
    + intros H.
      assert (He : e = (pos + (length (c :: s) - length r))%nat) by congruence.
      apply re_match_here_shorter in E. lia.
    + intros H. apply IH in H. cbn [length]. lia.
Qed.

Lemma drain_total (fuel : nat) :
  forall buffer queue,
    (length buffer < fuel)%nat ->
    exists st, drain fuel buffer queue = Some st
               /\ (length (fst st) <= length buffer)%nat.
Proof.
  induction fuel as [|fuel IH]; intros buffer queue Hf; [lia|].
  cbn [drain].
  destruct (contains HEADER_KEY buffer); [|now eexists].
  destruct (re_search buffer) as [[g e]|] eqn:Es; [|now eexists].
  destruct (N.of_nat e + int_of_digits g <=? N.of_nat (length buffer));
    [|now eexists].
  apply re_search_from_end in Es.
  assert (Hl : (length (skipn (e + N.to_nat (int_of_digits g)) buffer)
                < length buffer)%nat)
    by (rewrite length_skipn; lia).
  destruct (json_loads _);
    (edestruct IH as (st & Hst & Hlen); [|exists st; split; [exact Hst|]; lia]; lia).
Qed.

Lemma drain_buffer_total (buffer : str) (queue : list json) :
  exists st, drain_buffer buffer queue = Some st.
Proof.
  destruct (drain_total (S (length buffer)) buffer queue) as (st & H & _);
    [lia|now exists st].
Qed.

Lemma read_chunks_total (chunks : list str) :
  forall buffer queue, exists st, read_chunks chunks buffer queue = Some st.
Proof.
  induction chunks as [|c chunks IH]; intros buffer queue; cbn [read_chunks].
  - now eexists.
  - destruct c as [|x c]; [now eexists|].
    destruct (drain_buffer_total (buffer ++ x :: c) queue) as (st & ->).
    cbn [bind]. apply IH.
Qed.

(** [read_responses] gives a result for every stream. *)
Lemma read_responses_total (stdout : str) :
  exists buffer queue, read_responses stdout = Some (buffer, queue).
Proof.
  destruct (read_chunks_total (map (fun c => [c]) stdout) [] []) as ([b q] & H).
  now exists b, q.
Qed.

(** * The statements of the specification: framing *)

Lemma nonempty_chunks (chunks : list str) :
  forallb nonempty chunks = true -> Forall (fun c => c <> []) chunks.
Proof.
  induction chunks as [|c chunks IH]; cbn [forallb]; intros H; constructor.
  - destruct c; [discriminate|discriminate].
  - apply IH. now apply andb_true_iff in H as [_ H].
Qed.

Lemma decoded_dumps (m : json) :
  wf_json m = true -> decoded [json_dumps m] = [m].
Proof. intros H. unfold decoded. cbn [flat_map]. now rewrite json_loads_dumps. Qed.

Lemma read_responses_one_frame (body : str) :
  read_responses (frame body) = Some ([], decoded [body]).
Proof.
  rewrite <- (List.app_nil_r (frame body)).
  change (frame body ++ []) with (concat (map frame [body])).
  apply read_responses_frames.
Qed.




(** C2.  [encode_lsp m] is the text [Content-Length: ], the decimal numeral
    of the number of bytes of the UTF-8 encoding of the body, the four
    characters CR LF CR LF, and the body [json.dumps(m)].  ([len] counts
    characters, but the body is ASCII, so both counts agree.) *)
Theorem encode_lsp_content_length (m : json) :
  encode_lsp m
  = lit "Content-Length: " ++ str_of_N (N.of_nat (utf8_len (json_dumps m)))
      ++ [CR; LF; CR; LF] ++ json_dumps m.
Proof.
  unfold encode_lsp. now rewrite (utf8_len_ascii _ (json_dumps_ascii m)).
Qed.






(** * The statements of the specification: malformed headers *)

(** C6, as the specification states it, fails: a header with a terminator
    and the length [abc] is neither discarded nor reported.  The reader keeps
    it in the buffer and queues nothing; when a well-formed frame follows, the
    header disappears together with that frame and only the message of the
    frame is queued. *)
Lemma malformed_header_kept :
  read_responses MALFORMED = Some (MALFORMED, [])
  /\ read_responses (MALFORMED ++ encode_lsp (JInt 7)) = Some ([], [JInt 7]).
Proof. split; vm_compute; reflexivity. Qed.

(** C6, amended.  When the pattern of the reader finds no match in the text
    received so far (the Content-Length value is no decimal numeral, or the
    field is missing), the reader queues nothing and leaves the text in the
    buffer; there is no error to signal.  The stream continues: as soon as
    complete well-formed frames follow, their messages are queued in order,
    for every chunking of the stream, and the text in front of the first of
    them is dropped with it. *)
Theorem malformed_header_skipped (junk : str) :
  re_search junk = None ->
  read_responses junk = Some (junk, [])
  /\ (forall queue, drain_buffer junk queue = Some (junk, queue))
  /\ (forall m, wf_json m = true ->
        read_responses (junk ++ encode_lsp m) = Some ([], [m]))
  /\ (forall bodies chunks,
        bodies <> [] -> forallb nonempty chunks = true ->
        concat chunks = junk ++ concat (map frame bodies) ->
        read_chunks chunks [] [] = Some ([], decoded bodies)).
Proof.
  intros Hj. repeat split.
  - now apply read_responses_no_match.
  - intros queue. now apply drain_no_match.
  - intros m Hm. unfold read_responses. rewrite <- (decoded_dumps m Hm).
    apply (read_chunks_junk_frames junk [json_dumps m]);
      [exact Hj|discriminate|apply singletons_nonempty|].
    rewrite concat_singletons, encode_lsp_frame. cbn [map concat].
    now rewrite List.app_nil_r.
  - intros bodies chunks Hb Hc E.
    now apply (read_chunks_junk_frames junk bodies chunks Hj Hb (nonempty_chunks _ Hc)).
Qed.

Lemma malformed_header_skipped_witness :
  re_search MALFORMED = None
  /\ read_responses (MALFORMED ++ encode_lsp msg_initialize)
     = Some ([], [msg_initialize]).
Proof.
  split; [reflexivity|].
  apply (malformed_header_skipped MALFORMED); reflexivity.
Defined.

(** C7, as the specification states it, fails: the frame with the header
    spelled [content-length] is not decoded, the same frame with
    [Content-Length] is. *)
Lemma lowercase_header_not_decoded :
  read_responses (frame_as (lit "content-length") (lit "{}"))
  = Some (frame_as (lit "content-length") (lit "{}"), [])
  /\ read_responses (frame_as (lit "Content-Length") (lit "{}"))
     = Some ([], [JObj []]).
Proof. split; vm_compute; reflexivity. Qed.

(** C7, amended.  The field name is matched as it is spelled: for every
    spelling that is Content-Length up to letter case but not the exact one,
    the frame of any message is not decoded (nothing is queued, the frame
    stays in the buffer), whereas the exact spelling is decoded; and a buffer
    without the text [Content-Length:] is never touched. *)
Theorem header_case_sensitive (name : str) (m : json) :
  same_field name = true -> str_eqb name FIELD_NAME = false ->
  wf_json m = true ->
  read_responses (frame_as name (json_dumps m))
  = Some (frame_as name (json_dumps m), [])
  /\ read_responses (frame_as FIELD_NAME (json_dumps m)) = Some ([], [m])
  /\ (forall buffer queue,
        contains HEADER_KEY buffer = false ->
        drain_buffer buffer queue = Some (buffer, queue)).
Proof.
  intros Hs Hne Hm. repeat split.
  - apply read_responses_no_match.
    apply re_search_other_spelling; auto. apply json_dumps_printable.
  - now rewrite frame_as_field, read_responses_one_frame, decoded_dumps.
  - intros buffer queue H. now apply drain_no_key.
Qed.

Lemma header_case_sensitive_witness :
  read_responses (frame_as (lit "CONTENT-LENGTH") (json_dumps msg_initialize))
  = Some (frame_as (lit "CONTENT-LENGTH") (json_dumps msg_initialize), []).
Proof.
  exact (proj1 (header_case_sensitive (lit "CONTENT-LENGTH") msg_initialize
                  eq_refl eq_refl eq_refl)).
Defined.

(** ** wait_for_response *)

Lemma seconds_left_empty (start timeout : N) (w : world) (p : list arrival) :
  now w - start < timeout -> start <= now w ->
  (seconds_left start timeout {| now := now w + 1000; pending := p |}
   < seconds_left start timeout w)%nat.
Proof.
  intros H1 H2. unfold seconds_left. cbn [now].
  set (x := start + timeout - now w).
  assert (Hx : 0 < x) by (unfold x; lia).
  assert (E : start + timeout - (now w + 1000) = x - 1000) by (unfold x; lia).
  rewrite E.
  destruct (N.le_gt_cases x 1000) as [Hle|Hgt].
  - replace (x - 1000) with 0 by lia.
    change ((0 + 999) / 1000) with 0.
    assert (1 <= (x + 999) / 1000).
    { apply N.div_le_lower_bound; lia. }
    lia.
  - replace (x + 999) with ((x - 1000 + 999) + 1 * 1000) by lia.
    rewrite N.div_add by lia. lia.
Qed.

Lemma seconds_left_mono (start timeout : N) (w w' : world) :
  now w <= now w' ->
  (seconds_left start timeout w' <= seconds_left start timeout w)%nat.
Proof.
  intros H. unfold seconds_left.
  assert ((start + timeout - now w' + 999) / 1000
          <= (start + timeout - now w + 999) / 1000)
    by (apply N.Div0.div_le_mono; lia).
  lia.
Qed.

(** What one [get] does to the world. *)
Lemma queue_get_some (t : N) (w w' : world) (r : json) :
  queue_get t w = (Some r, w') ->
  exists a, pending w = a :: pending w' /\ msg a = r /\
            now w <= now w' /\ now w' < N.max (now w + 1) (now w + t) /\
            now w' = N.max (now w) (at_ms a).
Proof.
  unfold queue_get. destruct (pending w) as [|a rest]; [discriminate|].
  destruct (N.leb_spec (at_ms a) (now w)).
  - intros E; injection E as <- <-. exists a. cbn. repeat split; lia.
  - destruct (N.ltb_spec (at_ms a) (now w + t)); [|discriminate].
    intros E; injection E as <- <-. exists a. cbn. repeat split; lia.
Qed.

Lemma queue_get_none (t : N) (w w' : world) :
  queue_get t w = (None, w') ->
  pending w' = pending w /\ now w' = now w + t /\
  match pending w with
  | [] => True
  | a :: _ => now w + t <= at_ms a
  end.
Proof.
  unfold queue_get. destruct (pending w) as [|a rest].
  - intros E; injection E as <-. cbn. auto.
  - destruct (N.leb_spec (at_ms a) (now w)); [discriminate|].
    destruct (N.ltb_spec (at_ms a) (now w + t)); [discriminate|].
    intros E; injection E as <-. cbn. auto.
Qed.

Lemma consumed_by_cons (id : Z) (o : outcome) (a : arrival) (c : list arrival) :
  other_message id a = true -> consumed_by id o c -> consumed_by id o (a :: c).
Proof.
  intros Ha. destruct o as [[r|]|]; cbn [consumed_by].
  - intros (sk & b & -> & H1 & H2 & H3). exists (a :: sk), b.
    repeat split; auto. cbn [forallb]. now rewrite Ha.
  - intros H. cbn [forallb]. now rewrite Ha.
  - intros (sk & b & -> & H1 & H2 & H3). exists (a :: sk), b.
    repeat split; auto. cbn [forallb]. now rewrite Ha.
Qed.

(** The loop always ends, and this is what it has done when it ends. *)
Lemma wait_loop_spec (fuel : nat) (start timeout : N) (id : Z) :
  forall w,
    start <= now w ->
    (length (pending w) + seconds_left start timeout w < fuel)%nat ->
    exists o w' consumed,
      wait_loop fuel start timeout id w = Some (o, w') /\
      pending w = consumed ++ pending w' /\
      consumed_by id o consumed /\
      now w <= now w' /\
      (o = Returned None ->
       start + timeout <= now w' /\
       (now w' = now w \/ now w' < start + timeout + 1000)).
Proof.
  induction fuel as [|fuel IH]; intros w Hs Hf; [lia|].
  cbn [wait_loop].
  destruct (N.ltb_spec (now w - start) timeout) as [Hlt|Hge].
  - destruct (queue_get 1000 w) as [[r|] w1] eqn:Eg.
    + apply queue_get_some in Eg as (a & Ep & Em & Hn1 & Hn2 & _).
      assert (Hrec : exists o w' consumed,
                 wait_loop fuel start timeout id w1 = Some (o, w') /\
                 pending w1 = consumed ++ pending w' /\
                 consumed_by id o consumed /\ now w1 <= now w' /\
                 (o = Returned None ->
                  start + timeout <= now w' /\
                  (now w' = now w1 \/ now w' < start + timeout + 1000))).
      { apply IH; [lia|].
        pose proof (seconds_left_mono start timeout w w1 Hn1).
        rewrite Ep in Hf. cbn [length] in Hf. lia. }
      destruct r as [| | | | |l|kv];
        try (exists Raised, w1, [a]; repeat split;
             [now rewrite Ep | | lia | discriminate | discriminate];
             exists [], a; unfold other_message, wanted_message; rewrite Em;
             repeat split).
      destruct (id_is kv id) eqn:Eid.
      * exists (Returned (Some (JObj kv))), w1, [a].
        repeat split; [now rewrite Ep| |lia|discriminate|discriminate].
        exists [], a. unfold wanted_message. rewrite Em, Eid. repeat split.
      * destruct Hrec as (o & w' & c & Hw & Hp & Hc & Hn & Ht).
        exists o, w', (a :: c). repeat split.
        -- exact Hw.
        -- rewrite Ep, Hp. reflexivity.
        -- apply consumed_by_cons; [|exact Hc].
           unfold other_message. now rewrite Em, Eid.
        -- lia.
        -- now apply Ht.
        -- destruct (Ht H) as [_ [Hx|Hx]]; right; lia.
    + apply queue_get_none in Eg as (Ep & En & _).
      destruct (IH w1) as (o & w' & c & Hw & Hp & Hc & Hn & Ht).
      * lia.
      * pose proof (seconds_left_empty start timeout w (pending w) Hlt Hs) as Hd.
        unfold seconds_left in *. cbn [now] in Hd. rewrite Ep, En. lia.
      * exists o, w', c. repeat split; auto.
        -- now rewrite <- Ep.
        -- lia.
        -- now apply Ht.
        -- destruct (Ht H) as [_ [Hx|Hx]]; right; lia.
  - exists (Returned None), w, []. repeat split; auto; lia.
Qed.

Lemma wait_fuel_enough (timeout : N) (w : world) :
  (length (pending w) + seconds_left (now w) timeout w < wait_fuel timeout w)%nat.
Proof.
  unfold wait_fuel, seconds_left.
  replace (now w + timeout - now w) with timeout by lia. lia.
Qed.

(** [wait_for_response] always ends; when it does, it has taken a run of
    messages off the queue, all but the last of them other messages; a
    [None] comes at the deadline or less than a second after it. *)
Lemma wait_for_response_spec (w : world) (id : Z) (timeout : N) :
  exists o w' consumed,
    wait_for_response w id timeout = Some (o, w') /\
    pending w = consumed ++ pending w' /\
    consumed_by id o consumed /\
    now w <= now w' /\
    (o = Returned None ->
     now w + timeout <= now w' < now w + timeout + 1000).
Proof.
  unfold wait_for_response.
  destruct (wait_loop_spec (wait_fuel timeout w) (now w) timeout id w
              (N.le_refl _) (wait_fuel_enough timeout w))
    as (o & w' & c & Hw & Hp & Hc & Hn & Ht).
  exists o, w', c. repeat split; auto; destruct (Ht H) as [H1 H2]; lia.
Qed.

Lemma wanted_not_other (id : Z) (a : arrival) :
  wanted_message id a = true -> other_message id a = false.
Proof.
  unfold wanted_message, other_message.
  destruct (msg a); try discriminate. now intros ->.
Qed.

Lemma wanted_is_dict (id : Z) (a : arrival) :
  wanted_message id a = true ->
  exists kv, msg a = JObj kv /\ id_is kv id = true.
Proof.
  unfold wanted_message. destruct (msg a); try discriminate.
  intros H. now eexists.
Qed.

Lemma other_is_dict (id : Z) (a : arrival) :
  other_message id a = true ->
  exists kv, msg a = JObj kv /\ id_is kv id = false.
Proof.
  unfold other_message. destruct (msg a); try discriminate.
  intros H. apply negb_true_iff in H. now eexists.
Qed.

(** A wanted message that arrives before the deadline, behind other
    messages only, is returned; the others are gone from the queue. *)
Lemma wait_loop_finds (fuel : nat) (start timeout : N) (id : Z)
      (a : arrival) (rest : list arrival) :
  wanted_message id a = true -> at_ms a < start + timeout ->
  forall w skipped,
    start <= now w -> now w < start + timeout ->
    pending w = skipped ++ a :: rest ->
    forallb (other_message id) skipped = true ->
    (forall x, In x skipped -> at_ms x < start + timeout) ->
    (length (pending w) + seconds_left start timeout w < fuel)%nat ->
    exists w', wait_loop fuel start timeout id w = Some (Returned (Some (msg a)), w')
               /\ pending w' = rest /\ now w' < start + timeout.
Proof.
  intros Ha Hta.
  induction fuel as [|fuel IH]; intros w skipped Hs Hn Hp Hsk Ht Hf; [lia|].
  cbn [wait_loop].
  destruct (N.ltb_spec (now w - start) timeout) as [Hlt|Hge]; [|lia].
  destruct (queue_get 1000 w) as [[r|] w1] eqn:Eg.
  - apply queue_get_some in Eg as (x & Ep & Em & Hn1 & _ & Hn3).
    destruct skipped as [|y skipped]; cbn [List.app] in Hp.
    + rewrite Hp in Ep. injection Ep as <- Ep.
      destruct (wanted_is_dict id a Ha) as (kv & Ekv & Eid).
      rewrite <- Em, Ekv, Eid. exists w1. repeat split; [now symmetry|lia].
    + rewrite Hp in Ep. injection Ep as <- Ep.
      cbn [forallb] in Hsk. apply andb_true_iff in Hsk as [Hy Hsk].
      destruct (other_is_dict id y Hy) as (kv & Ekv & Eid).
      rewrite <- Em, Ekv, Eid.
      assert (at_ms y < start + timeout) by (apply Ht; now left).
      apply (IH w1 skipped);
        [lia | lia | now rewrite <- Ep | exact Hsk
         | intros z Hz; apply Ht; now right | ].
      pose proof (seconds_left_mono start timeout w w1 Hn1).
      rewrite Hp in Hf. rewrite <- Ep. cbn [length] in Hf. lia.
  - apply queue_get_none in Eg as (Ep & En & Hh).
    assert (now w1 < start + timeout).
    { rewrite Hp in Hh. destruct skipped as [|y skipped]; cbn [List.app] in Hh.
      - lia.
      - assert (at_ms y < start + timeout) by (apply Ht; now left). lia. }
    apply (IH w1 skipped);
      [lia | lia | now rewrite Ep | exact Hsk | exact Ht | ].
    pose proof (seconds_left_empty start timeout w (pending w) Hlt Hs) as Hd.
    unfold seconds_left in *. cbn [now] in Hd. rewrite Ep, En. lia.
Qed.

Lemma wait_for_response_finds (w : world) (id : Z) (timeout : N)
      (skipped : list arrival) (a : arrival) (rest : list arrival) :
  pending w = skipped ++ a :: rest ->
  forallb (other_message id) skipped = true ->
  wanted_message id a = true ->
  0 < timeout ->
  (forall x, In x (skipped ++ [a]) -> at_ms x < now w + timeout) ->
  exists w', wait_for_response w id timeout = Some (Returned (Some (msg a)), w')
             /\ pending w' = rest /\ now w' < now w + timeout.
Proof.
  intros Hp Hsk Ha Ht Hx. unfold wait_for_response.
  apply (wait_loop_finds _ _ _ _ a rest Ha) with (skipped := skipped); auto.
  - apply Hx, in_or_app. right. now left.
  - lia.
  - lia.
  - intros x Hin. apply Hx, in_or_app. now left.
  - apply wait_fuel_enough.
Qed.

(** The variant that prints does the same to the queue. *)
Lemma wait_loop_ws_same (fuel : nat) (start timeout : N) (id : Z) :
  forall w printed o w',
    wait_loop fuel start timeout id w = Some (o, w') ->
    exists p, wait_loop_ws fuel start timeout id w printed = Some (o, w', p).
Proof.
  induction fuel as [|fuel IH]; intros w printed o w'; [discriminate|].
  cbn [wait_loop wait_loop_ws].
  destruct (now w - start <? timeout).
  - destruct (queue_get 1000 w) as [[r|] w1].
    + destruct r as [| | | | |l|kv];
        try (intros H; injection H as <- <-; now eexists).
      destruct (id_is kv id).
      * intros H; injection H as <- <-; now eexists.
      * destruct (dict_get METHOD kv); apply IH.
    + apply IH.
  - intros H; injection H as <- <-; now eexists.
Qed.

(** When the loop gives up, nothing that came before the deadline is left
    at the head of the queue: either the last message it took came at the
    deadline or later, or the next message does. *)
Lemma wait_loop_none_left (fuel : nat) (start timeout : N) (id : Z) :
  forall w w',
    wait_loop fuel start timeout id w = Some (Returned None, w') ->
    now w < start + timeout -> start <= now w ->
    (exists c y, pending w = c ++ y :: pending w' /\ start + timeout <= at_ms y)
    \/ match pending w' with
       | [] => True
       | x :: _ => start + timeout <= at_ms x
       end.
Proof.
  induction fuel as [|fuel IH]; intros w w' H Hlt Hs; [discriminate|].
  cbn [wait_loop] in H.
  destruct (N.ltb_spec (now w - start) timeout) as [_|Hge]; [|lia].
  destruct (queue_get 1000 w) as [[r|] w1] eqn:Eg.
  - apply queue_get_some in Eg as (a & Ep & Em & Hn1 & _ & Hn3).
    destruct r as [| | | | |l|kv]; try discriminate.
    destruct (id_is kv id); [discriminate|].
    destruct (N.lt_ge_cases (now w1) (start + timeout)) as [Hin|Hout].
    + destruct (IH w1 w' H Hin) as [(c & y & Hc & Hy)|Hx]; [lia| |].
      * left. exists (a :: c), y. split; [|exact Hy].
        rewrite Ep, Hc. reflexivity.
      * now right.
    + destruct fuel as [|fuel]; [discriminate|]. cbn [wait_loop] in H.
      destruct (N.ltb_spec (now w1 - start) timeout) as [Hc|_]; [lia|].
      injection H as <-. left. exists [], a. split; [exact Ep|lia].
  - apply queue_get_none in Eg as (Ep & En & Hh).
    destruct (N.lt_ge_cases (now w1) (start + timeout)) as [Hin|Hout].
    + rewrite <- Ep. apply (IH w1 w' H Hin). lia.
    + destruct fuel as [|fuel]; [discriminate|]. cbn [wait_loop] in H.
      destruct (N.ltb_spec (now w1 - start) timeout) as [Hc|_]; [lia|].
      injection H as <-. right. rewrite Ep.
      destruct (pending w) as [|x rest]; [exact I|lia].
Qed.

(** A call that returns [None] has taken every message that came before
    the deadline off the queue. *)
Lemma wait_none_takes_all (w w' : world) (id : Z) (timeout : N)
      (consumed queued later : list arrival) :
  wait_for_response w id timeout = Some (Returned None, w') ->
  pending w = consumed ++ pending w' ->
  0 < timeout ->
  pending w = queued ++ later ->
  forallb (fun x => at_ms x <? now w + timeout) queued = true ->
  exists more, consumed = queued ++ more.
Proof.
  intros Hw Hp Ht Hq Hin.
  assert (Hall : forall x, In x queued -> at_ms x < now w + timeout).
  { intros x Hx. apply N.ltb_lt.
    now apply (proj1 (forallb_forall _ queued) Hin). }
  rewrite Hp in Hq. apply app_eq_app in Hq as (l & [[E1 E2]|[E1 E2]]).
  - now exists l.
  - destruct l as [|x l].
    + exists []. rewrite E1, !List.app_nil_r. reflexivity.
    + exfalso.
      destruct (wait_loop_none_left _ _ _ _ w w' Hw) as [(c & y & Hc & Hy)|Hx].
      * lia.
      * lia.
      * rewrite Hp in Hc.
        change (c ++ y :: pending w') with (c ++ [y] ++ pending w') in Hc.
        rewrite app_assoc in Hc. apply app_inv_tail in Hc.
        assert (at_ms y < now w + timeout).
        { apply Hall. rewrite E1, Hc. apply in_or_app. left.
          apply in_or_app. right. now left. }
        lia.
      * rewrite E2 in Hx. cbn [List.app] in Hx.
        assert (at_ms x < now w + timeout).
        { apply Hall. rewrite E1. apply in_or_app. right. now left. }
        lia.
Qed.

(** * The statements of the specification: waiting for responses *)

Lemma response_wanted (id : Z) (result : json) (t : N) :
  wanted_message id {| at_ms := t; msg := response id result |} = true.
Proof. unfold wanted_message, response, id_is. cbn. apply Z.eqb_refl. Qed.

Lemma response_other (id id' : Z) (result : json) (t : N) :
  id' <> id ->
  other_message id {| at_ms := t; msg := response id' result |} = true.
Proof.
  intros H. unfold other_message, response, id_is. cbn.
  apply negb_true_iff. now apply Z.eqb_neq.
Qed.

(** C3, as the specification states it, fails: with requests 1 and 2 out and
    the responses arriving 2 then 1, the waiter for 1 gets its response, but
    the response to 2 is taken off the queue and thrown away on the way, and
    the waiter for 2 that comes next gets [None] after its ten seconds. *)
Lemma out_of_order_loses_response :
  wait_for_response out_of_order 1 30000
  = Some (Returned (Some (response 1 (JStr (lit "one")))),
          {| now := 20; pending := [] |})
  /\ wait_for_response {| now := 20; pending := [] |} 2 10000
     = Some (Returned None, {| now := 10020; pending := [] |}).
Proof. split; vm_compute; reflexivity. Qed.

(** C3, amended.  Matching is by id: a message that [wait_for_response]
    returns carries the awaited id.  But the order of arrival matters.  With
    requests 1 and 2 out and a waiter for 1 followed by a waiter for 2: when
    the responses arrive in that order, each waiter gets its own; when they
    arrive 2 then 1 (both before the first deadline), the waiter for 1 gets
    the response to 1, the response to 2 is consumed meanwhile, and the
    waiter for 2 gets [None]. *)
Theorem responses_matched_by_id (r1 r2 : json) (t0 ta tb T1 T2 : N) :
  ta < t0 + T1 -> tb < t0 + T1 -> 0 < T1 -> 0 < T2 ->
  (forall w id T r w',
      wait_for_response w id T = Some (Returned (Some r), w') ->
      exists kv, r = JObj kv /\ id_is kv id = true)
  /\ (exists w1 w2,
        wait_for_response
          {| now := t0;
             pending := [ {| at_ms := ta; msg := response 2 r2 |};
                          {| at_ms := tb; msg := response 1 r1 |} ] |} 1 T1
        = Some (Returned (Some (response 1 r1)), w1)
        /\ pending w1 = []
        /\ wait_for_response w1 2 T2 = Some (Returned None, w2))
  /\ (exists w1 w2,
        wait_for_response
          {| now := t0;
             pending := [ {| at_ms := ta; msg := response 1 r1 |};
                          {| at_ms := tb; msg := response 2 r2 |} ] |} 1 T1
        = Some (Returned (Some (response 1 r1)), w1)
        /\ wait_for_response w1 2 (T1 + T2)
           = Some (Returned (Some (response 2 r2)), w2)).
Proof.
  intros Ha Hb HT1 HT2.
  split; [|split].
  - intros w id T r w' H.
    destruct (wait_for_response_spec w id T) as (o & w'' & c & Hw & _ & Hc & _).
    rewrite H in Hw. injection Hw as <- _.
    destruct Hc as (sk & a & _ & <- & Hwant & _).
    now apply wanted_is_dict.
  - destruct (wait_for_response_finds
                {| now := t0;
                   pending := [ {| at_ms := ta; msg := response 2 r2 |};
                                {| at_ms := tb; msg := response 1 r1 |} ] |}
                1 T1 [ {| at_ms := ta; msg := response 2 r2 |} ]
                {| at_ms := tb; msg := response 1 r1 |} [])
      as (w1 & Hw1 & Hp1 & _).
    + reflexivity.
    + cbn [forallb]. rewrite response_other by discriminate. reflexivity.
    + apply response_wanted.
    + exact HT1.
    + intros x [<-|[<-|[]]]; cbn; lia.
    + destruct (wait_for_response_spec w1 2 T2)
        as (o & w2 & c & Hw2 & Hp2 & Hc & _).
      exists w1, w2. repeat split; auto.
      rewrite Hp1 in Hp2. symmetry in Hp2. apply app_eq_nil in Hp2 as [-> _].
      destruct o as [[r|]|]; [| exact Hw2 |];
        destruct Hc as (sk & a & Hc & _); now destruct sk.
  - destruct (wait_for_response_finds
                {| now := t0;
                   pending := [ {| at_ms := ta; msg := response 1 r1 |};
                                {| at_ms := tb; msg := response 2 r2 |} ] |}
                1 T1 [] {| at_ms := ta; msg := response 1 r1 |}
                [ {| at_ms := tb; msg := response 2 r2 |} ])
      as (w1 & Hw1 & Hp1 & Hn1).
    + reflexivity.
    + reflexivity.
    + apply response_wanted.
    + exact HT1.
    + intros x [<-|[]]; cbn; lia.
    + destruct (wait_for_response_spec
                  {| now := t0;
                     pending := [ {| at_ms := ta; msg := response 1 r1 |};
                                  {| at_ms := tb; msg := response 2 r2 |} ] |}
                  1 T1) as (o & w1' & c & Hw1' & _ & _ & Hle & _).
      rewrite Hw1 in Hw1'. injection Hw1' as _ <-. cbn [now] in Hle.
      destruct (wait_for_response_finds w1 2 (T1 + T2) []
                  {| at_ms := tb; msg := response 2 r2 |} [])
        as (w2 & Hw2 & _).
      * exact Hp1.
      * reflexivity.
      * apply response_wanted.
      * lia.
      * intros x [<-|[]]; cbn; lia.
      * now exists w1, w2.
Qed.

Lemma responses_matched_by_id_witness :
  exists w1 w2,
    wait_for_response
      {| now := 0;
         pending := [ {| at_ms := 10; msg := response 2 JNull |};
                      {| at_ms := 20; msg := response 1 JNull |} ] |} 1 30000
    = Some (Returned (Some (response 1 JNull)), w1)
    /\ pending w1 = []
    /\ wait_for_response w1 2 10000 = Some (Returned None, w2).
Proof.
  exact (proj1 (proj2 (responses_matched_by_id JNull JNull 0 10 20 30000 10000
                         eq_refl eq_refl eq_refl eq_refl))).
Defined.

(** C8.  Time-out: when no message with the awaited id ever comes (every
    message the reader puts on the queue is a dict with another id or none),
    [wait_for_response] returns [None], no earlier than the deadline and
    less than a second (the time of one [get]) after it. *)
Theorem wait_times_out (w : world) (id : Z) (timeout : N) :
  forallb (other_message id) (pending w) = true ->
  exists w',
    wait_for_response w id timeout = Some (Returned None, w')
    /\ now w + timeout <= now w' < now w + timeout + 1000.
Proof.
  intros Hall.
  destruct (wait_for_response_spec w id timeout)
    as (o & w' & c & Hw & Hp & Hc & _ & Ht).
  rewrite Hp, forallb_app in Hall. apply andb_true_iff in Hall as [Hall _].
  destruct o as [[r|]|].
  - destruct Hc as (sk & a & -> & _ & Hwant & _).
    rewrite forallb_app in Hall. cbn [forallb] in Hall.
    rewrite (wanted_not_other _ _ Hwant) in Hall.
    rewrite andb_false_r in Hall. discriminate.
  - exists w'. split; [exact Hw|]. now apply Ht.
  - destruct Hc as (sk & a & -> & Hoth & _).
    rewrite forallb_app in Hall. cbn [forallb] in Hall.
    rewrite Hoth, andb_false_r in Hall. discriminate.
Qed.

Lemma wait_times_out_witness :
  exists w',
    wait_for_response never_answers 7 50 = Some (Returned None, w')
    /\ now never_answers + 50 <= now w' < now never_answers + 50 + 1000.
Proof. exact (wait_times_out never_answers 7 50 eq_refl). Defined.

(** C10.  [wait_for_response] always ends, and when it ends it has taken a
    run of messages off the queue: every one of them but the returned one is
    a message with another id (or none), and none of them is on the queue
    any more; what a later waiter is given comes from behind them.  The run
    is all there was to take: a call that returns a message has taken
    everything up to the first message with the awaited id, and a call that
    gives up has taken every message that came before its deadline.  The
    variant of test_workspace.py, which prints, does the same. *)
Theorem wait_consumes_other_messages (w : world) (id : Z) (timeout : N) :
  exists o w' consumed,
    wait_for_response w id timeout = Some (o, w')
    /\ pending w = consumed ++ pending w'
    /\ consumed_by id o consumed
    /\ (exists printed,
          wait_for_response_ws w id timeout = Some (o, w', printed))
    /\ (forall id' timeout' r w'',
          wait_for_response w' id' timeout' = Some (Returned (Some r), w'') ->
          exists between a,
            pending w = consumed ++ between ++ a :: pending w'' /\ msg a = r)
    /\ (o = Returned None -> 0 < timeout ->
        forall queued later,
          pending w = queued ++ later ->
          forallb (fun x => at_ms x <? now w + timeout) queued = true ->
          exists more, consumed = queued ++ more).
Proof.
  destruct (wait_for_response_spec w id timeout)
    as (o & w' & c & Hw & Hp & Hc & _).
  exists o, w', c. repeat split; auto.
  - unfold wait_for_response_ws. now apply wait_loop_ws_same.
  - intros id' timeout' r w'' H.
    destruct (wait_for_response_spec w' id' timeout')
      as (o' & w3 & c' & Hw' & Hp' & Hc' & _).
    rewrite H in Hw'. injection Hw' as <- <-.
    destruct Hc' as (sk & a & -> & Ha & _).
    exists sk, a. split; [|exact Ha].
    rewrite Hp, Hp', <- app_assoc. reflexivity.
  - intros -> Ht queued later Hq Hin.
    now apply (wait_none_takes_all w w' id timeout c queued later).
Qed.

(** * The statements of the specification: the timing harness *)

Lemma valid_times_map_Ms (l : list Q) : valid_times (map Ms l) = l.
Proof. induction l as [|t l IH]; cbn [map valid_times]; congruence. Qed.

Lemma print_line_depends_on_valid (op : string) (times times' : list sample) :
  valid_times times' = valid_times times ->
  print_line op times' = print_line op times.
Proof. intros H. unfold print_line. now rewrite H. Qed.

(** C9, as the specification states it, fails: the line printed for an
    operation does not tell how many of its trials failed.  One answered
    trial and two timed-out ones print the same line as one answered trial
    alone, so no reading of the line gives the number of failures. *)
Lemma failures_not_reported :
  ~ exists count : report -> nat,
      forall times, count (print_line "hover" times) = failed times.
Proof.
  intros [count H].
  pose proof (H [Ms (10 # 1); Inf; Inf]) as H1.
  pose proof (H [Ms (10 # 1)]) as H2.
  change (print_line "hover" [Ms (10 # 1); Inf; Inf])
    with (print_line "hover" [Ms (10 # 1)]) in H1.
  rewrite H2 in H1. discriminate.
Qed.

(** C9, amended.  For each operation the reduction leaves the timed-out
    samples out and prints the mean, the minimum and the maximum of the
    samples that are left, or TIMEOUT/ERROR when none is left.  The number
    of failed trials is not printed: lists of samples that differ only in
    their timed-out samples print the same line. *)
Theorem print_line_survivors_only (op : string) (times : list sample) :
  print_line op times = print_line op (map Ms (valid_times times))
  /\ match valid_times times with
     | [] => print_line op times = TimeoutError op
     | t :: rest =>
         print_line op times
         = Stats op (Qdiv (py_sum (t :: rest))
                          (inject_Z (Z.of_nat (length (t :: rest)))))
                 (py_min t rest) (py_max t rest)
     end
  /\ print_line op (Inf :: times) = print_line op times
  /\ print_line op (times ++ [Inf]) = print_line op times.
Proof.
  split; [|split; [|split]].
  - symmetry. apply print_line_depends_on_valid. apply valid_times_map_Ms.
  - unfold print_line. now destruct (valid_times times).
  - now apply print_line_depends_on_valid.
  - apply print_line_depends_on_valid.
    induction times as [|[t|] times IH]; cbn [List.app valid_times]; congruence.
Qed.

(** ** More about the reader: streams of frames, incomplete frames, other
    headers *)

(** The stream ends inside a frame: the frames before are decoded and the
    incomplete one stays in the buffer. *)
Lemma read_chunks_frames_tail (chunks : list str) :
  Forall (fun c => c <> []) chunks ->
  forall todo buffer queue b p s,
    frame b = p ++ s -> s <> [] ->
    buffer ++ concat chunks = concat (map frame todo) ++ p ->
    short_of buffer (todo ++ [b]) ->
    read_chunks chunks buffer queue = Some (p, queue ++ decoded todo).
Proof.
  induction 1 as [|c chunks Hc Hcs IH]; intros todo buffer queue b p s Eb Hs E Hsh.
  - cbn [concat] in E. rewrite List.app_nil_r in E.
    destruct todo as [|b0 todo].
    + cbn [map concat List.app] in E. subst buffer. unfold decoded. simpl.
      now rewrite List.app_nil_r.
    + exfalso. cbn [List.app short_of] in Hsh. rewrite E in Hsh.
      cbn [map concat] in Hsh. rewrite <- app_assoc, length_app in Hsh. lia.
  - cbn [read_chunks concat] in *.
    destruct c as [|x c]; [congruence|].
    assert (E' : (buffer ++ x :: c) ++ (concat chunks ++ s)
                 = concat (map frame (todo ++ [b]))).
    { rewrite map_app, concat_app. cbn [map concat]. rewrite List.app_nil_r, Eb.
      rewrite (app_assoc (concat (map frame todo))), <- E.
      now rewrite <- !app_assoc. }
    destruct (drain_buffer_frames _ _ _ queue E')
      as (d' & t' & p1 & Ht & Hp & Hs' & Hd).
    rewrite Hd. cbn [bind fst snd].
    destruct t' as [|b1 t1].
    { exfalso. cbn [short_of] in Hs'. subst p1. cbn [map concat List.app] in Hp.
      apply app_eq_nil in Hp as [_ Hp]. contradiction. }
    destruct (exists_last (l := b1 :: t1)) as (t2 & b2 & Et); [discriminate|].
    rewrite Et in *. rewrite app_assoc in Ht.
    apply app_inj_tail in Ht as [-> <-].
    rewrite (IH t2 p1 _ b p s Eb Hs).
    + now rewrite decoded_app, app_assoc.
    + rewrite map_app, concat_app in Hp. cbn [map concat] in Hp.
      rewrite List.app_nil_r, Eb in Hp.
      rewrite !app_assoc in Hp. now apply app_inv_tail in Hp.
    + exact Hs'.
Qed.

(** When no proper prefix of the stream gives the inner loop anything to
    do, reading it in chunks is the inner loop run once on all of it. *)
Lemma read_chunks_one_shot (chunks : list str) :
  Forall (fun c => c <> []) chunks ->
  forall buffer queue,
    chunks <> [] ->
    (forall p r, buffer ++ concat chunks = p ++ r -> r <> [] ->
                 (length buffer < length p)%nat -> settled p) ->
    read_chunks chunks buffer queue
    = drain_buffer (buffer ++ concat chunks) queue.
Proof.
  induction 1 as [|c chunks Hc Hcs IH]; intros buffer queue Hne Hst; [now elim Hne|].
  cbn [read_chunks concat].
  destruct c as [|x c]; [congruence|].
  destruct chunks as [|c' chunks].
  - cbn [concat]. rewrite List.app_nil_r.
    destruct (drain_buffer (buffer ++ x :: c) queue) as [[b q]|]; reflexivity.
  - assert (Hp : settled (buffer ++ x :: c)).
    { apply (Hst _ (concat (c' :: chunks))).
      - cbn [concat]. now rewrite <- app_assoc.
      - inversion Hcs as [|? ? Hc' _]; subst. cbn [concat].
        destruct c'; [congruence|discriminate].
      - rewrite length_app. cbn [length]. lia. }
    unfold drain_buffer at 1. rewrite Hp. cbn [bind fst snd].
    rewrite IH; [|discriminate|].
    + now rewrite <- app_assoc.
    + intros p r E Hr Hl. apply (Hst p r); auto.
      * cbn [concat]. rewrite <- E. now rewrite <- app_assoc.
      * rewrite length_app in Hl. lia.
Qed.

Lemma read_responses_one_shot (s : str) :
  s <> [] ->
  (forall p r, s = p ++ r -> r <> [] -> p <> [] -> settled p) ->
  read_responses s = drain_buffer s [].
Proof.
  intros Hs Hst. unfold read_responses.
  rewrite read_chunks_one_shot.
  - cbn [List.app]. now rewrite concat_singletons.
  - apply singletons_nonempty.
  - destruct s; [congruence|discriminate].
  - cbn [List.app]. rewrite concat_singletons. intros p r E Hr Hl.
    apply (Hst p r); auto. destruct p; [simpl in Hl; lia|discriminate].
Qed.

(** *** Headers the pattern accepts besides the one [encode_lsp] writes *)

Lemma is_eol_spec (e : str) : is_eol e = true -> e = [LF] \/ e = [CR; LF].
Proof.
  unfold is_eol. intros H. apply orb_true_iff in H as [H|H];
    apply str_eqb_eq in H; auto.
Qed.

Lemma match_eol_is_eol (e tail : str) :
  is_eol e = true -> match_eol (e ++ tail) = Some tail.
Proof. intros H. apply is_eol_spec in H as [-> | ->]; reflexivity. Qed.

Lemma is_eol_no_digit (e tail : str) :
  is_eol e = true -> no_digit_ahead (e ++ tail).
Proof. intros H. apply is_eol_spec in H as [-> | ->]; reflexivity. Qed.

Lemma count_lf_eol (e : str) : is_eol e = true -> count_lf e = 1%nat.
Proof. intros H. apply is_eol_spec in H as [-> | ->]; reflexivity. Qed.

Lemma re_match_here_with (ds e1 e2 tail : str) :
  ds <> [] -> forallb is_digit ds = true ->
  is_eol e1 = true -> is_eol e2 = true ->
  re_match_here (frame_with ds e1 e2 tail) = Some (ds, tail).
Proof.
  intros Hne Hd H1 H2. unfold re_match_here, frame_with.
  rewrite strip_prefix_app. cbn [bind].
  rewrite (span_digits_app ds _ Hd (is_eol_no_digit e1 _ H1)).
  destruct ds as [|d ds]; [congruence|].
  rewrite (match_eol_is_eol e1 _ H1). cbn [bind].
  now rewrite (match_eol_is_eol e2 _ H2).
Qed.

Lemma length_frame_with (ds e1 e2 tail : str) :
  length (frame_with ds e1 e2 tail)
  = (length (HEADER ++ ds ++ e1 ++ e2) + length tail)%nat.
Proof. unfold frame_with. rewrite !length_app. lia. Qed.

Lemma re_search_with (ds e1 e2 tail : str) :
  ds <> [] -> forallb is_digit ds = true ->
  is_eol e1 = true -> is_eol e2 = true ->
  re_search (frame_with ds e1 e2 tail)
  = Some (ds, length (HEADER ++ ds ++ e1 ++ e2)).
Proof.
  intros Hne Hd H1 H2. unfold re_search. rewrite re_search_from_eq.
  rewrite (re_match_here_with ds e1 e2 tail Hne Hd H1 H2).
  rewrite length_frame_with. do 2 f_equal. lia.
Qed.

Lemma contains_frame_with (ds e1 e2 tail : str) :
  contains HEADER_KEY (frame_with ds e1 e2 tail) = true.
Proof.
  unfold frame_with.
  change HEADER with (HEADER_KEY ++ [32]). rewrite <- app_assoc.
  apply contains_prefix.
Qed.

(** A buffer that ends before the header does holds no match. *)
Lemma settled_short_header_with (ds e1 e2 p s : str) :
  forallb is_digit ds = true -> is_eol e1 = true -> is_eol e2 = true ->
  HEADER ++ ds ++ e1 ++ e2 = p ++ s -> s <> [] -> settled p.
Proof.
  intros Hd H1 H2 E Hs fuel queue.
  apply drain_no_match.
  destruct (re_search p) as [r|] eqn:Er; [|reflexivity].
  apply re_search_from_lf in Er. exfalso.
  assert (Hc : count_lf (p ++ s) = 2%nat).
  { rewrite <- E, !count_lf_app, (count_lf_digits _ Hd),
      (count_lf_eol _ H1), (count_lf_eol _ H2). reflexivity. }
  rewrite count_lf_app in Hc.
  assert (Hl : (1 <= count_lf s)%nat).
  { assert (E2 : exists h, HEADER ++ ds ++ e1 ++ e2 = h ++ [LF]).
    { apply is_eol_spec in H2 as [-> | ->].
      - exists (HEADER ++ ds ++ e1). now rewrite <- !app_assoc.
      - exists (HEADER ++ ds ++ e1 ++ [CR]). now rewrite <- !app_assoc. }
    destruct E2 as [h E2]. rewrite E2 in E.
    rewrite (app_removelast_last LF Hs), (app_assoc p) in E.
    apply app_inj_tail in E as [_ E].
    rewrite (app_removelast_last LF Hs), count_lf_app, <- E.
    unfold count_lf at 2. simpl. lia. }
  lia.
Qed.

(** A buffer with the whole header and less of the body than it announces. *)
Lemma settled_short_body_with (ds e1 e2 b1 : str) :
  ds <> [] -> forallb is_digit ds = true ->
  is_eol e1 = true -> is_eol e2 = true ->
  N.of_nat (length b1) < int_of_digits ds ->
  settled (frame_with ds e1 e2 b1).
Proof.
  intros Hne Hd H1 H2 Hlt fuel queue. cbn [drain].
  rewrite contains_frame_with, (re_search_with ds e1 e2 b1 Hne Hd H1 H2).
  replace (N.of_nat (length (HEADER ++ ds ++ e1 ++ e2)) + int_of_digits ds
           <=? N.of_nat (length (frame_with ds e1 e2 b1)))
    with false; [reflexivity|].
  symmetry. apply N.leb_gt. rewrite length_frame_with. lia.
Qed.

Lemma settled_nil : settled [].
Proof. intros fuel queue. reflexivity. Qed.

Lemma drain_frame_with (fuel : nat) (ds e1 e2 body : str) (queue : list json) :
  ds <> [] -> forallb is_digit ds = true ->
  is_eol e1 = true -> is_eol e2 = true ->
  int_of_digits ds = N.of_nat (length body) ->
  drain (S (S fuel)) (frame_with ds e1 e2 body) queue
  = Some ([], queue ++ decoded [body]).
Proof.
  intros Hne Hd H1 H2 Hlen.
  set (h := HEADER ++ ds ++ e1 ++ e2).
  assert (Ef : frame_with ds e1 e2 body = h ++ body)
    by (unfold frame_with, h; now rewrite <- !app_assoc).
  cbn [drain].
  rewrite contains_frame_with, (re_search_with ds e1 e2 body Hne Hd H1 H2).
  fold h. rewrite Hlen, Nat2N.id.
  replace (N.of_nat (length h) + N.of_nat (length body)
           <=? N.of_nat (length (frame_with ds e1 e2 body))) with true
    by (symmetry; apply N.leb_le; rewrite Ef, length_app; lia).
  rewrite Ef.
  replace (skipn (length h + length body) (h ++ body)) with (@nil char)
    by (symmetry; apply skipn_all2; rewrite length_app; lia).
  rewrite skipn_exact.
  replace (firstn (length body) body) with body by (symmetry; apply firstn_all).
  unfold decoded. cbn [flat_map]. rewrite List.app_nil_r.
  destruct (json_loads body); cbn [contains strip_prefix HEADER_KEY];
    [reflexivity|now rewrite List.app_nil_r].
Qed.

Lemma nonempty_true (s : str) : nonempty s = true -> s <> [].
Proof. destruct s; [discriminate|discriminate]. Qed.

Lemma read_responses_frame_with (ds e1 e2 body : str) :
  ds <> [] -> forallb is_digit ds = true ->
  is_eol e1 = true -> is_eol e2 = true ->
  int_of_digits ds = N.of_nat (length body) ->
  read_responses (frame_with ds e1 e2 body) = Some ([], decoded [body]).
Proof.
  intros Hne Hd H1 H2 Hlen.
  set (h := HEADER ++ ds ++ e1 ++ e2).
  assert (Ef : frame_with ds e1 e2 body = h ++ body)
    by (unfold frame_with, h; now rewrite <- !app_assoc).
  rewrite read_responses_one_shot.
  - unfold drain_buffer.
    destruct (length (frame_with ds e1 e2 body)) as [|n] eqn:El.
    + exfalso. rewrite length_frame_with in El. rewrite length_app in El.
      cbn in El. lia.
    + rewrite (drain_frame_with n ds e1 e2 body [] Hne Hd H1 H2 Hlen).
      reflexivity.
  - unfold frame_with. discriminate.
  - intros p r E Hr _. rewrite Ef in E. symmetry in E.
    destruct (Nat.lt_ge_cases (length p) (length h)) as [Hlt|Hge].
    + destruct (app_eq_short _ _ _ _ E Hlt) as (s & Hs & Eh & _).
      exact (settled_short_header_with ds e1 e2 p s Hd H1 H2 Eh Hs).
    + destruct (app_eq_long _ _ _ _ E Hge) as (s & -> & Eb).
      replace (h ++ s) with (frame_with ds e1 e2 s)
        by (unfold frame_with, h; now rewrite <- !app_assoc).
      apply settled_short_body_with; auto.
      rewrite Hlen, Eb, length_app.
      destruct r; [congruence|cbn [length]; lia].
Qed.

Lemma utf8_width_pos (c : char) : (1 <= utf8_width c)%nat.
Proof. unfold utf8_width. repeat destruct (_ <? _); lia. Qed.

Lemma utf8_len_cons (c : char) (s : str) :
  utf8_len (c :: s) = (utf8_width c + utf8_len s)%nat.
Proof. reflexivity. Qed.

Lemma utf8_len_ge (s : str) : (length s <= utf8_len s)%nat.
Proof.
  induction s as [|c s IH]; [reflexivity|].
  rewrite utf8_len_cons. cbn [length].
  pose proof (utf8_width_pos c). lia.
Qed.

Lemma utf8_len_gt (s : str) :
  forallb is_ascii s = false -> (length s < utf8_len s)%nat.
Proof.
  induction s as [|c s IH]; [discriminate|].
  cbn [forallb]. intros H. rewrite utf8_len_cons. cbn [length].
  destruct (is_ascii c) eqn:Ec.
  - cbn [andb] in H. pose proof (utf8_width_pos c). specialize (IH H). lia.
  - pose proof (utf8_len_ge s) as Hs.
    assert (2 <= utf8_width c)%nat; [|lia].
    unfold is_ascii in Ec. unfold utf8_width. rewrite Ec.
    repeat destruct (_ <? _); lia.
Qed.

Lemma byte_frame_with (body : str) :
  byte_frame body
  = frame_with (str_of_N (N.of_nat (utf8_len body))) [CR; LF] [CR; LF] body.
Proof.
  unfold byte_frame, header_of, frame_with, CRLF_CRLF.
  now rewrite <- !app_assoc.
Qed.

Lemma decoded_dumps_all (ms : list json) :
  forallb wf_json ms = true -> decoded (map json_dumps ms) = ms.
Proof.
  induction ms as [|m ms IH]; [reflexivity|].
  cbn [forallb map]. intros H. apply andb_true_iff in H as [Hm H].
  change (json_dumps m :: map json_dumps ms)
    with ([json_dumps m] ++ map json_dumps ms).
  rewrite decoded_app, (decoded_dumps m Hm), (IH H). reflexivity.
Qed.

Lemma frames_of_messages (ms : list json) :
  map encode_lsp ms = map frame (map json_dumps ms).
Proof.
  rewrite map_map. apply map_ext. intros m. apply encode_lsp_frame.
Qed.

(** *** What the inner loop keeps *)

Lemma drain_inv (fuel : nat) :
  forall buffer queue,
    (length buffer < fuel)%nat ->
    exists cut rest more,
      drain fuel buffer queue = Some (rest, queue ++ more) /\
      buffer = cut ++ rest /\ (length more <= length cut)%nat /\ settled rest.
Proof.
  induction fuel as [|fuel IH]; intros buffer queue Hf; [lia|].
  cbn [drain].
  destruct (contains HEADER_KEY buffer) eqn:Ec.
  2:{ exists [], buffer, []. rewrite List.app_nil_r. repeat split; auto.
      intros f q. now apply drain_no_key. }
  destruct (re_search buffer) as [[g he]|] eqn:Es.
  2:{ exists [], buffer, []. rewrite List.app_nil_r. repeat split; auto.
      intros f q. now apply drain_no_match. }
  destruct (N.of_nat he + int_of_digits g <=? N.of_nat (length buffer)) eqn:El.
  2:{ exists [], buffer, []. rewrite List.app_nil_r. repeat split; auto.
      intros f q. cbn [drain]. now rewrite Ec, Es, El. }
  apply N.leb_le in El.
  pose proof (re_search_from_end _ _ _ _ Es) as [Hpos _].
  set (k := (he + N.to_nat (int_of_digits g))%nat) in *.
  assert (Hk : (k <= length buffer)%nat) by (unfold k; lia).
  assert (Hlen : (length (skipn k buffer) < fuel)%nat)
    by (rewrite length_skipn; unfold k; lia).
  assert (Hcut : length (firstn k buffer) = k) by (apply firstn_length_le, Hk).
  destruct (json_loads _) as [m|].
  - destruct (IH _ (queue ++ [m]) Hlen) as (cut & rest & more & Hd & Eb & Hm & Hs).
    exists (firstn k buffer ++ cut), rest, (m :: more).
    rewrite Hd, <- !app_assoc. cbn [List.app]. repeat split; auto.
    + rewrite <- Eb. symmetry. apply firstn_skipn.
    + rewrite length_app, Hcut. cbn [length]. unfold k. lia.
  - destruct (IH _ queue Hlen) as (cut & rest & more & Hd & Eb & Hm & Hs).
    exists (firstn k buffer ++ cut), rest, more.
    rewrite Hd, <- !app_assoc. repeat split; auto.
    + rewrite <- Eb. symmetry. apply firstn_skipn.
    + rewrite length_app. lia.
Qed.

Lemma read_chunks_inv (chunks : list str) :
  Forall (fun c => c <> []) chunks ->
  forall buffer queue,
    settled buffer ->
    exists cut rest more,
      read_chunks chunks buffer queue = Some (rest, queue ++ more) /\
      buffer ++ concat chunks = cut ++ rest /\
      (length more <= length cut)%nat /\ settled rest.
Proof.
  induction 1 as [|c chunks Hc Hcs IH]; intros buffer queue Hb.
  - exists [], buffer, []. cbn [read_chunks concat].
    rewrite !List.app_nil_r. repeat split; auto.
  - cbn [read_chunks concat]. destruct c as [|x c]; [congruence|].
    destruct (drain_inv (S (length (buffer ++ x :: c))) (buffer ++ x :: c) queue)
      as (cut1 & rest1 & more1 & Hd & Eb & Hm & Hs); [lia|].
    unfold drain_buffer. rewrite Hd. cbn [bind fst snd].
    destruct (IH rest1 (queue ++ more1) Hs) as (cut2 & rest & more2 & Hr & E2 & Hm2 & Hs2).
    exists (cut1 ++ cut2), rest, (more1 ++ more2).
    rewrite Hr, <- !app_assoc. repeat split; auto.
    + rewrite (app_assoc buffer), Eb, <- app_assoc, E2. reflexivity.
    + rewrite !length_app. lia.
Qed.

(** *** What a match of the pattern is *)

Lemma match_eol_is (s r : str) :
  match_eol s = Some r -> exists e, is_eol e = true /\ s = e ++ r.
Proof.
  intros H. apply match_eol_spec in H as [-> | ->].
  - now exists [LF].
  - now exists [CR; LF].
Qed.

Lemma re_match_here_spec (s g rest : str) :
  re_match_here s = Some (g, rest) ->
  exists e1 e2,
    s = frame_with g e1 e2 rest
    /\ nonempty g = true /\ forallb is_digit g = true
    /\ is_eol e1 = true /\ is_eol e2 = true.
Proof.
  unfold re_match_here.
  destruct (strip_prefix HEADER s) as [s1|] eqn:E1; [|discriminate].
  cbn [bind]. apply strip_prefix_sound in E1. subst s.
  destruct (span_digits s1) as [ds s2] eqn:E2.
  apply span_digits_spec in E2 as (-> & Hd & _).
  destruct ds as [|d ds]; [discriminate|].
  destruct (match_eol s2) as [s3|] eqn:E3; [|discriminate].
  cbn [bind].
  destruct (match_eol s3) as [s4|] eqn:E4; [|discriminate].
  cbn [bind]. intros H. injection H as <- <-.
  apply match_eol_is in E3 as (e1 & H1 & ->).
  apply match_eol_is in E4 as (e2 & H2 & ->).
  exists e1, e2. unfold frame_with. repeat split; auto.
Qed.

Lemma re_search_from_spec (s : str) :
  forall pos g e,
    re_search_from pos s = Some (g, e) ->
    exists pre e1 e2 rest,
      s = pre ++ frame_with g e1 e2 rest
      /\ e = (pos + length (pre ++ HEADER ++ g ++ e1 ++ e2))%nat
      /\ nonempty g = true /\ forallb is_digit g = true
      /\ is_eol e1 = true /\ is_eol e2 = true.
Proof.
  induction s as [|c s IH]; intros pos g e; rewrite re_search_from_eq.
  - destruct (re_match_here []) as [[g' rest]|] eqn:E; [|discriminate].
    apply re_match_here_spec in E as (e1 & e2 & E & _). discriminate.
  - destruct (re_match_here (c :: s)) as [[g' rest]|] eqn:E.
    + intros H. injection H as <- <-.
      apply re_match_here_spec in E as (e1 & e2 & E & H1 & H2 & H3 & H4).
      assert (L : (length (c :: s) - length rest
                   = length (HEADER ++ g' ++ e1 ++ e2))%nat)
        by (rewrite E, length_frame_with; lia).
      exists [], e1, e2, rest. cbn [List.app].
      split; [exact E|]. split; [|auto].
      transitivity (pos + (length (c :: s) - length rest))%nat;
        [reflexivity|now rewrite L].
    + intros H. apply IH in H as (pre & e1 & e2 & rest & -> & -> & H1 & H2 & H3 & H4).
      exists (c :: pre), e1, e2, rest. cbn [List.app length].
      repeat split; auto; lia.
Qed.

Lemma framed_in_more (a s b : str) (m : json) :
  framed_in s m -> framed_in (a ++ s ++ b) m.
Proof.
  intros (pre & ds & e1 & e2 & body & post & -> & H).
  exists (a ++ pre), ds, e1, e2, body, (post ++ b). split; [|exact H].
  now rewrite <- !app_assoc.
Qed.

Lemma framed_in_behind (a s : str) (m : json) :
  framed_in s m -> framed_in (a ++ s) m.
Proof.
  intros H. apply (framed_in_more a s []) in H. now rewrite List.app_nil_r in H.
Qed.

Lemma framed_in_before (s b : str) (m : json) :
  framed_in s m -> framed_in (s ++ b) m.
Proof. intros H. exact (framed_in_more [] s b m H). Qed.

(** Every message the inner loop puts on the queue was framed in the
    buffer; the buffer left over is the end of the buffer. *)
Lemma drain_sound (fuel : nat) :
  forall buffer queue rest queue',
    drain fuel buffer queue = Some (rest, queue') ->
    exists cut more,
      buffer = cut ++ rest /\ queue' = queue ++ more
      /\ Forall (framed_in buffer) more.
Proof.
  induction fuel as [|fuel IH]; intros buffer queue rest queue'; [discriminate|].
  cbn [drain].
  assert (Hstop : Some (buffer, queue) = Some (rest, queue') ->
                  exists cut more,
                    buffer = cut ++ rest /\ queue' = queue ++ more
                    /\ Forall (framed_in buffer) more).
  { intros H. injection H as <- <-. exists [], [].
    now rewrite List.app_nil_r. }
  destruct (contains HEADER_KEY buffer); [|exact Hstop].
  destruct (re_search buffer) as [[g he]|] eqn:Es; [|exact Hstop].
  destruct (N.of_nat he + int_of_digits g <=? N.of_nat (length buffer)) eqn:El;
    [|exact Hstop].
  clear Hstop. apply N.leb_le in El.
  apply re_search_from_spec in Es
    as (pre & e1 & e2 & tail & Eb & He & H1 & H2 & H3 & H4).
  cbn [Nat.add] in He.
  set (h := pre ++ HEADER ++ g ++ e1 ++ e2) in *.
  assert (Eb' : buffer = h ++ tail).
  { rewrite Eb. unfold h, frame_with. now rewrite <- !app_assoc. }
  set (len := N.to_nat (int_of_digits g)).
  assert (Hlen : (len <= length tail)%nat).
  { rewrite Eb', length_app in El. unfold len. lia. }
  assert (Ec : firstn len (skipn he buffer) = firstn len tail).
  { rewrite He, Eb'. now rewrite skipn_exact. }
  assert (Er : skipn (he + len) buffer = skipn len tail).
  { rewrite He, Eb', Nat.add_comm, <- skipn_skipn. now rewrite skipn_exact. }
  fold len. rewrite Ec, Er.
  assert (Hframed : forall m, json_loads (firstn len tail) = Some m ->
                              framed_in buffer m).
  { intros m Hm.
    exists pre, g, e1, e2, (firstn len tail), (skipn len tail).
    repeat split; auto.
    - rewrite Eb. unfold frame_with. rewrite <- !app_assoc.
      now rewrite firstn_skipn.
    - rewrite firstn_length_le by exact Hlen. unfold len. lia. }
  assert (Hcut : buffer = (h ++ firstn len tail) ++ skipn len tail).
  { rewrite <- app_assoc, firstn_skipn. exact Eb'. }
  destruct (json_loads (firstn len tail)) as [m|] eqn:Ej; intros H;
    apply IH in H as (cut & more & Ecut & Eq & Hm).
  - exists ((h ++ firstn len tail) ++ cut), (m :: more). repeat split.
    + rewrite <- app_assoc, <- Ecut. exact Hcut.
    + rewrite Eq, <- app_assoc. reflexivity.
    + constructor; [now apply Hframed|].
      eapply Forall_impl; [|exact Hm]. intros x Hx.
      rewrite Hcut. now apply framed_in_behind.
  - exists ((h ++ firstn len tail) ++ cut), more. repeat split.
    + rewrite <- app_assoc, <- Ecut. exact Hcut.
    + exact Eq.
    + eapply Forall_impl; [|exact Hm]. intros x Hx.
      rewrite Hcut. now apply framed_in_behind.
Qed.

Lemma read_chunks_sound (chunks : list str) :
  forall buffer queue rest queue',
    read_chunks chunks buffer queue = Some (rest, queue') ->
    exists more,
      queue' = queue ++ more
      /\ Forall (framed_in (buffer ++ concat chunks)) more.
Proof.
  induction chunks as [|c chunks IH]; intros buffer queue rest queue';
    cbn [read_chunks concat].
  - intros H. injection H as <- <-. exists []. now rewrite List.app_nil_r.
  - destruct c as [|x c].
    + intros H. injection H as <- <-. exists []. now rewrite List.app_nil_r.
    + unfold drain_buffer.
      destruct (drain _ (buffer ++ x :: c) queue) as [[b1 q1]|] eqn:Ed;
        [|discriminate].
      cbn [bind fst snd]. intros H.
      apply drain_sound in Ed as (cut & more1 & Ecut & -> & Hm1).
      apply IH in H as (more2 & -> & Hm2).
      exists (more1 ++ more2). split; [now rewrite app_assoc|].
      apply Forall_app. split.
      * eapply Forall_impl; [|exact Hm1]. intros m Hm.
        rewrite app_assoc. now apply framed_in_before.
      * eapply Forall_impl; [|exact Hm2]. intros m Hm.
        rewrite app_assoc, Ecut, <- app_assoc. now apply framed_in_behind.
Qed.

(** ** Properties of the reader beyond one or two frames *)



(** X2.  When the stream stops inside a frame, the messages of the complete
    frames before it are queued and the incomplete frame is neither decoded
    nor dropped: it is what the buffer holds, whatever the chunking. *)
Theorem incomplete_frame_kept (ms : list json) (b p s : str) (chunks : list str) :
  forallb wf_json ms = true ->
  frame b = p ++ s -> nonempty s = true ->
  forallb nonempty chunks = true ->
  concat chunks = concat (map encode_lsp ms) ++ p ->
  read_chunks chunks [] [] = Some (p, ms).
Proof.
  intros Hms Eb Hs Hc E.
  rewrite frames_of_messages in E.
  rewrite (read_chunks_frames_tail chunks (nonempty_chunks _ Hc)
             (map json_dumps ms) [] [] b p s Eb (nonempty_true _ Hs)).
  - cbn [List.app]. now rewrite decoded_dumps_all.
  - exact E.
  - apply short_of_nil.
Qed.

Lemma incomplete_frame_kept_witness :
  let f := encode_lsp msg_initialized in
  read_chunks [encode_lsp msg_initialize; firstn 40 f] [] []
  = Some (firstn 40 f, [msg_initialize]).
Proof.
  apply (incomplete_frame_kept [msg_initialize] (json_dumps msg_initialized)
           (firstn 40 (encode_lsp msg_initialized))
           (skipn 40 (encode_lsp msg_initialized))); reflexivity.
Defined.

(** X3.  The pattern of the reader takes a line feed alone as well as
    carriage return and line feed at the end of each of the two header
    lines, and the length with leading zeros: such a frame is decoded like
    the one [encode_lsp] writes. *)
Theorem header_variants_accepted (ds e1 e2 body : str) :
  nonempty ds = true -> forallb is_digit ds = true ->
  is_eol e1 = true -> is_eol e2 = true ->
  int_of_digits ds = N.of_nat (length body) ->
  read_responses (frame_with ds e1 e2 body) = Some ([], decoded [body]).
Proof.
  intros Hne. apply read_responses_frame_with. now apply nonempty_true.
Qed.

Lemma header_variants_accepted_witness :
  read_responses (frame_with (lit "0002") [LF] [CR; LF] (lit "{}"))
  = Some ([], [JObj []]).
Proof.
  apply (header_variants_accepted (lit "0002") [LF] [CR; LF] (lit "{}"));
    reflexivity.
Defined.

(** X4.  The reader counts characters where the header of a language server
    counts bytes: a frame whose body holds a character outside ASCII and
    whose Content-Length is the byte length of the body is not decoded when
    it has arrived in full; the reader goes on waiting for the missing
    characters and the frame stays in the buffer. *)
Theorem byte_counted_frame_stalls (body : str) :
  forallb is_ascii body = false ->
  read_responses (byte_frame body) = Some (byte_frame body, []).
Proof.
  intros Hb. pose proof (utf8_len_gt body Hb) as Hgt.
  set (ds := str_of_N (N.of_nat (utf8_len body))).
  assert (Hne : ds <> []) by apply str_of_N_nonempty.
  assert (Hd : forallb is_digit ds = true) by apply str_of_N_digits.
  assert (Hi : int_of_digits ds = N.of_nat (utf8_len body))
    by apply int_of_str_of_N.
  assert (Hst : forall b1 r, body = b1 ++ r ->
                             settled (frame_with ds [CR; LF] [CR; LF] b1)).
  { intros b1 r E. apply settled_short_body_with; auto.
    rewrite Hi.
    assert (length b1 <= length body)%nat by (rewrite E, length_app; lia).
    lia. }
  rewrite byte_frame_with. fold ds.
  rewrite read_responses_one_shot.
  - unfold drain_buffer. apply (Hst body []). now rewrite List.app_nil_r.
  - unfold frame_with. discriminate.
  - intros p r E Hr _.
    set (h := HEADER ++ ds ++ [CR; LF] ++ [CR; LF]).
    assert (Ef : forall t, frame_with ds [CR; LF] [CR; LF] t = h ++ t)
      by (intros t; unfold frame_with, h; now rewrite <- !app_assoc).
    rewrite Ef in E. symmetry in E.
    destruct (Nat.lt_ge_cases (length p) (length h)) as [Hlt|Hge].
    + destruct (app_eq_short _ _ _ _ E Hlt) as (s & Hs & Eh & _).
      exact (settled_short_header_with ds [CR; LF] [CR; LF] p s Hd
               eq_refl eq_refl Eh Hs).
    + destruct (app_eq_long _ _ _ _ E Hge) as (s & -> & Eb).
      rewrite <- Ef. exact (Hst s r Eb).
Qed.

Lemma byte_counted_frame_stalls_witness :
  read_responses (byte_frame accented_body) = Some (byte_frame accented_body, []).
Proof. apply (byte_counted_frame_stalls accented_body); reflexivity. Defined.

(** X5.  On every input the reader comes to an end, and what it has then is
    tied to what it read: the buffer is the end of the text read, the text
    before it was cut off frame by frame, the queue holds no more messages
    than characters were cut off, and the inner loop has nothing left to do
    on the buffer. *)
Theorem reader_invariants (stdout : str) :
  exists cut rest queue,
    read_responses stdout = Some (rest, queue)
    /\ stdout = cut ++ rest
    /\ (length queue <= length cut)%nat
    /\ settled rest.
Proof.
  destruct (read_chunks_inv _ (singletons_nonempty stdout) [] [] settled_nil)
    as (cut & rest & more & Hr & E & Hl & Hs).
  exists cut, rest, more. cbn [List.app] in *.
  rewrite concat_singletons in E. repeat split; auto.
Qed.

(** X6.  The frame [encode_lsp] writes is ASCII throughout, so that it has
    as many bytes on the pipe as it has characters, and the only line feeds
    in it are the two of the header: the body never holds a raw newline. *)
Theorem encode_lsp_ascii_two_lf (m : json) :
  all_ascii (encode_lsp m)
  /\ utf8_len (encode_lsp m) = length (encode_lsp m)
  /\ count_lf (encode_lsp m) = 2%nat
  /\ count_lf (json_dumps m) = 0%nat.
Proof.
  assert (Hp : all_printable (json_dumps m)) by apply json_dumps_printable.
  assert (Ha : all_ascii (encode_lsp m)).
  { unfold encode_lsp. apply Forall_app. split.
    - apply all_printable_ascii, all_printable_literal. reflexivity.
    - apply Forall_app. split.
      + apply all_printable_ascii, all_printable_str_of_N.
      + apply Forall_app. split.
        * repeat constructor.
        * now apply all_printable_ascii. }
  repeat split.
  - exact Ha.
  - now apply utf8_len_ascii.
  - rewrite encode_lsp_frame. unfold frame.
    rewrite count_lf_app, count_lf_header, (count_lf_printable _ Hp). reflexivity.
  - now apply count_lf_printable.
Qed.

(** ** More about waiting *)

(** A message that is no dict, arriving before the deadline behind other
    messages only, ends the wait with the AttributeError. *)
Lemma wait_loop_raises (fuel : nat) (start timeout : N) (id : Z)
      (a : arrival) (rest : list arrival) :
  is_dict (msg a) = false -> at_ms a < start + timeout ->
  forall w skipped,
    start <= now w -> now w < start + timeout ->
    pending w = skipped ++ a :: rest ->
    forallb (other_message id) skipped = true ->
    (forall x, In x skipped -> at_ms x < start + timeout) ->
    (length (pending w) + seconds_left start timeout w < fuel)%nat ->
    exists w', wait_loop fuel start timeout id w = Some (Raised, w')
               /\ pending w' = rest /\ now w' < start + timeout.
Proof.
  intros Ha Hta.
  induction fuel as [|fuel IH]; intros w skipped Hs Hn Hp Hsk Ht Hf; [lia|].
  cbn [wait_loop].
  destruct (N.ltb_spec (now w - start) timeout) as [Hlt|Hge]; [|lia].
  destruct (queue_get 1000 w) as [[r|] w1] eqn:Eg.
  - apply queue_get_some in Eg as (x & Ep & Em & Hn1 & _ & Hn3).
    destruct skipped as [|y skipped]; cbn [List.app] in Hp.
    + rewrite Hp in Ep. injection Ep as <- Ep.
      rewrite <- Em. exists w1.
      destruct (msg a); try discriminate Ha;
        (repeat split; [now symmetry|lia]).
    + rewrite Hp in Ep. injection Ep as <- Ep.
      cbn [forallb] in Hsk. apply andb_true_iff in Hsk as [Hy Hsk].
      destruct (other_is_dict id y Hy) as (kv & Ekv & Eid).
      rewrite <- Em, Ekv, Eid.
      assert (at_ms y < start + timeout) by (apply Ht; now left).
      apply (IH w1 skipped);
        [lia | lia | now rewrite <- Ep | exact Hsk
         | intros z Hz; apply Ht; now right | ].
      pose proof (seconds_left_mono start timeout w w1 Hn1).
      rewrite Hp in Hf. rewrite <- Ep. cbn [length] in Hf. lia.
  - apply queue_get_none in Eg as (Ep & En & Hh).
    assert (now w1 < start + timeout).
    { rewrite Hp in Hh. destruct skipped as [|y skipped]; cbn [List.app] in Hh.
      - lia.
      - assert (at_ms y < start + timeout) by (apply Ht; now left). lia. }
    apply (IH w1 skipped);
      [lia | lia | now rewrite Ep | exact Hsk | exact Ht | ].
    pose proof (seconds_left_empty start timeout w (pending w) Hlt Hs) as Hd.
    unfold seconds_left in *. cbn [now] in Hd. rewrite Ep, En. lia.
Qed.

Lemma all_before (t : N) (l : list arrival) :
  forallb (fun x => at_ms x <? t) l = true ->
  forall x, In x l -> at_ms x < t.
Proof.
  intros H x Hx. rewrite forallb_forall in H. now apply N.ltb_lt, H.
Qed.

(** The deadline is looked at between two polls only: the wanted message
    at the head of the queue is returned when it comes before the end of
    the poll in which the deadline falls. *)
Lemma wait_loop_late (fuel : nat) (start timeout : N) (id : Z)
      (a : arrival) (rest : list arrival) (k : N) :
  wanted_message id a = true ->
  1000 * k < timeout + 1000 ->
  at_ms a < start + 1000 * k ->
  forall j w,
    now w = start + 1000 * j -> 1000 * j < timeout ->
    pending w = a :: rest ->
    (N.to_nat (k - j) < fuel)%nat ->
    exists w', wait_loop fuel start timeout id w
               = Some (Returned (Some (msg a)), w')
               /\ pending w' = rest /\ now w' = N.max (now w) (at_ms a).
Proof.
  intros Ha Hk Hta.
  destruct (wanted_is_dict id a Ha) as (kv & Ekv & Eid).
  induction fuel as [|fuel IH]; intros j w Hn Hj Hp Hf; [lia|].
  cbn [wait_loop].
  destruct (N.ltb_spec (now w - start) timeout) as [Hlt|Hge]; [|lia].
  unfold queue_get. rewrite Hp.
  destruct (N.leb_spec (at_ms a) (now w)) as [H1|H1].
  - rewrite Ekv, Eid. eexists. repeat split. cbn [now]. lia.
  - destruct (N.ltb_spec (at_ms a) (now w + 1000)) as [H2|H2].
    + rewrite Ekv, Eid. eexists. repeat split. cbn [now]. lia.
    + destruct (IH (j + 1) {| now := now w + 1000; pending := pending w |})
        as (w' & Hw & Hr & Ht); cbn [now pending]; [lia|lia|exact Hp|lia|].
      exists w'. rewrite <- Hp, Hw. cbn [now] in Ht. repeat split; [exact Hr|lia].
Qed.

(** *** The loop of debug_compare.py *)

Lemma poll_for_spec (n : nat) (id : Z) :
  forall w printed,
    exists o w' lines consumed,
      poll_for n id w printed = (o, w', printed ++ lines)
      /\ pending w = consumed ++ pending w'
      /\ consumed_by id o consumed
      /\ (length consumed <= n)%nat
      /\ now w <= now w' <= now w + 1000 * N.of_nat n
      /\ length lines = match o with
                         | Returned _ => length consumed
                         | Raised => pred (length consumed)
                         end.
Proof.
  induction n as [|n IH]; intros w printed.
  - exists (Returned None), w, [], []. cbn [poll_for].
    rewrite List.app_nil_r. repeat split; cbn; lia.
  - cbn [poll_for].
    destruct (queue_get 1000 w) as [[r|] w1] eqn:Eg.
    + apply queue_get_some in Eg as (a & Ep & Em & Hn1 & Hn2 & _).
      destruct r as [| | | | | |kv].
      1-6: exists Raised, w1, [], [a]; rewrite List.app_nil_r;
        (repeat split; [exact Ep| |cbn [length]; lia|lia|lia]);
        exists [], a; unfold other_message, wanted_message; rewrite Em;
        repeat split.
      destruct (id_is kv id) eqn:Eid.
      * eexists (Returned (Some (JObj kv))), w1, [_], [a].
        repeat split; [exact Ep| |cbn [length]; lia|lia|lia].
        exists [], a. unfold wanted_message. rewrite Em, Eid. repeat split.
      * match goal with
        | |- context [poll_for n id w1 ?p] =>
          destruct (IH w1 p) as (o & w' & lines & consumed & Hr & Hc & Hb & Hl & Ht & Hk)
        end.
        rewrite Hr. rewrite <- app_assoc. cbn [List.app].
        eexists o, w', (_ :: lines), (a :: consumed).
        assert (Ho : other_message id a = true)
          by (unfold other_message; now rewrite Em, Eid).
        repeat split;
          [now rewrite Ep, Hc| now apply consumed_by_cons
           |cbn [length]; lia|lia|lia|].
        cbn [length]. rewrite Hk.
        destruct o as [r|]; [reflexivity|].
        destruct Hb as (sk & x & -> & _). rewrite length_app. cbn. lia.
    + apply queue_get_none in Eg as (Ep & En & _).
      exists (Returned None), w1, [], []. rewrite List.app_nil_r.
      repeat split; [now rewrite Ep|cbn; lia|lia|lia].
Qed.

(** *** The loop of test_lsp.py *)

Lemma collect_loop_spec (fuel : nat) :
  forall w responses,
    (length (pending w) < fuel)%nat ->
    exists taken w',
      collect_loop fuel w responses = Some (responses ++ map msg taken, w')
      /\ pending w = taken ++ pending w'
      /\ match pending w' with
         | [] => True
         | a :: _ => now w' <= at_ms a
         end
      /\ now w + 500 <= now w'.
Proof.
  induction fuel as [|fuel IH]; intros w responses Hf; [lia|].
  cbn [collect_loop].
  destruct (queue_get 500 w) as [[r|] w1] eqn:Eg.
  - apply queue_get_some in Eg as (a & Ep & Em & Hn1 & _ & _).
    destruct (IH w1 (responses ++ [r])) as (taken & w' & Hr & Hc & Hh & Hn).
    { rewrite Ep in Hf. cbn [length] in Hf. lia. }
    exists (a :: taken), w'. rewrite Hr, <- app_assoc. cbn [List.app map].
    rewrite Em. repeat split; [now rewrite Ep, Hc|exact Hh|lia].
  - apply queue_get_none in Eg as (Ep & En & Hh).
    exists [], w1. cbn [map]. rewrite List.app_nil_r, Ep.
    repeat split; [|lia].
    destruct (pending w); [exact I|lia].
Qed.

Lemma collect_loop_all (l : list arrival) :
  forall fuel w responses,
    pending w = l -> no_gap 500 (now w) l = true ->
    (length l < fuel)%nat ->
    exists t, collect_loop fuel w responses
              = Some (responses ++ map msg l, {| now := t; pending := [] |}).
Proof.
  induction l as [|a l IH]; intros fuel w responses Hp Hg Hf;
    (destruct fuel as [|fuel]; [cbn [length] in Hf; lia|]);
    cbn [collect_loop]; unfold queue_get; rewrite Hp.
  - eexists. cbn [map]. now rewrite List.app_nil_r.
  - cbn [no_gap] in Hg. apply andb_true_iff in Hg as [Ha Hg].
    apply N.ltb_lt in Ha. cbn [length] in Hf.
    destruct (N.leb_spec (at_ms a) (now w)) as [H1|H1].
    + destruct (IH fuel {| now := now w; pending := l |} (responses ++ [msg a]))
        as [t Ht]; [reflexivity| |lia|].
      * cbn [now]. now replace (N.max (now w) (at_ms a)) with (now w) in Hg by lia.
      * exists t. rewrite Ht, <- app_assoc. reflexivity.
    + destruct (N.ltb_spec (at_ms a) (now w + 500)) as [_|H2]; [|lia].
      destruct (IH fuel {| now := at_ms a; pending := l |} (responses ++ [msg a]))
        as [t Ht]; [reflexivity| |lia|].
      * cbn [now]. now replace (N.max (now w) (at_ms a)) with (at_ms a) in Hg by lia.
      * exists t. rewrite Ht, <- app_assoc. reflexivity.
Qed.

(** ** Properties of the waiting loops *)

(** X7.  A message that is no JSON object (a batch, say), arriving before
    the deadline behind messages for others only, makes [wait_for_response]
    raise the AttributeError of [r.get]; the messages before it and the
    message itself are gone from the queue, those behind it stay. *)
Theorem wait_raises_on_non_dict (w : world) (id : Z) (timeout : N)
        (skipped : list arrival) (a : arrival) (rest : list arrival) :
  pending w = skipped ++ a :: rest ->
  forallb (other_message id) skipped = true ->
  is_dict (msg a) = false ->
  0 < timeout ->
  forallb (fun x => at_ms x <? now w + timeout) (skipped ++ [a]) = true ->
  exists w', wait_for_response w id timeout = Some (Raised, w')
             /\ pending w' = rest.
Proof.
  intros Hp Hsk Ha Ht Hx. pose proof (all_before _ _ Hx) as Hb.
  unfold wait_for_response.
  destruct (wait_loop_raises (wait_fuel timeout w) (now w) timeout id a rest Ha)
    with (w := w) (skipped := skipped) as (w' & Hw & Hr & _); auto.
  - apply Hb, in_or_app. right. now left.
  - lia.
  - lia.
  - intros x Hin. apply Hb, in_or_app. now left.
  - apply wait_fuel_enough.
  - now exists w'.
Qed.

Lemma wait_raises_on_non_dict_witness :
  exists w', wait_for_response sends_batch 1 30000 = Some (Raised, w')
             /\ pending w' = [ {| at_ms := 12; msg := response 1 JNull |} ].
Proof.
  apply (wait_raises_on_non_dict sends_batch 1 30000
           [ {| at_ms := 5; msg := msg_log |} ]
           {| at_ms := 9; msg := JArr [response 1 JNull] |});
    reflexivity.
Defined.

(** X8.  [wait_for_response] returns the first message with the id asked
    for when it arrives before the deadline, however many notifications
    and responses to other requests arrive before it; it returns before
    the deadline, and the messages behind the returned one stay queued. *)
Theorem wait_returns_first_wanted (w : world) (id : Z) (timeout : N)
        (skipped : list arrival) (a : arrival) (rest : list arrival) :
  pending w = skipped ++ a :: rest ->
  forallb (other_message id) skipped = true ->
  wanted_message id a = true ->
  0 < timeout ->
  forallb (fun x => at_ms x <? now w + timeout) (skipped ++ [a]) = true ->
  exists w', wait_for_response w id timeout = Some (Returned (Some (msg a)), w')
             /\ pending w' = rest /\ now w' < now w + timeout.
Proof.
  intros Hp Hsk Ha Ht Hx.
  apply (wait_for_response_finds w id timeout skipped a rest); auto.
  now apply all_before.
Qed.

Lemma wait_returns_first_wanted_witness :
  exists w', wait_for_response answers_behind_logs 7 10000
             = Some (Returned (Some (response 7 JNull)), w')
             /\ pending w' = [ {| at_ms := 800; msg := msg_log |} ]
             /\ now w' < now answers_behind_logs + 10000.
Proof.
  apply (wait_returns_first_wanted answers_behind_logs 7 10000
           [ {| at_ms := 90; msg := msg_log |};
             {| at_ms := 120; msg := msg_log |} ]
           {| at_ms := 700; msg := response 7 JNull |});
    reflexivity.
Defined.

(** X9.  The deadline is tested between two polls of one second only: the
    wanted message at the head of the queue is still returned when it
    arrives after the deadline but before the end of the poll in which the
    deadline falls, and the call then returns at the time of the arrival. *)
Theorem wait_accepts_late_response (w : world) (id : Z) (timeout : N)
        (a : arrival) (rest : list arrival) :
  pending w = a :: rest ->
  wanted_message id a = true ->
  0 < timeout ->
  at_ms a < now w + 1000 * ((timeout + 999) / 1000) ->
  exists w', wait_for_response w id timeout = Some (Returned (Some (msg a)), w')
             /\ pending w' = rest /\ now w' = N.max (now w) (at_ms a).
Proof.
  intros Hp Ha Ht Hta. unfold wait_for_response.
  pose proof (N.Div0.mul_div_le (timeout + 999) 1000) as Hk.
  apply (wait_loop_late _ (now w) timeout id a rest ((timeout + 999) / 1000) Ha)
    with (j := 0); auto; try lia.
  unfold wait_fuel. rewrite N.sub_0_r.
  generalize (N.to_nat ((timeout + 999) / 1000)). intros; lia.
Qed.

Lemma wait_accepts_late_response_witness :
  exists w', wait_for_response
               {| now := 0;
                  pending := [ {| at_ms := 1900; msg := response 1 JNull |} ] |}
               1 1500
             = Some (Returned (Some (response 1 JNull)), w')
             /\ pending w' = [] /\ now w' = 1900.
Proof.
  apply (wait_accepts_late_response
           {| now := 0;
              pending := [ {| at_ms := 1900; msg := response 1 JNull |} ] |}
           1 1500 {| at_ms := 1900; msg := response 1 JNull |} []);
    reflexivity.
Defined.

(** X10.  The loop of debug_compare.py over [range(n)] takes at most [n]
    messages off the queue, in order, and lasts at most [n] seconds; all it
    takes but a returned one are objects with another id, a returned one
    has the id asked for, and it prints one line for every object taken. *)
Theorem poll_for_bounded (n : nat) (id : Z) (w : world) :
  exists o w' lines consumed,
    poll_for n id w [] = (o, w', lines)
    /\ pending w = consumed ++ pending w'
    /\ consumed_by id o consumed
    /\ (length consumed <= n)%nat
    /\ now w <= now w' <= now w + 1000 * N.of_nat n
    /\ length lines = match o with
                      | Returned _ => length consumed
                      | Raised => pred (length consumed)
                      end.
Proof. exact (poll_for_spec n id w []). Qed.

(** X11.  The loop of debug_compare.py gives up at the first second
    without a message, whatever its range: a response that takes a second
    or more to come is not seen and stays in the queue, where
    [wait_for_response] with a deadline behind the arrival returns it. *)
Theorem poll_gives_up_where_wait_succeeds (w : world) (id : Z) (n : nat)
        (timeout : N) (a : arrival) (rest : list arrival) :
  pending w = a :: rest ->
  wanted_message id a = true ->
  now w + 1000 <= at_ms a ->
  at_ms a < now w + timeout ->
  poll_for (S n) id w []
  = (Returned None, {| now := now w + 1000; pending := a :: rest |}, [])
  /\ exists w', wait_for_response w id timeout
                = Some (Returned (Some (msg a)), w')
                /\ pending w' = rest.
Proof.
  intros Hp Ha H1 H2. split.
  - cbn [poll_for]. unfold queue_get. rewrite Hp.
    destruct (N.leb_spec (at_ms a) (now w)) as [H|_]; [lia|].
    destruct (N.ltb_spec (at_ms a) (now w + 1000)) as [H|_]; [lia|].
    reflexivity.
  - destruct (wait_for_response_finds w id timeout [] a rest Hp eq_refl Ha)
      as (w' & Hw & Hr & _); [lia| |now exists w'].
    intros x [<-|[]]. exact H2.
Qed.

Lemma poll_gives_up_where_wait_succeeds_witness :
  poll_for 20 1 slow_answer []
  = (Returned None,
     {| now := 1000; pending := [ {| at_ms := 1500; msg := response 1 JNull |} ] |},
     [])
  /\ exists w', wait_for_response slow_answer 1 30000
                = Some (Returned (Some (response 1 JNull)), w')
                /\ pending w' = [].
Proof.
  apply (poll_gives_up_where_wait_succeeds slow_answer 1 19 30000
           {| at_ms := 1500; msg := response 1 JNull |} []);
    first [reflexivity | simpl; lia].
Defined.

(** X12.  The gathering loop of test_lsp.py always ends, after half a
    second without a message: it returns the messages it took in the order
    of their arrival, leaves the later ones in the queue, and takes every
    message there is when none comes half a second or more after the one
    before it. *)
Theorem collect_responses_spec (w : world) :
  exists taken w',
    collect_responses w = Some (map msg taken, w')
    /\ pending w = taken ++ pending w'
    /\ match pending w' with
       | [] => True
       | a :: _ => now w' <= at_ms a
       end
    /\ now w + 500 <= now w'
    /\ (no_gap 500 (now w) (pending w) = true -> taken = pending w).
Proof.
  unfold collect_responses.
  destruct (collect_loop_spec (S (length (pending w))) w [])
    as (taken & w' & Hr & Hc & Hh & Hn); [lia|].
  exists taken, w'. cbn [List.app] in Hr. repeat split; auto.
  intros Hg.
  destruct (collect_loop_all (pending w) (S (length (pending w))) w []
              eq_refl Hg) as [t Ht]; [lia|].
  rewrite Hr in Ht. injection Ht as _ Hw.
  rewrite Hc, Hw. cbn [pending]. now rewrite List.app_nil_r.
Qed.

(** ** The benchmark *)

From Stdlib Require Import Lqa.

(** *** Minima and maxima of samples *)

Lemma py_min_spec (l : list Q) :
  forall t,
    (py_min t l <= t)%Q
    /\ (forall x, In x l -> py_min t l <= x)%Q
    /\ In (py_min t l) (t :: l).
Proof.
  unfold py_min.
  induction l as [|x l IH]; intros t; cbn [fold_left].
  - repeat split; [lra|intros x []|now left].
  - destruct (Qle_bool t x) eqn:E.
    + apply Qle_bool_iff in E.
      destruct (IH t) as (H1 & H2 & H3). repeat split.
      * exact H1.
      * intros y [<-|Hy]; [lra|now apply H2].
      * destruct H3 as [H3|H3]; [now left|right; now right].
    + assert (x < t)%Q.
      { apply Qnot_le_lt. intros H. apply Qle_bool_iff in H. congruence. }
      destruct (IH x) as (H1 & H2 & H3). repeat split.
      * lra.
      * intros y [<-|Hy]; [exact H1|now apply H2].
      * right. destruct H3 as [H3|H3]; [now left|now right].
Qed.

Lemma py_max_spec (l : list Q) :
  forall t,
    (t <= py_max t l)%Q
    /\ (forall x, In x l -> x <= py_max t l)%Q
    /\ In (py_max t l) (t :: l).
Proof.
  unfold py_max.
  induction l as [|x l IH]; intros t; cbn [fold_left].
  - repeat split; [lra|intros x []|now left].
  - destruct (Qle_bool x t) eqn:E.
    + apply Qle_bool_iff in E.
      destruct (IH t) as (H1 & H2 & H3). repeat split.
      * exact H1.
      * intros y [<-|Hy]; [lra|now apply H2].
      * destruct H3 as [H3|H3]; [now left|right; now right].
    + assert (t < x)%Q.
      { apply Qnot_le_lt. intros H. apply Qle_bool_iff in H. congruence. }
      destruct (IH x) as (H1 & H2 & H3). repeat split.
      * lra.
      * intros y [<-|Hy]; [exact H1|now apply H2].
      * right. destruct H3 as [H3|H3]; [now left|now right].
Qed.

(** *** One run *)

Lemma timed_get_spec (timeout start : N) (w : world) :
  (fst (timed_get timeout start w) = Inf
   /\ pending (snd (timed_get timeout start w)) = pending w
   /\ now (snd (timed_get timeout start w)) = now w + timeout)
  \/ (exists a,
        fst (timed_get timeout start w)
        = Ms (inject_Z (Z.of_N (N.max (now w) (at_ms a) - start)))
        /\ pending w = a :: pending (snd (timed_get timeout start w))
        /\ now (snd (timed_get timeout start w)) = N.max (now w) (at_ms a)).
Proof.
  unfold timed_get.
  destruct (queue_get timeout w) as [[r|] w'] eqn:E.
  - right. apply queue_get_some in E as (a & Hp & _ & _ & _ & Hn).
    exists a. cbn [fst snd]. rewrite Hn. auto.
  - left. apply queue_get_none in E as (Hp & Hn & _). cbn [fst snd]. auto.
Qed.

Lemma valid_times_one (s : sample) :
  length (valid_times [s]) = match s with Ms _ => 1%nat | Inf => 0%nat end.
Proof. now destruct s. Qed.

Lemma iteration_fields (w : world) (r : results) :
  initialized w = true ->
  exists a w1 s2 s3 s4 s5 s6 w',
    queue_get 10000 w = (Some (msg a), w1)
    /\ pending w = a :: pending w1
    /\ iteration w r
       = ({| startup := startup r ++ [elapsed (now w) w1];
             didOpen := didOpen r ++ [Ms (300 # 1)];
             documentSymbol := documentSymbol r ++ [s2];
             hover := hover r ++ [s3];
             completion := completion r ++ [s4];
             definition := definition r ++ [s5];
             references := references r ++ [s6] |}, w')
    /\ exists taken,
         pending w1 = taken ++ pending w'
         /\ length taken = length (valid_times [s2; s3; s4; s5; s6]).
Proof.
  unfold initialized, iteration. intros Hi.
  destruct (queue_get 10000 w) as [[m|] w1] eqn:Eg; [|discriminate].
  apply queue_get_some in Eg as (a & Hp & Hm & _).
  set (w3 := sleep 300 (sleep 100 w1)).
  assert (E300 : elapsed (now (sleep 100 w1)) w3 = Ms (300 # 1)).
  { unfold elapsed, w3, sleep. cbn [now]. do 2 f_equal.
    replace (now w1 + 100 + 300 - (now w1 + 100)) with 300 by lia.
    reflexivity. }
  rewrite E300.
  assert (Hp3 : pending w3 = pending w1) by reflexivity.
  pose proof (timed_get_spec 5000 (now w3) w3) as H4.
  destruct (timed_get 5000 (now w3) w3) as [s2 w4].
  pose proof (timed_get_spec 5000 (now w4) w4) as H5.
  destruct (timed_get 5000 (now w4) w4) as [s3 w5].
  pose proof (timed_get_spec 10000 (now w5) w5) as H6.
  destruct (timed_get 10000 (now w5) w5) as [s4 w6].
  pose proof (timed_get_spec 5000 (now w6) w6) as H7.
  destruct (timed_get 5000 (now w6) w6) as [s5 w7].
  pose proof (timed_get_spec 5000 (now w7) w7) as H8.
  destruct (timed_get 5000 (now w7) w7) as [s6 w8].
  cbn [fst snd] in *.
  exists a, w1, s2, s3, s4, s5, s6, w8. rewrite Hm.
  repeat split; auto.
  assert (H : forall (s : sample) (u v : world) (t : N),
             (s = Inf /\ pending v = pending u /\ now v = now u + t)
             \/ (exists x, s = Ms (inject_Z (Z.of_N (N.max (now u) (at_ms x) - now u)))
                           /\ pending u = x :: pending v
                           /\ now v = N.max (now u) (at_ms x)) ->
             exists l, pending u = l ++ pending v
                       /\ length l = length (valid_times [s])).
  { intros s u v t [(-> & Hq & _)|(x & -> & Hq & _)].
    - exists []. now rewrite Hq.
    - exists [x]. now rewrite Hq. }
  destruct (H _ _ _ _ H4) as (l4 & E4 & L4).
  destruct (H _ _ _ _ H5) as (l5 & E5 & L5).
  destruct (H _ _ _ _ H6) as (l6 & E6 & L6).
  destruct (H _ _ _ _ H7) as (l7 & E7 & L7).
  destruct (H _ _ _ _ H8) as (l8 & E8 & L8).
  exists (l4 ++ l5 ++ l6 ++ l7 ++ l8).
  rewrite <- Hp3, E4, E5, E6, E7, E8, <- !app_assoc. split; [reflexivity|].
  rewrite !length_app, L4, L5, L6, L7, L8.
  destruct s2, s3, s4, s5, s6; reflexivity.
Qed.

Lemma iteration_not_initialized (w : world) (r : results) :
  initialized w = false -> fst (iteration w r) = r.
Proof.
  unfold initialized, iteration.
  destruct (queue_get 10000 w) as [[m|] w1]; [discriminate|reflexivity].
Qed.


Lemma benchmark_loop_aligned (runs : list world) :
  forall r k,
    aligned k r ->
    aligned (k + length (filter initialized runs)) (benchmark_loop runs r).
Proof.
  induction runs as [|w runs IH]; intros r k Hk; cbn [benchmark_loop filter].
  - cbn [length]. now rewrite Nat.add_0_r.
  - destruct (initialized w) eqn:Ei.
    + destruct (iteration_fields w r Ei)
        as (a & w1 & s2 & s3 & s4 & s5 & s6 & w' & _ & _ & Hr & _).
      rewrite Hr. cbn [fst length].
      replace (k + S (length (filter initialized runs)))%nat
        with (S k + length (filter initialized runs))%nat by lia.
      apply IH. unfold aligned in *. cbn.
      rewrite !length_app. cbn [length]. intuition lia.
    + rewrite (iteration_not_initialized w r Ei). now apply IH.
Qed.

Lemma benchmark_loop_didOpen (runs : list world) :
  forall r,
    Forall (fun s => s = Ms (300 # 1)) (didOpen r) ->
    failed (startup r) = 0%nat ->
    Forall (fun s => s = Ms (300 # 1)) (didOpen (benchmark_loop runs r))
    /\ failed (startup (benchmark_loop runs r)) = 0%nat.
Proof.
  induction runs as [|w runs IH]; intros r Hd Hs; cbn [benchmark_loop].
  - now split.
  - destruct (initialized w) eqn:Ei.
    + destruct (iteration_fields w r Ei)
        as (a & w1 & s2 & s3 & s4 & s5 & s6 & w' & _ & _ & Hr & _).
      rewrite Hr. cbn [fst]. apply IH; cbn [didOpen startup].
      * apply Forall_app. split; [exact Hd|now repeat constructor].
      * clear - Hs. induction (startup r) as [|[q|] l IHl]; cbn in *;
          [reflexivity|now apply IHl|discriminate].
    + rewrite (iteration_not_initialized w r Ei). now apply IH.
Qed.

(** *** Turns that a failed write cuts short *)

Lemma iteration_io_all_ok (x : run) (r : results) :
  writes_succeed x = true -> iteration_io x r = iteration (server x) r.
Proof.
  unfold writes_succeed. cbn [forallb seq]. intros H.
  repeat (apply andb_true_iff in H as [?E H]).
  unfold iteration_io, iteration. rewrite E, E0, E1, E2, E3, E4, E5, E6.
  cbn [negb].
  destruct (queue_get 10000 (server x)) as [[m|] w1]; [|reflexivity].
  cbv zeta.
  destruct (timed_get 5000 _ _) as [s2 w4].
  destruct (timed_get 5000 _ _) as [s3 w5].
  destruct (timed_get 10000 _ _) as [s4 w6].
  destruct (timed_get 5000 _ _) as [s5 w7].
  destruct (timed_get 5000 _ _) as [s6 w8].
  reflexivity.
Qed.

Lemma benchmark_loop_io_all_ok (runs : list run) :
  forallb writes_succeed runs = true ->
  forall r, benchmark_loop_io runs r = benchmark_loop (map server runs) r.
Proof.
  induction runs as [|x runs IH]; intros H r; [reflexivity|].
  cbn [forallb] in H. apply andb_true_iff in H as [Hx H].
  cbn [benchmark_loop_io benchmark_loop map].
  rewrite (iteration_io_all_ok x r Hx). now apply IH.
Qed.

(** What one turn adds to the seven lists: one sample or none to each, never
    to a list when not to the one before it; to [startup] when the turn
    starts, to [references] when it gets to its end. *)
Lemma iteration_io_lengths (x : run) (r : results) :
  exists n1 n2 n3 n4 n5 n6 n7 : nat,
    length (startup (fst (iteration_io x r))) = (length (startup r) + n1)%nat
    /\ length (didOpen (fst (iteration_io x r))) = (length (didOpen r) + n2)%nat
    /\ length (documentSymbol (fst (iteration_io x r)))
       = (length (documentSymbol r) + n3)%nat
    /\ length (hover (fst (iteration_io x r))) = (length (hover r) + n4)%nat
    /\ length (completion (fst (iteration_io x r)))
       = (length (completion r) + n5)%nat
    /\ length (definition (fst (iteration_io x r)))
       = (length (definition r) + n6)%nat
    /\ length (references (fst (iteration_io x r)))
       = (length (references r) + n7)%nat
    /\ (n7 <= n6 /\ n6 <= n5 /\ n5 <= n4 /\ n4 <= n3 /\ n3 <= n2 /\ n2 <= n1)%nat
    /\ n1 = Nat.b2n (started x) /\ n7 = Nat.b2n (finished x).
Proof.
  unfold iteration_io, finished, started, initialized.
  cbn [forallb seq].
  destruct (write_ok x 0%nat) eqn:E0; cbn [negb andb].
  2:{ exists 0%nat, 0%nat, 0%nat, 0%nat, 0%nat, 0%nat, 0%nat. cbn. repeat split; lia. }
  destruct (queue_get 10000 (server x)) as [[m|] w1]; cbn [fst].
  2:{ exists 0%nat, 0%nat, 0%nat, 0%nat, 0%nat, 0%nat, 0%nat. cbn. repeat split; lia. }
  cbv zeta.
  destruct (write_ok x 1%nat); cbn [negb andb].
  2:{ exists 1%nat, 0%nat, 0%nat, 0%nat, 0%nat, 0%nat, 0%nat. cbn. rewrite !length_app.
      cbn. repeat split; lia. }
  destruct (write_ok x 2%nat); cbn [negb andb].
  2:{ exists 1%nat, 0%nat, 0%nat, 0%nat, 0%nat, 0%nat, 0%nat. cbn. rewrite !length_app.
      cbn. repeat split; lia. }
  destruct (write_ok x 3%nat); cbn [negb andb].
  2:{ exists 1%nat, 1%nat, 0%nat, 0%nat, 0%nat, 0%nat, 0%nat. cbn. rewrite !length_app.
      cbn. repeat split; lia. }
  destruct (timed_get 5000 _ _) as [s2 w4].
  destruct (write_ok x 4%nat); cbn [negb andb].
  2:{ exists 1%nat, 1%nat, 1%nat, 0%nat, 0%nat, 0%nat, 0%nat. cbn. rewrite !length_app.
      cbn. repeat split; lia. }
  destruct (timed_get 5000 _ _) as [s3 w5].
  destruct (write_ok x 5%nat); cbn [negb andb].
  2:{ exists 1%nat, 1%nat, 1%nat, 1%nat, 0%nat, 0%nat, 0%nat. cbn. rewrite !length_app.
      cbn. repeat split; lia. }
  destruct (timed_get 10000 _ _) as [s4 w6].
  destruct (write_ok x 6%nat); cbn [negb andb].
  2:{ exists 1%nat, 1%nat, 1%nat, 1%nat, 1%nat, 0%nat, 0%nat. cbn. rewrite !length_app.
      cbn. repeat split; lia. }
  destruct (timed_get 5000 _ _) as [s5 w7].
  destruct (write_ok x 7%nat); cbn [negb andb].
  2:{ exists 1%nat, 1%nat, 1%nat, 1%nat, 1%nat, 1%nat, 0%nat. cbn. rewrite !length_app.
      cbn. repeat split; lia. }
  destruct (timed_get 5000 _ _) as [s6 w8].
  exists 1%nat, 1%nat, 1%nat, 1%nat, 1%nat, 1%nat, 1%nat. cbn. rewrite !length_app.
  cbn. repeat split; lia.
Qed.

Lemma benchmark_loop_io_lengths (runs : list run) :
  forall r,
  exists n1 n2 n3 n4 n5 n6 n7 : nat,
    length (startup (benchmark_loop_io runs r)) = (length (startup r) + n1)%nat
    /\ length (didOpen (benchmark_loop_io runs r))
       = (length (didOpen r) + n2)%nat
    /\ length (documentSymbol (benchmark_loop_io runs r))
       = (length (documentSymbol r) + n3)%nat
    /\ length (hover (benchmark_loop_io runs r)) = (length (hover r) + n4)%nat
    /\ length (completion (benchmark_loop_io runs r))
       = (length (completion r) + n5)%nat
    /\ length (definition (benchmark_loop_io runs r))
       = (length (definition r) + n6)%nat
    /\ length (references (benchmark_loop_io runs r))
       = (length (references r) + n7)%nat
    /\ (n7 <= n6 /\ n6 <= n5 /\ n5 <= n4 /\ n4 <= n3 /\ n3 <= n2 /\ n2 <= n1)%nat
    /\ n1 = length (filter started runs)
    /\ n7 = length (filter finished runs).
Proof.
  induction runs as [|x runs IH]; intros r; cbn [benchmark_loop_io filter].
  - exists 0%nat, 0%nat, 0%nat, 0%nat, 0%nat, 0%nat, 0%nat. cbn. repeat split; lia.
  - destruct (iteration_io_lengths x r)
      as (a1 & a2 & a3 & a4 & a5 & a6 & a7
          & A1 & A2 & A3 & A4 & A5 & A6 & A7 & Ac & As & Af).
    destruct (IH (fst (iteration_io x r)))
      as (b1 & b2 & b3 & b4 & b5 & b6 & b7
          & B1 & B2 & B3 & B4 & B5 & B6 & B7 & Bc & Bs & Bf).
    exists (a1 + b1)%nat, (a2 + b2)%nat, (a3 + b3)%nat, (a4 + b4)%nat,
           (a5 + b5)%nat, (a6 + b6)%nat, (a7 + b7)%nat.
    rewrite B1, B2, B3, B4, B5, B6, B7, A1, A2, A3, A4, A5, A6, A7.
    repeat split; try lia.
    + rewrite As, Bs. destruct (started x); cbn; lia.
    + rewrite Af, Bf. destruct (finished x); cbn; lia.
Qed.

Lemma finished_started (x : run) : finished x = true -> started x = true.
Proof. unfold finished. intros H. now apply andb_true_iff in H as [H _]. Qed.

(** As many turns get to their end as start exactly when every turn that
    starts gets to its end. *)
Lemma all_finished (runs : list run) :
  (length (filter finished runs) <= length (filter started runs))%nat
  /\ (length (filter finished runs) = length (filter started runs)
      <-> forallb (fun x => implb (started x) (finished x)) runs = true).
Proof.
  induction runs as [|x runs [IH1 IH2]]; cbn [filter forallb length].
  - split; [lia|]. split; reflexivity.
  - destruct (finished x) eqn:Ef.
    + rewrite (finished_started x Ef). cbn [implb andb length].
      split; [lia|]. rewrite <- IH2. split; lia.
    + destruct (started x); cbn [implb andb length].
      * split; [lia|]. split; [lia|discriminate].
      * split; [lia|]. exact IH2.
Qed.

(** ** Properties of the benchmark *)

(** X13.  In a line of figures that [print_results] prints, the minimum and
    the maximum are samples of the operation that did not time out, and
    every such sample lies between them.  (No such bound is stated for the
    average, which is computed with the rounding of floats.) *)
Theorem stats_bounds (op : string) (times : list sample) (avg mn mx : Q) :
  print_line op times = Stats op avg mn mx ->
  In mn (valid_times times) /\ In mx (valid_times times)
  /\ (mn <= mx)%Q
  /\ forall t, In t (valid_times times) -> (mn <= t)%Q /\ (t <= mx)%Q.
Proof.
  unfold print_line. destruct (valid_times times) as [|t rest]; [discriminate|].
  intros H. injection H as <- <- <-.
  destruct (py_min_spec rest t) as (Hm1 & Hm2 & Hm3).
  destruct (py_max_spec rest t) as (Hx1 & Hx2 & Hx3).
  repeat split; try assumption.
  - lra.
  - destruct H as [<-|H]; [exact Hm1|now apply Hm2].
  - destruct H as [<-|H]; [exact Hx1|now apply Hx2].
Qed.

Lemma stats_bounds_witness :
  In 1%Q [7 # 2; 1; 2]%Q /\ In (7 # 2)%Q [7 # 2; 1; 2]%Q
  /\ (1 <= 7 # 2)%Q
  /\ forall t, In t [7 # 2; 1; 2]%Q -> (1 <= t)%Q /\ (t <= 7 # 2)%Q.
Proof.
  apply (stats_bounds "hover" [Ms (7 # 2); Inf; Ms 1; Ms 2] (13 # 6) 1 (7 # 2)).
  reflexivity.
Defined.

(** X15.  The lists that [benchmark_lsp] returns, when writes to the server
    may fail.  Each list is at most as long as the one before it in the
    order of the keys; [startup] has one sample for every turn that starts
    (the write of [initialize] succeeds and the server answers within ten
    seconds) and [references] one for every turn that gets to its end.  So
    the seven lists have the same length exactly when no turn that started
    was cut short by a failed write.  When no write fails at all the
    common length is the number of turns in which the server answered
    [initialize] in time. *)
Theorem benchmark_lists_aligned (runs : list run) :
  descending (benchmark_lsp_io runs)
  /\ length (startup (benchmark_lsp_io runs)) = length (filter started runs)
  /\ length (references (benchmark_lsp_io runs))
     = length (filter finished runs)
  /\ ((exists k, aligned k (benchmark_lsp_io runs))
      <-> forallb (fun x => implb (started x) (finished x)) runs = true)
  /\ (forallb writes_succeed runs = true ->
      benchmark_lsp_io runs = benchmark_lsp (map server runs)
      /\ aligned (length (filter initialized (map server runs)))
                 (benchmark_lsp_io runs)).
Proof.
  unfold benchmark_lsp_io.
  destruct (benchmark_loop_io_lengths runs no_results)
    as (n1 & n2 & n3 & n4 & n5 & n6 & n7
        & H1 & H2 & H3 & H4 & H5 & H6 & H7 & Hc & Hs & Hf).
  cbn [no_results startup didOpen documentSymbol hover completion definition
       references length Nat.add] in *.
  destruct (all_finished runs) as [Hle Hiff].
  split; [unfold descending; lia|].
  split; [lia|]. split; [lia|]. split.
  - rewrite <- Hiff. unfold aligned. split.
    + intros (k & K1 & K2 & K3 & K4 & K5 & K6 & K7). lia.
    + intros E. exists n1. lia.
  - intros Hall.
    rewrite (benchmark_loop_io_all_ok runs Hall no_results).
    split; [reflexivity|].
    apply (benchmark_loop_aligned (map server runs) no_results 0).
    repeat split.
Qed.

(** A server that is gone when the documentSymbol request is written leaves
    one sample in [startup] and [didOpen] and none in the other lists. *)
Lemma benchmark_lists_aligned_witness :
  length (startup (benchmark_lsp_io [dies_after_didOpen])) = 1%nat
  /\ length (references (benchmark_lsp_io [dies_after_didOpen])) = 0%nat
  /\ ~ exists k, aligned k (benchmark_lsp_io [dies_after_didOpen]).
Proof.
  destruct (benchmark_lists_aligned [dies_after_didOpen])
    as (_ & Hs & Hf & Hiff & _).
  split; [exact Hs|]. split; [exact Hf|].
  intros H. apply Hiff in H. discriminate H.
Defined.

(** X16.  The sample of didOpen is the sleep of 0.3 s that follows the
    notification, whatever the server does: with statements that take no
    time it is 300 ms in every run.  Neither didOpen nor startup ever
    holds a timeout. *)
Theorem didOpen_measures_the_sleep (runs : list world) :
  Forall (fun s => s = Ms (300 # 1)) (didOpen (benchmark_lsp runs))
  /\ failed (startup (benchmark_lsp runs)) = 0%nat
  /\ failed (didOpen (benchmark_lsp runs)) = 0%nat.
Proof.
  destruct (benchmark_loop_didOpen runs no_results) as [Hd Hs];
    [constructor|reflexivity|].
  fold (benchmark_lsp runs) in Hd, Hs. repeat split; auto.
  induction Hd as [|s l -> _ IH]; [reflexivity|exact IH].
Qed.

(** X17.  In a run the requests are answered by the messages of the queue
    in the order of their arrival, whatever their ids: the first message
    counts as the response to [initialize], and each of the five timed
    requests that does not time out takes the message that comes next. *)
Theorem iteration_takes_in_order (w : world) (r : results) :
  initialized w = true ->
  exists first taken s2 s3 s4 s5 s6 r' w',
    iteration w r = (r', w')
    /\ documentSymbol r' = documentSymbol r ++ [s2]
    /\ hover r' = hover r ++ [s3]
    /\ completion r' = completion r ++ [s4]
    /\ definition r' = definition r ++ [s5]
    /\ references r' = references r ++ [s6]
    /\ pending w = first :: taken ++ pending w'
    /\ length taken = length (valid_times [s2; s3; s4; s5; s6]).
Proof.
  intros Hi.
  destruct (iteration_fields w r Hi)
    as (a & w1 & s2 & s3 & s4 & s5 & s6 & w' & _ & Hp & Hr & taken & Ht & Hl).
  exists a, taken, s2, s3, s4, s5, s6. eexists. exists w'.
  split; [exact Hr|]. cbn. repeat split; auto. now rewrite Hp, Ht.
Qed.

Lemma iteration_takes_in_order_witness :
  exists first taken s2 s3 s4 s5 s6 r' w',
    iteration answers_too_late no_results = (r', w')
    /\ documentSymbol r' = [s2]
    /\ hover r' = [s3]
    /\ completion r' = [s4]
    /\ definition r' = [s5]
    /\ references r' = [s6]
    /\ pending answers_too_late = first :: taken ++ pending w'
    /\ length taken = length (valid_times [s2; s3; s4; s5; s6]).
Proof.
  apply (iteration_takes_in_order answers_too_late no_results). reflexivity.
Defined.

(** X18.  A response that comes after the script gave up waiting for it is
    counted for the request that follows: when the second message of the
    server arrives later than five seconds after the documentSymbol
    request, but within the five seconds after that, documentSymbol gets
    a timeout and hover gets the time this message took from the hover
    request on, although nothing answers hover. *)
Theorem late_response_counted_for_next_request
        (w : world) (r : results) (a1 a2 : arrival) (t : N) :
  pending w = [a1; a2] ->
  at_ms a1 < now w + 10000 ->
  t = N.max (now w) (at_ms a1) + 400 ->
  t + 5000 <= at_ms a2 ->
  at_ms a2 < t + 10000 ->
  documentSymbol (fst (iteration w r)) = documentSymbol r ++ [Inf]
  /\ hover (fst (iteration w r))
     = hover r ++ [Ms (inject_Z (Z.of_N (at_ms a2 - (t + 5000))))]
  /\ completion (fst (iteration w r)) = completion r ++ [Inf]
  /\ definition (fst (iteration w r)) = definition r ++ [Inf]
  /\ references (fst (iteration w r)) = references r ++ [Inf].
Proof.
  intros Hp H1 Ht H2 H3.
  assert (Eg : queue_get 10000 w
               = (Some (msg a1),
                  {| now := N.max (now w) (at_ms a1); pending := [a2] |})).
  { unfold queue_get. rewrite Hp.
    destruct (N.leb_spec (at_ms a1) (now w)).
    - do 3 f_equal. lia.
    - destruct (N.ltb_spec (at_ms a1) (now w + 10000)); [|lia].
      do 3 f_equal. lia. }
  unfold iteration. rewrite Eg. unfold sleep. cbn [now pending].
  assert (E2 : timed_get 5000 t {| now := t; pending := [a2] |}
               = (Inf, {| now := t + 5000; pending := [a2] |})).
  { unfold timed_get, queue_get. cbn [now pending].
    destruct (N.leb_spec (at_ms a2) t); [lia|].
    destruct (N.ltb_spec (at_ms a2) (t + 5000)); [lia|reflexivity]. }
  replace (N.max (now w) (at_ms a1) + 100 + 300) with t by lia.
  rewrite E2. cbn [now].
  assert (E3 : timed_get 5000 (t + 5000) {| now := t + 5000; pending := [a2] |}
               = (Ms (inject_Z (Z.of_N (at_ms a2 - (t + 5000)))),
                  {| now := N.max (t + 5000) (at_ms a2); pending := [] |})).
  { unfold timed_get, queue_get. cbn [now pending].
    destruct (N.leb_spec (at_ms a2) (t + 5000)).
    - assert (E : at_ms a2 = t + 5000) by lia.
      cbn [now]. rewrite E, N.max_id. reflexivity.
    - destruct (N.ltb_spec (at_ms a2) (t + 5000 + 5000)); [|lia].
      cbn [now]. rewrite (N.max_r (t + 5000) (at_ms a2)) by lia. reflexivity. }
  rewrite E3. cbn [now].
  unfold timed_get, queue_get. cbn [now pending fst].
  cbn. repeat split.
Qed.

Lemma late_response_counted_for_next_request_witness :
  documentSymbol (fst (iteration answers_too_late no_results)) = [Inf]
  /\ hover (fst (iteration answers_too_late no_results))
     = [Ms (inject_Z (Z.of_N (7450 - (450 + 5000))))]
  /\ completion (fst (iteration answers_too_late no_results)) = [Inf]
  /\ definition (fst (iteration answers_too_late no_results)) = [Inf]
  /\ references (fst (iteration answers_too_late no_results)) = [Inf].
Proof.
  apply (late_response_counted_for_next_request answers_too_late no_results
           {| at_ms := 50; msg := response 1 JNull |}
           {| at_ms := 7450; msg := response 2 JNull |} 450);
    first [reflexivity | simpl; lia].
Defined.

(** X29.  A message that is in the queue already when a timed request is
    sent, a notification that came during the sleeps say, is taken as the
    response at once: the sample of documentSymbol is 0 ms then, whatever
    the message is and whenever the response comes. *)
Theorem queued_message_measured_as_zero
        (w : world) (r : results) (a1 a2 : arrival) (rest : list arrival) :
  pending w = a1 :: a2 :: rest ->
  at_ms a1 < now w + 10000 ->
  at_ms a2 <= N.max (now w) (at_ms a1) + 400 ->
  documentSymbol (fst (iteration w r)) = documentSymbol r ++ [Ms 0].
Proof.
  intros Hp H1 H2.
  assert (Eg : queue_get 10000 w
               = (Some (msg a1),
                  {| now := N.max (now w) (at_ms a1); pending := a2 :: rest |})).
  { unfold queue_get. rewrite Hp.
    destruct (N.leb_spec (at_ms a1) (now w)).
    - do 3 f_equal. lia.
    - destruct (N.ltb_spec (at_ms a1) (now w + 10000)); [|lia].
      do 3 f_equal. lia. }
  unfold iteration. rewrite Eg. unfold sleep. cbn [now pending].
  set (t := N.max (now w) (at_ms a1) + 100 + 300).
  assert (E2 : timed_get 5000 t {| now := t; pending := a2 :: rest |}
               = (Ms 0, {| now := t; pending := rest |})).
  { unfold timed_get, queue_get. cbn [now pending].
    destruct (N.leb_spec (at_ms a2) t) as [_|H]; [|unfold t in H; lia].
    cbn [now]. now rewrite N.sub_diag. }
  rewrite E2. clear E2.
  destruct (timed_get 5000 _ _) as [s3 w5].
  destruct (timed_get 10000 _ _) as [s4 w6].
  destruct (timed_get 5000 _ _) as [s5 w7].
  destruct (timed_get 5000 _ _) as [s6 w8].
  reflexivity.
Qed.

Lemma queued_message_measured_as_zero_witness :
  documentSymbol (fst (iteration publishes_diagnostics no_results)) = [Ms 0].
Proof.
  apply (queued_message_measured_as_zero publishes_diagnostics no_results
           {| at_ms := 50; msg := response 1 JNull |}
           {| at_ms := 300; msg := msg_log |}
           [ {| at_ms := 2450; msg := response 2 (JArr []) |} ]);
    first [reflexivity | simpl; lia].
Defined.

(** ** Text functions *)

From Stdlib Require Import Permutation Sorted.

Lemma strip_prefix_some_iff (p s : str) :
  (exists r, strip_prefix p s = Some r) <-> exists r, s = p ++ r.
Proof.
  split; intros [r H].
  - exists r. now apply strip_prefix_sound.
  - exists r. subst s. apply strip_prefix_app.
Qed.

Lemma contains_cons (p : str) (c : char) (s : str) :
  contains p (c :: s)
  = match strip_prefix p (c :: s) with
    | Some _ => true
    | None => contains p s
    end.
Proof. reflexivity. Qed.

Lemma contains_part_of (p s : str) : contains p s = true <-> part_of p s.
Proof.
  unfold part_of. induction s as [|c s IH].
  - cbn [contains]. destruct (strip_prefix p []) as [r|] eqn:E.
    + split; [intros _|reflexivity].
      apply strip_prefix_sound in E. exists [], r. exact E.
    + split; [discriminate|]. intros (a & b & H). exfalso.
      destruct a; [|discriminate]. cbn [List.app] in H.
      rewrite H, strip_prefix_app in E. discriminate.
  - rewrite contains_cons. destruct (strip_prefix p (c :: s)) as [r|] eqn:E.
    + split; [intros _|reflexivity].
      apply strip_prefix_sound in E. exists [], r. exact E.
    + rewrite IH. split.
      * intros (a & b & ->). exists (c :: a), b. reflexivity.
      * intros (a & b & H). destruct a as [|x a].
        -- cbn [List.app] in H. rewrite H, strip_prefix_app in E. discriminate.
        -- injection H as _ H. now exists a, b.
Qed.

Lemma contains_false (p s : str) :
  contains p s = false <-> ~ part_of p s.
Proof.
  rewrite <- contains_part_of. destruct (contains p s); split; congruence.
Qed.

Lemma part_of_refl (s : str) : part_of s s.
Proof. exists [], []. now rewrite List.app_nil_r. Qed.

Lemma part_of_trans (a b c : str) : part_of a b -> part_of b c -> part_of a c.
Proof.
  intros (x & y & ->) (u & v & ->). exists (u ++ x), (y ++ v).
  now rewrite <- !app_assoc.
Qed.

Lemma part_of_firstn (n : nat) (s : str) : part_of (firstn n s) s.
Proof.
  exists [], (skipn n s). cbn [List.app]. symmetry. apply firstn_skipn.
Qed.

Lemma part_of_suffix (a b : str) : part_of b (a ++ b).
Proof. exists a, []. now rewrite List.app_nil_r. Qed.

Lemma part_of_prefix (a b : str) : part_of a (a ++ b).
Proof. now exists [], b. Qed.

Lemma contains_part (p m s : str) :
  part_of m s -> contains p s = false -> contains p m = false.
Proof.
  intros Hm Hs. apply contains_false. intros Hp. apply contains_false in Hs.
  apply Hs. now apply (part_of_trans p m s).
Qed.

(** *** cut and split *)

Lemma cut_some (sep s b a : str) :
  cut sep s = Some (b, a) -> s = b ++ sep ++ a.
Proof.
  revert b. induction s as [|c s IH]; intros b; cbn [cut].
  - destruct (strip_prefix sep []) as [r|] eqn:E; [|discriminate].
    intros H; injection H as <- <-. now apply strip_prefix_sound in E.
  - destruct (strip_prefix sep (c :: s)) as [r|] eqn:E.
    + intros H; injection H as <- <-. now apply strip_prefix_sound in E.
    + destruct (cut sep s) as [[b' a']|]; [|discriminate].
      intros H; injection H as <- <-. cbn [List.app]. f_equal. now apply IH.
Qed.

Lemma cut_none (sep s : str) : cut sep s = None <-> contains sep s = false.
Proof.
  induction s as [|c s IH].
  - cbn [cut contains]. destruct (strip_prefix sep []); split; congruence.
  - cbn [cut]. rewrite contains_cons.
    destruct (strip_prefix sep (c :: s)); [split; congruence|].
    rewrite <- IH. destruct (cut sep s) as [[b a]|]; split; congruence.
Qed.

Lemma cut_shorter (sep s b a : str) :
  sep <> [] -> cut sep s = Some (b, a) -> (length a < length s)%nat.
Proof.
  intros Hs H. apply cut_some in H. subst s.
  rewrite !length_app. destruct sep; [congruence|cbn [length]; lia].
Qed.

(** The last piece of a split holds no separator and is the end of the
    text, behind a separator if there is one. *)
Lemma split_loop_last (sep : str) (fuel : nat) :
  sep <> [] ->
  forall s,
    (length s <= fuel)%nat ->
    contains sep (last_piece (split_loop fuel sep s)) = false
    /\ (exists pre, s = pre ++ last_piece (split_loop fuel sep s))
    /\ (contains sep s = true ->
        exists pre, s = pre ++ sep ++ last_piece (split_loop fuel sep s)).
Proof.
  intros Hsep. unfold last_piece.
  induction fuel as [|fuel IH]; intros s Hl.
  - destruct s; [|cbn [length] in Hl; lia]. cbn [split_loop last].
    assert (E : contains sep [] = false).
    { cbn [contains]. destruct sep; [congruence|reflexivity]. }
    repeat split; [exact E|now exists []|congruence].
  - cbn [split_loop]. destruct (cut sep s) as [[b a]|] eqn:E.
    + pose proof (cut_shorter _ _ _ _ Hsep E) as Hlt.
      apply cut_some in E.
      destruct (IH a) as (H1 & (pre & H2) & H3); [lia|].
      assert (El : last (b :: split_loop fuel sep a) [] = last (split_loop fuel sep a) []).
      { destruct (split_loop fuel sep a) eqn:Ea; [|reflexivity].
        destruct fuel; cbn [split_loop] in Ea; [discriminate|].
        destruct (cut sep a) as [[? ?]|]; discriminate. }
      rewrite El. repeat split; [exact H1| |].
      * exists (b ++ sep ++ pre). rewrite E. rewrite H2 at 1.
        now rewrite <- !app_assoc.
      * intros _. destruct (contains sep a) eqn:Ec.
        -- destruct (H3 eq_refl) as [pre' H4].
           exists (b ++ sep ++ pre'). rewrite E. rewrite H4 at 1.
           now rewrite <- !app_assoc.
        -- apply cut_none in Ec.
           assert (Ea : last (split_loop fuel sep a) [] = a).
           { destruct fuel; cbn [split_loop]; [reflexivity|]. now rewrite Ec. }
           exists b. now rewrite Ea.
    + cbn [last]. apply cut_none in E. repeat split; [exact E|now exists []|congruence].
Qed.

Lemma split_last (sep s : str) :
  sep <> [] ->
  contains sep (last_piece (split sep s)) = false
  /\ part_of (last_piece (split sep s)) s
  /\ (contains sep s = true ->
      exists pre, s = pre ++ sep ++ last_piece (split sep s)).
Proof.
  intros Hsep. unfold split.
  destruct (split_loop_last sep (length s) Hsep s (le_n _)) as (H1 & (pre & H2) & H3).
  repeat split; [exact H1| |exact H3].
  exists pre, []. now rewrite List.app_nil_r.
Qed.

(** *** strip *)

Lemma lstrip_spec (s : str) :
  (exists ws, s = ws ++ lstrip s /\ forallb is_space ws = true)
  /\ match lstrip s with
     | [] => True
     | c :: _ => is_space c = false
     end.
Proof.
  induction s as [|c s [(ws & E & Hw) IH]]; cbn [lstrip].
  - split; [now exists []|exact I].
  - destruct (is_space c) eqn:Ec.
    + split; [|exact IH]. exists (c :: ws). cbn [List.app forallb].
      rewrite Ec, Hw. split; [now f_equal|reflexivity].
    + split; [now exists []|exact Ec].
Qed.

Lemma lstrip_part (s : str) : part_of (lstrip s) s.
Proof.
  destruct (lstrip_spec s) as [(ws & E & _) _].
  exists ws, []. now rewrite List.app_nil_r.
Qed.

Lemma part_of_rev (a b : str) : part_of a b -> part_of (List.rev a) (List.rev b).
Proof.
  intros (x & y & ->). exists (List.rev y), (List.rev x).
  now rewrite !rev_app_distr, <- app_assoc.
Qed.

Lemma rstrip_part (s : str) : part_of (rstrip s) s.
Proof.
  unfold rstrip. pose proof (part_of_rev _ _ (lstrip_part (List.rev s))) as H.
  now rewrite rev_involutive in H.
Qed.

Lemma strip_part (s : str) : part_of (strip s) s.
Proof.
  unfold strip. eapply part_of_trans; [apply rstrip_part|apply lstrip_part].
Qed.

Lemma lstrip_head (s : str) :
  match lstrip s with
  | [] => True
  | c :: _ => is_space c = false
  end.
Proof. apply lstrip_spec. Qed.

Lemma lstrip_fixed (s : str) :
  match s with
  | [] => True
  | c :: _ => is_space c = false
  end -> lstrip s = s.
Proof. destruct s as [|c s]; [reflexivity|]. cbn [lstrip]. now intros ->. Qed.

(** [rstrip] takes nothing off the front of a text that does not begin
    with white space, unless it takes all. *)
Lemma rstrip_prefix (s : str) : exists ws, s = rstrip s ++ ws.
Proof.
  unfold rstrip. destruct (lstrip_spec (List.rev s)) as [(ws & E & _) _].
  exists (List.rev ws). rewrite <- rev_app_distr, <- E. now rewrite rev_involutive.
Qed.

Lemma strip_head (s : str) :
  match strip s with
  | [] => True
  | c :: _ => is_space c = false
  end.
Proof.
  unfold strip. pose proof (lstrip_head s) as H.
  destruct (rstrip_prefix (lstrip s)) as [ws E].
  destruct (rstrip (lstrip s)) as [|c r]; [exact I|].
  rewrite E in H. exact H.
Qed.

Lemma strip_last (s : str) :
  match List.rev (strip s) with
  | [] => True
  | c :: _ => is_space c = false
  end.
Proof.
  unfold strip, rstrip. rewrite rev_involutive. apply lstrip_head.
Qed.

(** *** index and the search for a line *)

Lemma startswith_prefix (p s : str) : startswith p (p ++ s) = true.
Proof. unfold startswith. now rewrite strip_prefix_app. Qed.

Lemma index_of_spec (p s : str) :
  forall c,
    index_of p s = Some c ->
    startswith p (skipn c s) = true
    /\ forall c', (c' < c)%nat -> startswith p (skipn c' s) = false.
Proof.
  induction s as [|x s IH]; intros c; cbn [index_of].
  - destruct (strip_prefix p []) as [r|] eqn:E; [|discriminate].
    intros H; injection H as <-. split; [|intros; lia].
    unfold startswith. cbn [skipn]. now rewrite E.
  - destruct (strip_prefix p (x :: s)) as [r|] eqn:E.
    + intros H; injection H as <-. split; [|intros; lia].
      unfold startswith. cbn [skipn]. now rewrite E.
    + destruct (index_of p s) as [k|]; [|discriminate].
      intros H; injection H as <-.
      destruct (IH k eq_refl) as [H1 H2]. split; [exact H1|].
      intros [|c'] Hc; cbn [skipn].
      * unfold startswith. now rewrite E.
      * apply H2. lia.
Qed.

Lemma index_of_contains (p s : str) :
  contains p s = true -> exists c, index_of p s = Some c.
Proof.
  induction s as [|x s IH]; cbn [contains index_of].
  - destruct (strip_prefix p []); [now exists O|discriminate].
  - destruct (strip_prefix p (x :: s)); [now exists O|].
    intros H. destruct (IH H) as [c ->]. now exists (S c).
Qed.

Lemma first_line_spec (test : str -> bool) (lines : list str) :
  forall i0 i line,
    first_line test i0 lines = Some (i, line) ->
    exists k, i = (i0 + k)%nat /\ nth_error lines k = Some line
              /\ test line = true
              /\ forall j l, (j < k)%nat -> nth_error lines j = Some l ->
                             test l = false.
Proof.
  induction lines as [|x lines IH]; intros i0 i line; cbn [first_line];
    [discriminate|].
  destruct (test x) eqn:E.
  - intros H; injection H as <- <-. exists O.
    repeat split; [lia|exact E|intros; lia].
  - intros H. destruct (IH _ _ _ H) as (k & -> & Hn & Ht & Hb).
    exists (S k). repeat split; [lia|exact Hn|exact Ht|].
    intros [|j] l Hj; cbn [nth_error].
    + intros Hl; injection Hl as <-. exact E.
    + apply Hb. lia.
Qed.

Lemma first_line_none (test : str -> bool) (lines : list str) :
  forall i0, first_line test i0 lines = None ->
             forall l, In l lines -> test l = false.
Proof.
  induction lines as [|x lines IH]; intros i0; cbn [first_line]; [intros _ l []|].
  destruct (test x) eqn:E; [discriminate|].
  intros H l [<-|Hl]; [exact E|now apply (IH _ H)].
Qed.

(** *** basename *)

Lemma after_last_some (sep : char) (s t : str) :
  after_last sep s = Some t ->
  ~ In sep t /\ exists d, s = d ++ sep :: t.
Proof.
  revert t. induction s as [|c s IH]; intros t; cbn [after_last]; [discriminate|].
  destruct (after_last sep s) as [t'|] eqn:E.
  - intros H; injection H as <-. destruct (IH t' eq_refl) as [Hn [d ->]].
    split; [exact Hn|]. now exists (c :: d).
  - destruct (N.eqb_spec c sep) as [->|Hc]; [|discriminate].
    intros H; injection H as <-. split; [|now exists []].
    clear IH. induction s as [|x s IHs]; [intros []|].
    cbn [after_last] in E. destruct (after_last sep s); [discriminate|].
    destruct (N.eqb_spec x sep); [discriminate|].
    intros [H|H]; [congruence|now apply IHs].
Qed.

Lemma after_last_none (sep : char) (s : str) :
  after_last sep s = None -> ~ In sep s.
Proof.
  induction s as [|x s IHs]; [intros _ []|].
  cbn [after_last]. destruct (after_last sep s); [discriminate|].
  destruct (N.eqb_spec x sep); [discriminate|].
  intros _ [H|H]; [congruence|now apply IHs].
Qed.

Lemma basename_no_slash (p : str) : ~ In SLASH (basename p).
Proof.
  unfold basename. destruct (after_last SLASH p) as [t|] eqn:E.
  - now apply after_last_some in E.
  - now apply after_last_none.
Qed.

(** *** sorted *)

Lemma str_leb_total (a b : str) : str_leb a b = false -> str_leb b a = true.
Proof.
  revert b. induction a as [|x a IH]; intros [|y b]; cbn [str_leb];
    try congruence.
  destruct (N.ltb_spec x y); [discriminate|].
  destruct (N.ltb_spec y x); [reflexivity|]. apply IH.
Qed.

Lemma str_leb_antisym (a b : str) :
  str_leb a b = true -> str_leb b a = true -> a = b.
Proof.
  revert b. induction a as [|x a IH]; intros [|y b]; cbn [str_leb];
    try congruence.
  destruct (N.ltb_spec x y); destruct (N.ltb_spec y x);
    try discriminate; try lia.
  intros H1 H2. assert (x = y) by lia. subst. f_equal. now apply IH.
Qed.

Lemma str_leb_trans (a b c : str) :
  str_leb a b = true -> str_leb b c = true -> str_leb a c = true.
Proof.
  revert b c. induction a as [|x a IH]; intros [|y b] [|z c]; cbn [str_leb];
    try congruence.
  destruct (N.ltb_spec x y); destruct (N.ltb_spec y x);
    destruct (N.ltb_spec y z); destruct (N.ltb_spec z y);
      destruct (N.ltb_spec x z); destruct (N.ltb_spec z x);
        try discriminate; try lia; try reflexivity.
  apply IH.
Qed.

Section sorting.
Context {A : Type}.

Lemma insert_item_perm (p : str * A) (l : list (str * A)) :
  Permutation (insert_item p l) (p :: l).
Proof.
  induction l as [|q l IH]; cbn [insert_item]; [reflexivity|].
  destruct (str_leb (fst p) (fst q)); [reflexivity|].
  rewrite IH. apply perm_swap.
Qed.

Lemma sorted_items_perm (d : list (str * A)) : Permutation (sorted_items d) d.
Proof.
  induction d as [|p d IH]; cbn [sorted_items fold_right]; [reflexivity|].
  fold (sorted_items d). rewrite insert_item_perm. now constructor.
Qed.

Lemma insert_item_sorted (p : str * A) (l : list (str * A)) :
  StronglySorted by_name l -> StronglySorted by_name (insert_item p l).
Proof.
  induction 1 as [|q l Hs IH Hq]; cbn [insert_item].
  - repeat constructor.
  - destruct (str_leb (fst p) (fst q)) eqn:E.
    + constructor; [now constructor|]. constructor; [exact E|].
      eapply Forall_impl; [|exact Hq]. intros r Hr. unfold by_name in *.
      now apply (str_leb_trans _ (fst q)).
    + constructor; [exact IH|].
      assert (Hall : Forall (by_name q) (p :: l)).
      { constructor; [|exact Hq]. now apply str_leb_total. }
      rewrite Forall_forall in *. intros x Hx. apply Hall.
      now apply (Permutation_in _ (insert_item_perm p l)).
Qed.

Lemma sorted_items_sorted (d : list (str * A)) :
  StronglySorted by_name (sorted_items d).
Proof.
  induction d as [|p d IH]; cbn [sorted_items fold_right]; [constructor|].
  now apply insert_item_sorted.
Qed.

Lemma length_sorted_items (d : list (str * A)) :
  length (sorted_items d) = length d.
Proof. apply Permutation_length, sorted_items_perm. Qed.

Lemma StronglySorted_firstn (R : str * A -> str * A -> Prop) (n : nat)
      (l : list (str * A)) :
  StronglySorted R l -> StronglySorted R (firstn n l).
Proof.
  intros H. revert n. induction H as [|q l Hs IH Hq]; intros n.
  - rewrite firstn_nil. constructor.
  - destruct n as [|n]; cbn [firstn]; [constructor|].
    constructor; [apply IH|].
    rewrite Forall_forall in *. intros x Hx. apply Hq.
    rewrite <- (firstn_skipn n l). apply in_or_app. now left.
Qed.

Lemma StronglySorted_split (R : str * A -> str * A -> Prop) (n : nat)
      (l : list (str * A)) :
  StronglySorted R l ->
  forall x y, In x (firstn n l) -> In y (skipn n l) -> R x y.
Proof.
  intros H. revert n. induction H as [|q l Hs IH Hq]; intros n x y.
  - rewrite firstn_nil. intros [].
  - destruct n as [|n]; cbn [firstn skipn]; [intros []|].
    intros [<-|Hx] Hy.
    + rewrite Forall_forall in Hq. apply Hq.
      rewrite <- (firstn_skipn n l). apply in_or_app. now right.
    + now apply (IH n).
Qed.
End sorting.

Lemma tail_of_length {A : Type} (n : nat) (l : list A) :
  (length (tail_of n l) <= n)%nat.
Proof. unfold tail_of. rewrite length_skipn. lia. Qed.

Lemma tail_of_incl {A : Type} (n : nat) (l : list A) (x : A) :
  In x (tail_of n l) -> In x l.
Proof.
  unfold tail_of. intros H. rewrite <- (firstn_skipn (length l - n) l).
  apply in_or_app. now right.
Qed.

(** ** The references by file, the rename summary and the log *)

Lemma files_get_setdefault (f fname : str) (r : json)
      (d : list (str * list json)) :
  files_get f (setdefault_append fname r d)
  = if str_eqb fname f
    then Some (match files_get f d with
               | Some l => l ++ [r]
               | None => [r]
               end)
    else files_get f d.
Proof.
  induction d as [|[k l] d IH]; cbn [setdefault_append files_get].
  - reflexivity.
  - destruct (str_eqb k fname) eqn:Ek; cbn [files_get].
    + apply str_eqb_eq in Ek. subst k.
      destruct (str_eqb fname f); reflexivity.
    + destruct (str_eqb k f) eqn:Ef; [|exact IH].
      apply str_eqb_eq in Ef. subst k.
      destruct (str_eqb fname f) eqn:E; [|reflexivity].
      apply str_eqb_eq in E. subst fname. now rewrite str_eqb_refl in Ek.
Qed.

Lemma setdefault_keys (fname : str) (r : json) (d : list (str * list json)) :
  forall k, In k (map fst (setdefault_append fname r d))
            <-> In k (map fst d) \/ k = fname.
Proof.
  induction d as [|[k0 l] d IH]; intros k; cbn [setdefault_append map fst In].
  - intuition congruence.
  - destruct (str_eqb k0 fname) eqn:Ek; cbn [map fst In].
    + apply str_eqb_eq in Ek. subst k0. intuition congruence.
    + rewrite IH. intuition congruence.
Qed.

Lemma setdefault_nodup (fname : str) (r : json) (d : list (str * list json)) :
  NoDup (map fst d) -> NoDup (map fst (setdefault_append fname r d)).
Proof.
  induction d as [|[k0 l] d IH]; cbn [setdefault_append map fst].
  - intros _. repeat constructor. intros [].
  - intros H. inversion H as [|? ? Hn Hd]; subst.
    destruct (str_eqb k0 fname) eqn:Ek; cbn [map fst].
    + now constructor.
    + constructor; [|now apply IH].
      rewrite setdefault_keys. intros [Hi| ->]; [contradiction|].
      now rewrite str_eqb_refl in Ek.
Qed.

Lemma files_get_in (d : list (str * list json)) (f : str) (l : list json) :
  NoDup (map fst d) -> (In (f, l) d <-> files_get f d = Some l).
Proof.
  induction d as [|[k l0] d IH]; cbn [map fst files_get In].
  - intros _. split; [intros []|discriminate].
  - intros H. inversion H as [|? ? Hn Hd]; subst.
    destruct (str_eqb k f) eqn:Ek.
    + apply str_eqb_eq in Ek. subst k. split.
      * intros [E|Hi]; [congruence|].
        exfalso. apply Hn. now apply (in_map fst) in Hi.
      * intros E. left. congruence.
    + rewrite <- (IH Hd). split; [|now right].
      intros [E|Hi]; [|exact Hi]. injection E as -> ->.
      now rewrite str_eqb_refl in Ek.
Qed.

(** What the dict of the loop holds after the references [seen]. *)
Lemma group_refs_inv (refs : list json) :
  forall d seen g,
    NoDup (map fst d) ->
    (forall f, files_get f d = match filter (in_file f) seen with
                               | [] => None
                               | x :: l => Some (x :: l)
                               end) ->
    group_refs refs d = Some g ->
    NoDup (map fst g)
    /\ (forall f, files_get f g = match filter (in_file f) (seen ++ refs) with
                                  | [] => None
                                  | x :: l => Some (x :: l)
                                  end)
    /\ forall r, In r refs -> exists f, ref_file r = Some f.
Proof.
  induction refs as [|r refs IH]; intros d seen g Hn Hd; cbn [group_refs].
  - intros H; injection H as <-. rewrite List.app_nil_r.
    repeat split; auto. intros r [].
  - destruct (ref_file r) as [fname|] eqn:Er; [|discriminate]. cbn [bind].
    intros H.
    destruct (IH (setdefault_append fname r d) (seen ++ [r]) g) as (H1 & H2 & H3).
    + now apply setdefault_nodup.
    + intros f. rewrite files_get_setdefault, filter_app, Hd.
      cbn [filter].
      assert (Ein : in_file f r = str_eqb fname f)
        by (unfold in_file; now rewrite Er).
      rewrite Ein. destruct (str_eqb fname f).
      * destruct (filter (in_file f) seen); reflexivity.
      * rewrite List.app_nil_r. reflexivity.
    + exact H.
    + rewrite <- app_assoc in H2. repeat split; auto.
      intros x [<-|Hx]; [now exists fname|now apply H3].
Qed.

Lemma group_refs_total (refs : list json) :
  forall d g,
    group_refs refs d = Some g ->
    list_sum (map (fun p => length (snd p)) g)
    = (list_sum (map (fun p => length (snd p)) d) + length refs)%nat.
Proof.
  induction refs as [|r refs IH]; intros d g; cbn [group_refs].
  - intros H; injection H as <-. cbn [length]. lia.
  - destruct (ref_file r) as [fname|]; [|discriminate]. cbn [bind].
    intros H. rewrite (IH _ _ H). cbn [length].
    assert (E : forall d', list_sum (map (fun p => length (snd p))
                                         (setdefault_append fname r d'))
                           = S (list_sum (map (fun p : str * list json =>
                                                 length (snd p)) d'))).
    { induction d' as [|[k l] d' IHd];
        cbn [setdefault_append map list_sum fold_right snd]; [reflexivity|].
      destruct (str_eqb k fname); cbn [map list_sum fold_right snd].
      - rewrite length_app. cbn [length]. lia.
      - fold (list_sum (map (fun p : str * list json => length (snd p))
                            (setdefault_append fname r d'))).
        rewrite IHd. unfold list_sum. lia. }
    rewrite E. lia.
Qed.

Lemma list_edits_spec (listed : list (str * json)) :
  Forall (fun p => py_len (snd p) <> None) listed ->
  forall total,
    exists lines,
      list_edits listed total = Some (lines, (total + all_edits listed)%nat)
      /\ length lines = length listed
      /\ list_sum (map snd lines) = all_edits listed.
Proof.
  induction 1 as [|[u e] listed He Hl IH]; intros total; cbn [list_edits all_edits].
  - exists []. rewrite Nat.add_0_r. repeat split.
  - cbn [snd] in He. destruct (py_len e) as [n|]; [|congruence]. cbn [bind].
    destruct (IH (total + n)%nat) as (lines & -> & Hlen & Hsum). cbn [bind fst snd].
    exists ((basename u, n) :: lines). rewrite Nat.add_assoc.
    repeat split; cbn [length map list_sum fold_right snd];
      [lia|fold (list_sum (map snd lines)); lia].
Qed.

Lemma all_edits_app (a b : list (str * json)) :
  all_edits (a ++ b) = (all_edits a + all_edits b)%nat.
Proof.
  induction a as [|[u e] a IH]; cbn [List.app all_edits]; [reflexivity|].
  rewrite IH. lia.
Qed.

Lemma all_edits_perm (a b : list (str * json)) :
  Permutation a b -> all_edits a = all_edits b.
Proof.
  induction 1 as [|[u e] a b _ IH|[u e] [v f] a|a b c _ IH1 _ IH2];
    cbn [all_edits]; lia.
Qed.

Lemma flat_map_length_le {A B : Type} (f : A -> list B) (l : list A) :
  (forall x, length (f x) <= 1)%nat ->
  (length (flat_map f l) <= length l)%nat.
Proof.
  intros H. induction l as [|x l IH]; [reflexivity|].
  cbn [flat_map]. rewrite length_app. cbn [length]. specialize (H x). lia.
Qed.

Lemma INFO_nonempty : INFO <> [].
Proof. discriminate. Qed.

Lemma ERROR_nonempty : ERROR <> [].
Proof. discriminate. Qed.

(** The message shown for a line that holds [tag]. *)
Lemma message_after_spec (tag line : str) :
  tag <> [] -> contains tag line = true ->
  exists pre rest,
    line = pre ++ tag ++ rest /\ contains tag rest = false
    /\ message_after tag line = strip rest.
Proof.
  intros Ht Hc. destruct (split_last tag line Ht) as (H1 & _ & H3).
  destruct (H3 Hc) as [pre E].
  exists pre, (last_piece (split tag line)). repeat split; auto.
Qed.

Lemma shown_message (tag rest : str) (n : nat) :
  contains tag rest = false ->
  (length (firstn n (strip rest)) <= n)%nat
  /\ contains tag (firstn n (strip rest)) = false
  /\ match firstn n (strip rest) with
     | [] => True
     | c :: _ => is_space c = false
     end.
Proof.
  intros H. repeat split.
  - apply firstn_le_length.
  - apply (contains_part tag _ rest); [|exact H].
    eapply part_of_trans; [apply part_of_firstn|apply strip_part].
  - pose proof (strip_head rest) as Hh.
    destruct (strip rest) as [|c r]; destruct n; cbn [firstn]; auto.
Qed.

Lemma by_name_map_sorted (l : list (str * list json)) :
  StronglySorted by_name l ->
  StronglySorted by_name (map (fun p => (fst p, length (snd p))) l).
Proof.
  induction 1 as [|q l Hs IH Hq]; cbn [map]; constructor; [exact IH|].
  rewrite Forall_forall in *. intros x Hx.
  apply in_map_iff in Hx as (y & <- & Hy). exact (Hq y Hy).
Qed.

Lemma NoDup_firstn {A : Type} (n : nat) (l : list A) :
  NoDup l -> NoDup (firstn n l).
Proof.
  intros H. rewrite <- (firstn_skipn n l) in H.
  now apply NoDup_app_remove_r in H.
Qed.

Lemma file_lines_in (g : list (str * list json)) (fname : str) (n : nat) :
  In (fname, n) (file_lines g) ->
  exists l, In (fname, l) g /\ n = length l
            /\ In (fname, l) (firstn 5 (sorted_items g)).
Proof.
  unfold file_lines. intros H. apply in_map_iff in H as ([f l] & E & Hi).
  cbn [fst snd] in E. injection E as -> <-. exists l. repeat split; auto.
  apply (Permutation_in _ (sorted_items_perm g)).
  rewrite <- (firstn_skipn 5 (sorted_items g)). apply in_or_app. now left.
Qed.

Lemma search_login_total (lines : list str) (t : target) :
  exists t', search_login lines t = Some t'
             /\ search_login_again lines t = Some t'.
Proof.
  unfold search_login, search_login_again.
  destruct (first_line has_login 0 lines) as [[i line]|] eqn:E;
    [|now exists t].
  apply first_line_spec in E as (k & _ & _ & Ht & _).
  unfold has_login in Ht. apply andb_true_iff in Ht as [Hl _].
  rewrite Hl. destruct (index_of_contains _ _ Hl) as [c ->].
  now exists (Some i, c).
Qed.

(** ** Properties of what the test scripts print *)

(** X19.  The lines of the server log that test_refs.py shows: at most
    fifteen; each is the first hundred characters of the text behind the
    last INFO of a log line that mentions one of the key words, without
    the white space around that text.  So a message shown has at most a
    hundred characters, holds no INFO and does not begin with white
    space. *)
Theorem server_logs_spec (stderr : str) :
  (length (server_logs stderr) <= 15)%nat
  /\ forall m, In m (server_logs stderr) ->
       (exists line pre rest,
           In line (split [LF] stderr)
           /\ mentions REFS_KEYWORDS line = true
           /\ line = pre ++ INFO ++ rest
           /\ contains INFO rest = false
           /\ m = firstn 100 (strip rest))
       /\ (length m <= 100)%nat
       /\ contains INFO m = false
       /\ match m with
          | [] => True
          | c :: _ => is_space c = false
          end.
Proof.
  unfold server_logs. split.
  - eapply Nat.le_trans; [apply flat_map_length_le|apply tail_of_length].
    intros line. destruct (mentions REFS_KEYWORDS line); [|cbn; lia].
    destruct (contains INFO line); cbn; lia.
  - intros m Hm. apply in_flat_map in Hm as (line & Hl & Hm).
    destruct (mentions REFS_KEYWORDS line) eqn:Ek; [|destruct Hm].
    destruct (contains INFO line) eqn:Ei; [|destruct Hm].
    destruct Hm as [<-|[]].
    destruct (message_after_spec INFO line INFO_nonempty Ei)
      as (pre & rest & E & Hr & ->).
    destruct (shown_message INFO rest 100 Hr) as (H1 & H2 & H3).
    repeat split; auto.
    exists line, pre, rest. repeat split; auto.
    now apply tail_of_incl in Hl.
Qed.

(** X20.  The lines of the server log that test_workspace.py shows: at
    most thirty; a line shown as INFO comes from a log line that holds
    INFO, whether or not it holds ERROR too, and a line shown as ERROR
    from a log line that holds ERROR and no INFO; a log line with WARN
    that holds neither is not shown.  The message is the text behind the
    last INFO or ERROR of the line, stripped and cut to a hundred
    characters. *)
Theorem workspace_logs_spec (stderr : str) :
  (length (workspace_logs stderr) <= 30)%nat
  /\ (forall line, contains INFO line = false -> contains ERROR line = false ->
                   show_line line = [])
  /\ forall x, In x (workspace_logs stderr) ->
       exists line pre rest,
         In line (split [LF] stderr)
         /\ ((x = InfoLine (firstn 100 (strip rest))
              /\ line = pre ++ INFO ++ rest /\ contains INFO rest = false)
             \/ (x = ErrorLine (firstn 100 (strip rest))
                 /\ contains INFO line = false
                 /\ line = pre ++ ERROR ++ rest /\ contains ERROR rest = false)).
Proof.
  assert (Hwarn : forall line, contains INFO line = false ->
                               contains ERROR line = false ->
                               show_line line = []).
  { intros line Hi He. unfold show_line. rewrite Hi, He.
    now destruct (_ || _). }
  unfold workspace_logs.
  destruct (nonempty stderr); [|split; [cbn; lia|split; [exact Hwarn|intros x []]]].
  split; [|split; [exact Hwarn|]].
  - eapply Nat.le_trans; [apply flat_map_length_le|apply tail_of_length].
    intros line. unfold show_line.
    destruct (_ || _); [|cbn; lia].
    destruct (contains INFO line); [cbn; lia|].
    destruct (contains ERROR line); cbn; lia.
  - intros x Hx. apply in_flat_map in Hx as (line & Hl & Hx).
    apply tail_of_incl in Hl. unfold show_line in Hx.
    destruct (_ || _); [|destruct Hx].
    destruct (contains INFO line) eqn:Ei.
    + destruct Hx as [<-|[]].
      destruct (message_after_spec INFO line INFO_nonempty Ei)
        as (pre & rest & E & Hr & ->).
      exists line, pre, rest. split; [exact Hl|]. left. repeat split; auto.
    + destruct (contains ERROR line) eqn:Ee; [|destruct Hx].
      destruct Hx as [<-|[]].
      destruct (message_after_spec ERROR line ERROR_nonempty Ee)
        as (pre & rest & E & Hr & ->).
      exists line, pre, rest. split; [exact Hl|]. right. repeat split; auto.
Qed.

(** X21.  The loop that sorts the references by file puts every reference
    in the list of the name of its file and nowhere else: the names are
    distinct, no list is empty, the list of a name holds the references
    of that file in the order they came, and the lists together hold as
    many references as there are. *)
Theorem group_refs_partition (refs : list json) (by_file : list (str * list json)) :
  group_refs refs [] = Some by_file ->
  NoDup (map fst by_file)
  /\ list_sum (map (fun p => length (snd p)) by_file) = length refs
  /\ (forall fname l, In (fname, l) by_file ->
                      l <> [] /\ l = filter (in_file fname) refs)
  /\ (forall r, In r refs ->
                exists fname l, ref_file r = Some fname
                                /\ In (fname, l) by_file /\ In r l).
Proof.
  intros H.
  destruct (group_refs_inv refs [] [] by_file) as (Hn & Hg & Hr);
    [constructor|reflexivity|exact H|].
  cbn [List.app] in Hg. repeat split.
  - exact Hn.
  - now rewrite (group_refs_total refs [] by_file H).
  - apply (files_get_in _ _ _ Hn) in H0. rewrite Hg in H0.
    destruct (filter (in_file fname) refs); [discriminate|].
    injection H0 as <-. discriminate.
  - apply (files_get_in _ _ _ Hn) in H0. rewrite Hg in H0.
    destruct (filter (in_file fname) refs); [discriminate|].
    now injection H0 as <-.
  - intros r Hin. destruct (Hr r Hin) as [fname Ef].
    assert (Hi : In r (filter (in_file fname) refs)).
    { apply filter_In. split; [exact Hin|].
      unfold in_file. rewrite Ef. apply str_eqb_refl. }
    exists fname, (filter (in_file fname) refs). repeat split; auto.
    apply (files_get_in _ _ _ Hn). rewrite Hg.
    destruct (filter (in_file fname) refs); [destruct Hi|reflexivity].
Qed.

Lemma group_refs_partition_witness :
  let r1 := JObj [(URI, JStr (lit "file:///src/A.elm"))] in
  let r2 := JObj [(URI, JStr (lit "file:///src/B.elm"))] in
  let r3 := JObj [(URI, JStr (lit "file:///lib/A.elm"))] in
  let by_file := [(lit "A.elm", [r1; r3]); (lit "B.elm", [r2])] in
  NoDup (map fst by_file)
  /\ list_sum (map (fun p => length (snd p)) by_file) = 3%nat
  /\ (forall fname l, In (fname, l) by_file ->
                      l <> [] /\ l = filter (in_file fname) [r1; r2; r3])
  /\ (forall r, In r [r1; r2; r3] ->
                exists fname l, ref_file r = Some fname
                                /\ In (fname, l) by_file /\ In r l).
Proof.
  apply (group_refs_partition
           [JObj [(URI, JStr (lit "file:///src/A.elm"))];
            JObj [(URI, JStr (lit "file:///src/B.elm"))];
            JObj [(URI, JStr (lit "file:///lib/A.elm"))]]).
  reflexivity.
Defined.

(** X22.  What is printed for a response to the references request: the
    number of references of the result, and five lines at most, one for
    each of the first files in the order of their names, no name twice,
    each with the number of references in that file.  A file that is left
    out has its name behind the five names shown. *)
Theorem report_references_spec (resp : list (str * json)) (n : nat)
        (lines : list (str * nat)) :
  report_references (Some (JObj resp)) = Some (Found n lines) ->
  n = length (refs_of resp)
  /\ (length lines <= 5)%nat
  /\ StronglySorted by_name lines
  /\ NoDup (map fst lines)
  /\ (forall fname k, In (fname, k) lines ->
                      (0 < k)%nat
                      /\ k = length (filter (in_file fname) (refs_of resp)))
  /\ (forall r, In r (refs_of resp) ->
                exists f, ref_file r = Some f
                          /\ (In f (map fst lines)
                              \/ (length lines = 5%nat
                                  /\ forall fname, In fname (map fst lines) ->
                                                   str_leb fname f = true))).
Proof.
  unfold report_references, refs_of.
  destruct (truthy (JObj resp)); [|discriminate].
  destruct (truthy (dict_get_default RESULT resp (JArr []))) eqn:Et.
  2:{ intros H. injection H as <- <-.
      assert (E : match dict_get_default RESULT resp (JArr []) with
                  | JArr l => l
                  | _ => []
                  end = []).
      { destruct (dict_get_default RESULT resp (JArr [])) as [| | | | |l|];
          try reflexivity.
        destruct l; [reflexivity|discriminate]. }
      rewrite E. cbn [length map].
      split; [reflexivity|]. split; [lia|]. split; [apply SSorted_nil|].
      split; [apply NoDup_nil|]. split; [intros ? ? []|intros ? []]. }
  destruct (dict_get_default RESULT resp (JArr [])) as [| | | | |refs|];
    try discriminate.
  destruct (group_refs refs []) as [by_file|] eqn:Eg; [|discriminate].
  cbn [bind]. intros H. injection H as <- <-.
  destruct (group_refs_inv refs [] [] by_file) as (Hn & Hg & Hr);
    [constructor|reflexivity|exact Eg|].
  cbn [List.app] in Hg.
  assert (Hin : forall fname l, In (fname, l) by_file ->
                                l <> [] /\ l = filter (in_file fname) refs).
  { intros fname l Hi. apply (files_get_in _ _ _ Hn) in Hi. rewrite Hg in Hi.
    destruct (filter (in_file fname) refs); [discriminate|].
    injection Hi as <-. split; [discriminate|reflexivity]. }
  assert (Hlen : length (file_lines by_file) = Nat.min 5 (length by_file)).
  { unfold file_lines.
    now rewrite length_map, length_firstn, length_sorted_items. }
  assert (Hnames : map fst (file_lines by_file)
                   = map fst (firstn 5 (sorted_items by_file))).
  { unfold file_lines. rewrite map_map. reflexivity. }
  split; [reflexivity|]. split; [lia|]. split; [|split; [|split]].
  - unfold file_lines. apply by_name_map_sorted, StronglySorted_firstn,
                         sorted_items_sorted.
  - rewrite Hnames, <- firstn_map. apply NoDup_firstn.
    apply (Permutation_NoDup (l := map fst by_file)); [|exact Hn].
    apply Permutation_map. symmetry. apply sorted_items_perm.
  - intros fname k Hk. apply file_lines_in in Hk as (l & Hi & -> & _).
    destruct (Hin _ _ Hi) as [Hne E]. split; [|now rewrite <- E].
    destruct l; [congruence|cbn; lia].
  - intros r Hrin. destruct (Hr r Hrin) as [f Ef]. exists f.
    split; [exact Ef|].
    assert (Hf : In r (filter (in_file f) refs)).
    { apply filter_In. split; [exact Hrin|].
      unfold in_file. rewrite Ef. apply str_eqb_refl. }
    assert (Hi : In (f, filter (in_file f) refs) by_file).
    { apply (files_get_in _ _ _ Hn). rewrite Hg.
      destruct (filter (in_file f) refs); [destruct Hf|reflexivity]. }
    assert (Hs : In (f, filter (in_file f) refs) (sorted_items by_file))
      by (apply (Permutation_in _ (Permutation_sym (sorted_items_perm by_file))),
          Hi).
    rewrite <- (firstn_skipn 5 (sorted_items by_file)) in Hs.
    apply in_app_or in Hs as [Hs|Hs].
    + left. rewrite Hnames. now apply (in_map fst) in Hs.
    + right. split.
      * rewrite Hlen. apply Nat.min_l.
        rewrite <- (length_sorted_items by_file).
        rewrite <- (firstn_skipn 5 (sorted_items by_file)), length_app.
        destruct (skipn 5 (sorted_items by_file)) eqn:Esk; [destruct Hs|].
        assert (length (firstn 5 (sorted_items by_file)) = 5%nat); [|lia].
        apply firstn_length_le.
        destruct (Nat.le_gt_cases 5 (length (sorted_items by_file)));
          [assumption|].
        rewrite skipn_all2 in Esk by lia. discriminate.
      * intros fname Hfn. rewrite Hnames in Hfn.
        apply in_map_iff in Hfn as ([f' l'] & <- & Hfirst).
        exact (StronglySorted_split by_name 5 _ (sorted_items_sorted by_file)
                 _ _ Hfirst Hs).
Qed.

Lemma report_references_spec_witness :
  let r1 := JObj [(URI, JStr (lit "file:///src/B.elm"))] in
  let r2 := JObj [(URI, JStr (lit "file:///src/A.elm"))] in
  let resp := [(lit "id", JInt 2); (RESULT, JArr [r1; r2; r1])] in
  let lines := [(lit "A.elm", 1%nat); (lit "B.elm", 2%nat)] in
  3%nat = length (refs_of resp)
  /\ (length lines <= 5)%nat
  /\ StronglySorted by_name lines
  /\ NoDup (map fst lines)
  /\ (forall fname k, In (fname, k) lines ->
                      (0 < k)%nat
                      /\ k = length (filter (in_file fname) (refs_of resp)))
  /\ (forall r, In r (refs_of resp) ->
                exists f, ref_file r = Some f
                          /\ (In f (map fst lines)
                              \/ (length lines = 5%nat
                                  /\ forall fname, In fname (map fst lines) ->
                                                   str_leb fname f = true))).
Proof.
  apply (report_references_spec
           [(lit "id", JInt 2);
            (RESULT, JArr [JObj [(URI, JStr (lit "file:///src/B.elm"))];
                           JObj [(URI, JStr (lit "file:///src/A.elm"))];
                           JObj [(URI, JStr (lit "file:///src/B.elm"))]])]).
  reflexivity.
Defined.

(** X23.  The position sent for loginEmail is that of its first occurrence
    on the first line of the file that holds both loginEmail and an equals
    sign: no line before it holds both, and loginEmail stands at the
    character sent and nowhere before it on that line. *)
Theorem login_target_is_first_occurrence
        (content : str) (i c : nat) (t3 t4 : target) :
  targets content = Some ((Some i, c), t3, t4) ->
  exists line,
    nth_error (split [LF] content) i = Some line
    /\ contains EQUALS line = true
    /\ startswith LOGIN_EMAIL (skipn c line) = true
    /\ (forall c', (c' < c)%nat -> startswith LOGIN_EMAIL (skipn c' line) = false)
    /\ (forall j l, (j < i)%nat -> nth_error (split [LF] content) j = Some l ->
                    has_login l = false).
Proof.
  unfold targets, search_login.
  destruct (first_line has_login 0 (split [LF] content)) as [[k line]|] eqn:E.
  2:{ cbn [bind]. destruct (search_login_again _ _); cbn [bind];
      intros H; discriminate. }
  apply first_line_spec in E as (k' & -> & Hn & Ht & Hb). cbn [Nat.add] in *.
  unfold has_login in Ht. apply andb_true_iff in Ht as [Hl He].
  rewrite Hl. destruct (index_of LOGIN_EMAIL line) as [c0|] eqn:Ec;
    [|discriminate].
  cbn [bind].
  destruct (search_login_again _ _) as [t4'|]; [|discriminate].
  cbn [bind]. intros H. injection H as <- <- _ _.
  destruct (index_of_spec _ _ _ Ec) as [H1 H2].
  exists line. repeat split; auto.
Qed.

Lemma login_target_is_first_occurrence_witness :
  exists line,
    nth_error (split [LF] login_only) 2 = Some line
    /\ contains EQUALS line = true
    /\ startswith LOGIN_EMAIL (skipn 4 line) = true
    /\ (forall c', (c' < 4)%nat -> startswith LOGIN_EMAIL (skipn c' line) = false)
    /\ (forall j l, (j < 2)%nat -> nth_error (split [LF] login_only) j = Some l ->
                    has_login l = false).
Proof.
  apply (login_target_is_first_occurrence login_only 2 4 (Some 2%nat, 4%nat)
           (Some 2%nat, 4%nat)).
  reflexivity.
Defined.

(** X24.  The three searches never fail, and a search that finds nothing
    leaves the position of the search before: when no line begins with
    [id ], the references of id are asked for at the position found for
    loginEmail, or at line null, character 0 when that was not found
    either; and the rename is asked for at the position of the first
    request whenever loginEmail was found. *)
Theorem targets_go_stale (content : str) :
  exists t2 t3 t4,
    targets content = Some (t2, t3, t4)
    /\ (first_line starts_id 0 (split [LF] content) = None -> t3 = t2)
    /\ (fst t2 <> None -> t4 = t2)
    /\ (fst t2 = None ->
        t2 = (None, O) /\ t4 = t3
        /\ (first_line starts_id 0 (split [LF] content) = None ->
            position t3 = JObj [(LINE, JNull); (CHARACTER, JInt 0)])).
Proof.
  unfold targets. set (lines := split [LF] content).
  destruct (search_login_total lines (None, O)) as (t2 & E2 & _).
  rewrite E2. cbn [bind].
  destruct (search_login_total lines (search_id lines t2)) as (t4 & _ & E4).
  rewrite E4. cbn [bind].
  exists t2, (search_id lines t2), t4. split; [reflexivity|].
  unfold search_login in E2. unfold search_login_again in E4.
  unfold search_id.
  destruct (first_line has_login 0 lines) as [[i line]|] eqn:El.
  - assert (Hl : contains LOGIN_EMAIL line = true).
    { apply first_line_spec in El as (k & _ & _ & Ht & _).
      unfold has_login in Ht. now apply andb_true_iff in Ht as [Hl _]. }
    rewrite Hl in E2.
    destruct (index_of LOGIN_EMAIL line) as [c|]; cbn [bind] in *; [|discriminate].
    injection E2 as <-. injection E4 as <-. cbn [fst].
    split; [|split].
    + now intros ->.
    + reflexivity.
    + discriminate.
  - injection E2 as <-. injection E4 as <-. cbn [fst].
    split; [|split].
    + now intros ->.
    + congruence.
    + intros _. split; [reflexivity|split; [reflexivity|]].
      now intros ->.
Qed.

(** X25.  The total that the rename summary prints is the number of edits
    in the files it lists, the first ten in the order of their uris: it
    is the number of edits of the rename when there are ten files or
    fewer, and falls short of it by the edits of the files left out
    otherwise, while the number of files printed beside it counts them
    all. *)
Theorem rename_total_counts_listed_files (ch : list (str * json)) :
  truthy (JObj ch) = true ->
  forallb (fun p => has_len (snd p)) ch = true ->
  exists lines total,
    rename_summary (Some (rename_response (JObj ch)))
    = Some (Changes (length ch) lines
                    (if (10 <? length ch)%nat then Some (length ch - 10)%nat
                     else None)
                    total)
    /\ length lines = Nat.min 10 (length ch)
    /\ total = list_sum (map snd lines)
    /\ (total + all_edits (skipn 10 (sorted_items ch)) = all_edits ch)%nat
    /\ ((length ch <= 10)%nat -> total = all_edits ch).
Proof.
  intros Ht Hl.
  assert (E : rename_summary (Some (rename_response (JObj ch)))
              = bind (list_edits (firstn 10 (sorted_items ch)) O)
                     (fun r => Some (Changes (length ch) (fst r)
                                             (if (10 <? length ch)%nat
                                              then Some (length ch - 10)%nat
                                              else None)
                                             (snd r)))).
  { destruct ch as [|p ch]; [discriminate|reflexivity]. }
  assert (Hall : Forall (fun p => py_len (snd p) <> None)
                        (firstn 10 (sorted_items ch))).
  { rewrite Forall_forall. intros p Hp.
    assert (Hin : In p ch).
    { apply (Permutation_in _ (sorted_items_perm ch)).
      rewrite <- (firstn_skipn 10 (sorted_items ch)). apply in_or_app. now left. }
    rewrite forallb_forall in Hl. specialize (Hl p Hin).
    unfold has_len in Hl. destruct (py_len (snd p)); [discriminate|discriminate]. }
  destruct (list_edits_spec _ Hall O) as (lines & Hr & Hlen & Hsum).
  rewrite E, Hr. cbn [bind fst snd Nat.add].
  exists lines, (all_edits (firstn 10 (sorted_items ch))).
  assert (Htot : (all_edits (firstn 10 (sorted_items ch))
                  + all_edits (skipn 10 (sorted_items ch)) = all_edits ch)%nat).
  { rewrite <- all_edits_app, firstn_skipn.
    apply all_edits_perm, sorted_items_perm. }
  repeat split.
  - now rewrite Hlen, length_firstn, length_sorted_items.
  - now symmetry.
  - exact Htot.
  - intros Hle. rewrite <- Htot.
    rewrite (skipn_all2 (sorted_items ch)) by (rewrite length_sorted_items; lia).
    cbn [all_edits]. lia.
Qed.

Lemma rename_total_counts_listed_files_witness :
  exists lines total,
    rename_summary (Some (rename_response (JObj twelve_files)))
    = Some (Changes 12 lines (Some 2%nat) total)
    /\ length lines = 10%nat
    /\ total = list_sum (map snd lines)
    /\ (total + all_edits (skipn 10 (sorted_items twelve_files))
        = all_edits twelve_files)%nat
    /\ ((12 <= 10)%nat -> total = all_edits twelve_files).
Proof.
  apply (rename_total_counts_listed_files twelve_files); reflexivity.
Defined.

(** ** Header lines besides Content-Length *)

Lemma strip_prefix_before (x : char) (h : str) :
  Forall (fun y => y <> x) h ->
  forall l t s1,
    strip_prefix h (l ++ x :: t) = Some s1 ->
    exists l1, strip_prefix h l = Some l1.
Proof.
  induction 1 as [|a h Ha Hh IH]; intros l t s1; cbn [strip_prefix].
  - intros _. now exists l.
  - destruct l as [|b l]; cbn [List.app].
    + destruct (N.eqb_spec a x); [congruence|discriminate].
    + destruct (a =? b); [apply IH|discriminate].
Qed.

Lemma re_match_here_no_header (b : str) :
  strip_prefix HEADER b = None -> re_match_here b = None.
Proof. unfold re_match_here. now intros ->. Qed.

(** No match begins inside [l] when [l] holds no capital C. *)
Lemma no_match_inside (l a e t : str) :
  Forall (fun y => y <> 67) l -> l = a ++ e -> e <> [] ->
  re_match_here (e ++ t) = None.
Proof.
  intros Hl E He. destruct e as [|c e]; [congruence|].
  cbn [List.app]. apply re_match_here_head.
  rewrite E in Hl. apply Forall_app in Hl as [_ Hl]. now inversion Hl.
Qed.

Lemma printable_head (field : str) (t : str) :
  forallb is_printable field = true -> nonempty field = true ->
  match_eol (field ++ t) = None.
Proof.
  destruct field as [|c f]; [discriminate|].
  cbn [forallb List.app match_eol]. intros H _.
  apply andb_true_iff in H as [Hc _]. unfold is_printable in Hc.
  apply andb_true_iff in Hc as [H1 H2].
  apply N.leb_le in H1. apply N.leb_le in H2.
  destruct (N.eqb_spec c CR) as [->|_]; [unfold CR in *; lia|].
  destruct (N.eqb_spec c LF) as [->|_]; [unfold LF in *; lia|reflexivity].
Qed.

Lemma re_search_frame_then_field (field body : str) :
  forallb is_printable field = true -> nonempty field = true ->
  contains HEADER field = false -> count_lf body = 0%nat ->
  re_search (frame_then_field field body) = None.
Proof.
  intros Hp Hne Hc Hb. apply re_search_none. intros a b E.
  set (ds := str_of_N (N.of_nat (length body))) in *.
  set (h1 := HEADER ++ ds ++ [CR; LF]).
  assert (Es : frame_then_field field body
               = h1 ++ field ++ CRLF_CRLF ++ body).
  { unfold frame_then_field, h1. fold ds. now rewrite <- !app_assoc. }
  destruct a as [|x a].
  - (* the match at the start stops at the second line *)
    cbn [List.app] in E. subst b. unfold frame_then_field. fold ds.
    unfold re_match_here. rewrite strip_prefix_app. cbn [bind].
    rewrite (span_digits_app ds _ (str_of_N_digits _)) by reflexivity.
    destruct ds as [|d ds'] eqn:Ed;
      [exfalso; now apply (str_of_N_nonempty (N.of_nat (length body)))|].
    cbn [List.app match_eol].
    change (CR =? CR) with true. change (LF =? LF) with true. cbn [bind].
    now rewrite printable_head.
  - rewrite Es in E. symmetry in E.
    destruct (Nat.lt_ge_cases (length (x :: a)) (length h1)) as [Hlt|Hge].
    + (* inside the first line *)
      destruct (app_eq_short _ _ _ _ E Hlt) as (e & He & Eh & ->).
      assert (Hh : exists tl, h1 = 67 :: tl /\ Forall (fun y => y <> 67) tl).
      { exists (skipn 1 (HEADER ++ ds ++ [CR; LF])). split; [reflexivity|].
        change (skipn 1 (HEADER ++ ds ++ [CR; LF]))
          with (skipn 1 HEADER ++ ds ++ [CR; LF]).
        apply Forall_app. split; [repeat constructor; discriminate|].
        apply Forall_app. split; [|repeat constructor; discriminate].
        apply digits_not_C, str_of_N_digits. }
      destruct Hh as (tl & Etl & Htl). rewrite Etl in Eh.
      cbn [List.app] in Eh. injection Eh as _ Eh.
      exact (no_match_inside tl a e _ Htl Eh He).
    + destruct (app_eq_long _ _ _ _ E Hge) as (s' & _ & E').
      symmetry in E'.
      destruct (Nat.lt_ge_cases (length s') (length field)) as [Hlt|Hge2].
      * (* inside the second line *)
        destruct (app_eq_short _ _ _ _ E' Hlt) as (e2 & He & Ef & ->).
        apply re_match_here_no_header.
        destruct (strip_prefix HEADER (e2 ++ CRLF_CRLF ++ body)) as [r|] eqn:Er;
          [|reflexivity].
        exfalso. unfold CRLF_CRLF in Er. cbn [List.app] in Er.
        apply strip_prefix_before in Er as [l1 Hl1];
          [|repeat constructor; discriminate].
        apply strip_prefix_sound in Hl1. subst e2.
        apply contains_false in Hc. apply Hc. exists s', l1. exact Ef.
      * destruct (app_eq_long _ _ _ _ E' Hge2) as (s2 & _ & E2).
        symmetry in E2.
        destruct (Nat.lt_ge_cases (length s2) (length CRLF_CRLF)) as [Hlt|Hge3].
        -- (* inside the terminator *)
           destruct (app_eq_short _ _ _ _ E2 Hlt) as (e & He & Ee & ->).
           apply (no_match_inside CRLF_CRLF s2 e body); auto.
           repeat constructor; discriminate.
        -- (* inside the body *)
           destruct (app_eq_long _ _ _ _ E2 Hge3) as (s3 & _ & E3).
           apply re_match_here_few_lf.
           pose proof (count_lf_suffix s3 b) as Hs. rewrite <- E3 in Hs. lia.
Qed.

(** ** What the reader queues, and the header lines it can read *)

(** X26.  The reader queues nothing that was not framed: every message on
    the queue is the reading of a text that stands in the stream behind a
    header the pattern matches, and has as many characters as the header
    says. *)
Theorem queued_messages_were_framed (stdout rest : str) (queue : list json) :
  read_responses stdout = Some (rest, queue) ->
  Forall (framed_in stdout) queue.
Proof.
  unfold read_responses. intros H.
  apply read_chunks_sound in H as (more & -> & Hm).
  cbn [List.app] in *. now rewrite concat_singletons in Hm.
Qed.

Lemma queued_messages_were_framed_witness :
  Forall (framed_in (encode_lsp msg_initialize ++ lit "Content-Len"))
         [msg_initialize].
Proof.
  apply (queued_messages_were_framed
           (encode_lsp msg_initialize ++ lit "Content-Len")
           (lit "Content-Len") [msg_initialize]).
  reflexivity.
Defined.

(** X27.  The pattern wants the empty line right behind the line of
    Content-Length.  A frame that has another header line behind
    Content-Length, as the base protocol allows (Content-Type), is never
    decoded: the reader finds no match and keeps the whole frame in the
    buffer.  With the other line before Content-Length the frame is
    decoded, and that line is dropped. *)
Theorem header_field_after_length_stalls (field body : str) :
  forallb is_printable field = true -> nonempty field = true ->
  contains HEADER field = false -> count_lf body = 0%nat ->
  read_responses (frame_then_field field body)
  = Some (frame_then_field field body, [])
  /\ read_responses (field_then_frame field body) = Some ([], decoded [body]).
Proof.
  intros Hp Hne Hc Hb. split.
  - apply read_responses_no_match. now apply re_search_frame_then_field.
  - unfold field_then_frame, read_responses.
    assert (Hj : re_search (field ++ [CR; LF]) = None).
    { destruct (re_search (field ++ [CR; LF])) as [r|] eqn:Er; [|reflexivity].
      apply re_search_from_lf in Er. rewrite count_lf_app in Er.
      rewrite (count_lf_printable field) in Er
        by (unfold all_printable; rewrite Forall_forall; intros c Hin;
            rewrite forallb_forall in Hp; specialize (Hp c Hin);
            unfold is_printable in Hp; apply andb_true_iff in Hp as [H1 H2];
            apply N.leb_le in H1; apply N.leb_le in H2; lia).
      cbn in Er. lia. }
    apply (read_chunks_junk_frames (field ++ [CR; LF]) [body]).
    + exact Hj.
    + discriminate.
    + apply singletons_nonempty.
    + rewrite concat_singletons. cbn [map concat].
      now rewrite List.app_nil_r, <- app_assoc.
Qed.

Lemma header_field_after_length_stalls_witness :
  read_responses (frame_then_field CONTENT_TYPE (lit "{}"))
  = Some (frame_then_field CONTENT_TYPE (lit "{}"), [])
  /\ read_responses (field_then_frame CONTENT_TYPE (lit "{}"))
     = Some ([], [JObj []]).
Proof.
  apply (header_field_after_length_stalls CONTENT_TYPE (lit "{}"));
    reflexivity.
Defined.

(** ** The feature comparison *)

(** X30.  The feature comparison takes the next message of the queue as
    the response to its documentSymbol request: when that message is a
    notification, an object without a result, the entry is the empty list
    of symbols, the same as for a response whose result is empty or null,
    and the response itself stays in the queue for the next request. *)
Theorem notification_read_as_no_symbols
        (w : world) (a : arrival) (rest : list arrival) (kv : list (str * json)) :
  pending w = a :: rest ->
  at_ms a < now w + 5000 ->
  msg a = JObj kv ->
  dict_get RESULT kv = None ->
  take_symbols w
  = (Some (Symbols []), {| now := N.max (now w) (at_ms a); pending := rest |})
  /\ document_symbols (JObj kv) = document_symbols (response 2 (JArr []))
  /\ document_symbols (JObj kv) = document_symbols (response 2 JNull).
Proof.
  intros Hp Ht Hm Hr.
  assert (Ed : document_symbols (JObj kv) = Some []).
  { unfold document_symbols, dict_get_default. now rewrite Hr. }
  split; [|split; [exact Ed|exact Ed]].
  unfold take_symbols, queue_get. rewrite Hp.
  destruct (N.leb_spec (at_ms a) (now w)).
  - rewrite Hm, Ed. cbn [option_map]. do 3 f_equal. lia.
  - destruct (N.ltb_spec (at_ms a) (now w + 5000)); [|lia].
    rewrite Hm, Ed. cbn [option_map]. do 3 f_equal. lia.
Qed.

Lemma notification_read_as_no_symbols_witness :
  take_symbols {| now := 700;
                  pending := [ {| at_ms := 300; msg := msg_log |};
                               {| at_ms := 900;
                                  msg := response 2 (JArr [JObj []]) |} ] |}
  = (Some (Symbols []),
     {| now := N.max 700 300;
        pending := [ {| at_ms := 900; msg := response 2 (JArr [JObj []]) |} ] |})
  /\ document_symbols msg_log = document_symbols (response 2 (JArr []))
  /\ document_symbols msg_log = document_symbols (response 2 JNull).
Proof.
  apply (notification_read_as_no_symbols
           {| now := 700;
              pending := [ {| at_ms := 300; msg := msg_log |};
                           {| at_ms := 900;
                              msg := response 2 (JArr [JObj []]) |} ] |}
           {| at_ms := 300; msg := msg_log |}
           [ {| at_ms := 900; msg := response 2 (JArr [JObj []]) |} ]
           [(lit "jsonrpc", JStr (lit "2.0"));
            (lit "method", JStr (lit "window/logMessage"));
            (lit "params", JObj [])]);
    reflexivity.
Defined.

(** ** Strings with surrogates *)

Lemma join_pairs_cons2 (c d : char) (r : str) :
  join_pairs (c :: d :: r)
  = if is_high_surrogate c && is_low_surrogate d
    then join_surrogates c d :: join_pairs r
    else c :: join_pairs (d :: r).
Proof. reflexivity. Qed.

Lemma scanstring_encode_joined (n : nat) :
  forall s rest,
    (length s <= n)%nat -> Forall (fun c => c < 1114112) s ->
    scanstring (flat_map escape_char s ++ QUOTE :: rest)
    = Some (join_pairs s, rest).
Proof.
  induction n as [|n IH]; intros s rest Hn Hs.
  - destruct s; [reflexivity|cbn [length] in Hn; lia].
  - destruct s as [|c [|d r]]; [reflexivity| |].
    + apply Forall_inv in Hs. cbn [flat_map List.app].
      rewrite List.app_nil_r, scanstring_escape_char.
      * reflexivity.
      * exact Hs.
      * rewrite low_escape_ahead_head by discriminate. apply andb_false_r.
    + pose proof (Forall_inv Hs) as Hc. apply Forall_inv_tail in Hs.
      pose proof (Forall_inv Hs) as Hd.
      rewrite join_pairs_cons2.
      destruct (is_high_surrogate c && is_low_surrogate d) eqn:E.
      * apply andb_true_iff in E as [E1 E2].
        pose proof (high_surrogate_range c E1).
        pose proof (low_surrogate_range d E2).
        cbn [flat_map]. rewrite !escape_char_bmp by lia.
        rewrite <- !app_assoc, scanstring_u_pair by (assumption || lia).
        rewrite (IH r rest); [reflexivity| |].
        -- cbn [length] in Hn. lia.
        -- now apply Forall_inv_tail in Hs.
      * change (flat_map escape_char (c :: d :: r))
          with (escape_char c ++ flat_map escape_char (d :: r)).
        rewrite <- app_assoc, scanstring_escape_char.
        -- rewrite (IH (d :: r) rest); [reflexivity| |exact Hs].
           cbn [length] in *. lia.
        -- exact Hc.
        -- rewrite low_escape_ahead_encode by exact Hd. exact E.
Qed.

Lemma join_pairs_length (n : nat) :
  forall s, (length s <= n)%nat -> (length (join_pairs s) <= length s)%nat.
Proof.
  induction n as [|n IH]; intros s Hn.
  - destruct s; [cbn; lia|cbn [length] in Hn; lia].
  - destruct s as [|c [|d r]]; [cbn; lia|cbn; lia|].
    rewrite join_pairs_cons2.
    destruct (is_high_surrogate c && is_low_surrogate d).
    + assert (length (join_pairs r) <= length r)%nat
        by (apply IH; cbn [length] in Hn; lia).
      cbn [length]. lia.
    + assert (length (join_pairs (d :: r)) <= length (d :: r))%nat
        by (apply IH; cbn [length] in *; lia).
      cbn [length] in *. lia.
Qed.

Lemma join_pairs_fixed (s : str) :
  no_surrogate_pair s = true -> join_pairs s = s.
Proof.
  induction s as [|c s IH]; [reflexivity|].
  cbn [no_surrogate_pair]. intros H.
  apply andb_true_iff in H as [H Hs]. apply andb_true_iff in H as [_ Hp].
  apply negb_true_iff in Hp.
  destruct s as [|d r]; [reflexivity|].
  rewrite join_pairs_cons2. cbn [low_ahead] in Hp. rewrite Hp.
  now rewrite (IH Hs).
Qed.

Lemma join_pairs_changes (n : nat) :
  forall s,
    (length s <= n)%nat -> Forall (fun c => c < 1114112) s ->
    join_pairs s = s -> no_surrogate_pair s = true.
Proof.
  induction n as [|n IH]; intros s Hn Hs E.
  - destruct s; [reflexivity|cbn [length] in Hn; lia].
  - destruct s as [|c [|d r]]; [reflexivity| |].
    + apply Forall_inv in Hs. cbn [no_surrogate_pair low_ahead].
      apply N.ltb_lt in Hs. rewrite Hs, andb_false_r. reflexivity.
    + pose proof (Forall_inv Hs) as Hc. apply Forall_inv_tail in Hs.
      rewrite join_pairs_cons2 in E.
      destruct (is_high_surrogate c && is_low_surrogate d) eqn:Ep.
      * exfalso.
        assert (L : length (join_surrogates c d :: join_pairs r)
                    = length (c :: d :: r)) by now rewrite E.
        pose proof (join_pairs_length (length r) r (Nat.le_refl _)).
        cbn [length] in L. unfold str, char in *. lia.
      * injection E as E.
        change (no_surrogate_pair (c :: d :: r))
          with ((c <? 1114112)
                && negb (is_high_surrogate c && is_low_surrogate d)
                && no_surrogate_pair (d :: r)).
        apply N.ltb_lt in Hc. rewrite Hc, Ep. cbn [negb andb].
        apply (IH (d :: r)); [cbn [length] in *; lia|exact Hs|exact E].
Qed.

Lemma json_loads_dumps_str (s : str) :
  Forall (fun c => c < 1114112) s ->
  json_loads (json_dumps (JStr s)) = Some (JStr (join_pairs s)).
Proof.
  intros Hs. cbn [json_dumps]. unfold encode_basestring_ascii, json_loads.
  cbn [skip_ws is_ws]. change (is_ws QUOTE) with false. cbv iota.
  cbn [length Nat.mul Nat.add]. rewrite scan_once_S.
  change (QUOTE =? QUOTE) with true. cbv iota.
  rewrite (scanstring_encode_joined (length s) s [] (Nat.le_refl _) Hs).
  reflexivity.
Qed.

(** X31.  What becomes of a message that is a string, whatever it holds:
    the reader queues one message, the string with every high surrogate
    that stands directly before a low surrogate joined with it into one
    character, and ends with an empty buffer.  The string comes back as it
    was exactly when it holds no such pair; otherwise it comes back
    shorter. *)
Theorem surrogate_pairs_joined (s : str) :
  forallb (fun c => c <? 1114112) s = true ->
  read_responses (encode_lsp (JStr s)) = Some ([], [JStr (join_pairs s)])
  /\ (join_pairs s = s <-> no_surrogate_pair s = true)
  /\ (length (join_pairs s) <= length s)%nat.
Proof.
  intros H.
  assert (Hs : Forall (fun c => c < 1114112) s).
  { apply Forall_forall. intros c Hc. apply N.ltb_lt.
    now apply (proj1 (forallb_forall _ s) H). }
  split; [|split].
  - rewrite encode_lsp_frame, read_responses_one_frame.
    unfold decoded. cbn [flat_map].
    now rewrite (json_loads_dumps_str s Hs).
  - split; [|apply join_pairs_fixed].
    apply (join_pairs_changes (length s) s (Nat.le_refl _) Hs).
  - apply (join_pairs_length (length s) s (Nat.le_refl _)).
Qed.

Lemma surrogate_pairs_joined_witness :
  read_responses (encode_lsp (JStr [65; 55357; 56832; 55357]))
  = Some ([], [JStr [65; 128512; 55357]]).
Proof.
  exact (proj1 (surrogate_pairs_joined [65; 55357; 56832; 55357] eq_refl)).
Defined.
